(** * Backsplash: the tile pattern generator and its layout geometry

    A shallow embedding of [src/model/geometry.ts] (rectangles, the layout
    engine) and of the tile generator that follows it in the same file
    (seeded randomizer, colour dispenser, row and pattern generators), of
    the reducers of [src/model/backsplash-model.ts] and
    [src/model/colour-model.ts], and of what the designer and export pages
    compute from them (holes from selections, zoom, the table of tiles
    needed, the basis factor of the map).

    Numbers.  JavaScript numbers that hold grid coordinates, counts and
    indexes are integers ([Z]); the remainder operator [%] is the truncated
    remainder [Z.rem], which is NaN for a zero divisor.  Pixel coordinates
    are rationals ([Q]); [===] on them is [Qeq_bool] and equality of
    rectangles as values is componentwise [==].  The code computes them in
    binary64, where every operation rounds.  What is proved of the step of a
    cell, of the grid and of located areas is therefore either an equation
    with both sides in the code's own order of operations, or an order
    between two edges that leaves a grout width of room.

    Effects.  The seeded generator is a state threaded through every draw;
    [seedrandom] itself is an external library and enters as the class
    [SeedRandom].  A thrown error is [None].  The object that [intersect]
    returns is told apart from a new rectangle of the same value
    ([TileRect.Intersection]).  Colour names are property keys of object
    literals: a number or a string assigned to [__proto__] is dropped, and a
    name that the object does not have itself reads as what
    [Object.prototype] holds for it. *)

From Stdlib Require Import String Ascii ZArith QArith Qminmax Qround Bool Lia Lqa.
From Stdlib Require Import List Permutation Sorted.
Import ListNotations.

Set Implicit Arguments.

Local Open Scope Z_scope.

(** ** JavaScript primitives used by the sources *)

Module JS.

(** [a % b] on integers: [None] stands for NaN (zero divisor). *)
Definition rem (a b : Z) : option Z :=
  if b =? 0 then None else Some (Z.rem a b).

(** ToIntegerOrInfinity of an index argument: NaN counts as 0. *)
Definition toIndex (i : option Z) : Z :=
  match i with Some z => z | None => 0 end.

(** A relative index of [splice] and [slice] against a length:
    negative counts from the end, and the result is clamped to [0..len]. *)
Definition clamp (len : nat) (i : Z) : nat :=
  if i <? 0 then Z.to_nat (Z.max (Z.of_nat len + i) 0)
  else Nat.min (Z.to_nat i) len.

Section Arrays.
Variable T : Type.

(** [items.slice(0, end)]. *)
Definition slice0 (items : list T) (end_ : option Z) : list T :=
  firstn (clamp (List.length items) (toIndex end_)) items.

(** [items.splice(start, 1)]: the removed elements and what is left. *)
Definition splice1 (items : list T) (start : Z) : list T * list T :=
  let s := clamp (List.length items) start in
  (firstn 1 (skipn s items), firstn s items ++ skipn (S s) items).

(** [items.splice(start)]: everything from [start] on is removed. *)
Definition spliceFrom (items : list T) (start : Z) : list T * list T :=
  let s := clamp (List.length items) start in
  (skipn s items, firstn s items).

(** [items.at(0)] and [items.at(-1)]; [None] is undefined. *)
Definition atFirst (items : list T) : option T := hd_error items.
Definition atLast (items : list T) : option T := hd_error (rev items).
End Arrays.

End JS.

(** ** Points, sizes and rectangles *)

Local Open Scope Q_scope.

(** [a >= b] and [a < b] on numbers. *)
Definition Qgeb (a b : Q) : bool := Qle_bool b a.
Definition Qltb (a b : Q) : bool := negb (Qle_bool b a).

Module TilePoint.
Record t := mk { x : Q; y : Q }.
End TilePoint.

Module TileSize.
Record t := mk { width : Q; height : Q }.

Definition withWidth (s : t) (w : Q) : t := mk w (height s).
Definition withHeight (s : t) (h : Q) : t := mk (width s) h.
End TileSize.

Module TileRect.
Record t := mk { x : Q; y : Q; width : Q; height : Q }.

Definition left (r : t) : Q := x r.
Definition top (r : t) : Q := y r.
Definition right (r : t) : Q := x r + width r.
Definition bottom (r : t) : Q := y r + height r.

Definition leftMiddle (r : t) : TilePoint.t :=
  TilePoint.mk (left r) (top r + height r / 2).
Definition topMiddle (r : t) : TilePoint.t :=
  TilePoint.mk (left r + width r / 2) (top r).
Definition rightMiddle (r : t) : TilePoint.t :=
  TilePoint.mk (right r) (top r + height r / 2).
Definition bottomMiddle (r : t) : TilePoint.t :=
  TilePoint.mk (left r + width r / 2) (bottom r).

Definition contains (r : t) (p : TilePoint.t) : bool :=
  Qgeb (TilePoint.x p) (left r) && Qle_bool (TilePoint.x p) (right r)
  && Qgeb (TilePoint.y p) (top r) && Qle_bool (TilePoint.y p) (bottom r).

Definition union (this other : t) : t :=
  let l := Qmin (left this) (left other) in
  let t := Qmin (top this) (top other) in
  let r := Qmax (right this) (right other) in
  let b := Qmax (bottom this) (bottom other) in
  mk l t (r - l) (b - t).

(** What [intersect] hands back: [null], the receiver itself ([this],
    the same object), or a newly built rectangle. *)
Inductive Intersection :=
| Null
| This
| Trimmed (r : t).

Definition intersect (this other : t) : Intersection :=
  let l :=
    if contains other (leftMiddle this) && contains other (topMiddle this)
       && contains other (bottomMiddle this)
    then Qmax (left this) (right other) else left this in
  let t :=
    if contains other (topMiddle this) && contains other (leftMiddle this)
       && contains other (rightMiddle this)
    then Qmax (top this) (bottom other) else top this in
  let r :=
    if contains other (rightMiddle this) && contains other (topMiddle this)
       && contains other (bottomMiddle this)
    then Qmin (right this) (left other) else right this in
  let b :=
    if contains other (bottomMiddle this) && contains other (leftMiddle this)
       && contains other (rightMiddle this)
    then Qmin (bottom this) (top other) else bottom this in
  if Qgeb l r || Qgeb t b then Null
  else if Qeq_bool l (left this) && Qeq_bool t (top this)
          && Qeq_bool r (right this) && Qeq_bool b (bottom this)
  then This
  else Trimmed (mk l t (r - l) (b - t)).

(** Equality of rectangles as values. *)
Definition eq (a b : t) : Prop :=
  x a == x b /\ y a == y b /\ width a == width b /\ height a == height b.
End TileRect.

(** ** The parameters record ([backsplash-model.ts], [colour-model.ts]) *)

Module Orientation.
Inductive t := horizontal | vertical.
End Orientation.

Module StepDirection.
Inductive t := left | right.

Definition isRight (d : t) : bool :=
  match d with right => true | left => false end.
End StepDirection.

Record Region := mkRegion {
  startRow : Z;
  startColumn : Z;
  endRow : Z;
  endColumn : Z
}.

Record ColourSpec := mkColour {
  name : string;
  hexcode : string;
  code : string;
  enabled : bool;
  weight : Z;
  favourite : bool
}.

Record TileParametersModel := mkModel {
  seed : string;
  orientation : Orientation.t;
  rowCount : Z;
  columnCount : Z;
  complexity : Z;
  aspectRatio : Z;
  offset : Z;
  stepDirection : StepDirection.t;
  stepAlternate : bool;
  groupSize : Z;
  rotation : Z;
  holes : list Region;
  grout : string;
  colourModel : list ColourSpec
}.

(** ** Tiles and rows of tiles *)

Module Tile.
Record t := mk { key : Z; row : Z; colour : string }.
End Tile.

Module TileRow.
Record t := mk { key : Z; columns : list Tile.t }.
End TileRow.

(** ** The layout engine: [layout(basisFactor, magnification, model, rows)] *)

Section Layout.

Variables basisFactor magnification : Q.
Variable model : TileParametersModel.
Variable rows : list TileRow.t.

Definition basisPx : Q := (16 * magnification) / 100.
Definition groutPx : Q := 2.

Definition measure (rows columns : Z) (inside : bool) : TileSize.t :=
  let groutX := inject_Z (columns + (if inside then -1 else 1)) * groutPx in
  let groutY := inject_Z (rows + (if inside then -1 else 1)) * groutPx in
  TileSize.mk
    ((if (aspectRatio model <? 0)%Z
      then inject_Z columns * basisPx
      else inject_Z columns * basisPx * inject_Z (aspectRatio model) * basisFactor)
     + groutX)
    ((if (0 <? aspectRatio model)%Z
      then inject_Z rows * basisPx
      else - inject_Z rows * basisPx * inject_Z (aspectRatio model) * basisFactor)
     + groutY).

Definition cellSize : TileSize.t := measure 1 1 true.

(** The [amount] and the [direction] of a cell's step, as [locateCell]
    computes them for an offset above 1. *)
Definition stepAmount : Q :=
  match orientation model with
  | Orientation.vertical =>
      if (0 <? aspectRatio model)%Z then 1
      else - inject_Z (aspectRatio model) * basisFactor
  | Orientation.horizontal =>
      if (0 <? aspectRatio model)%Z
      then inject_Z (aspectRatio model) * basisFactor
      else 1
  end.

Definition stepDirectionSign : Q :=
  if StepDirection.isRight (stepDirection model) || (offset model <=? 2)%Z
  then -1 else 1.

Definition locateCell (row column : Z) (inside : bool) : TileRect.t :=
  (* Model indexing is 1-based *)
  let tileX := (column - 1)%Z in
  let tileY := (row - 1)%Z in
  let width := TileSize.width cellSize + (if inside then 0 else 2 * groutPx) in
  let height := TileSize.height cellSize + (if inside then 0 else 2 * groutPx) in
  let x := inject_Z tileX * TileSize.width cellSize
           + inject_Z (if inside then column else tileX) * groutPx in
  let y := inject_Z tileY * TileSize.height cellSize
           + inject_Z (if inside then row else tileY) * groutPx in
  if (1 <? offset model)%Z then
    let amount := stepAmount in
    let index :=
      match orientation model with
      | Orientation.vertical => tileX
      | Orientation.horizontal => tileY
      end in
    (* In vertical orientation, "left" is "down" *)
    let direction := stepDirectionSign in
    let '(x, y) :=
      if stepAlternate model || (offset model <=? 2)%Z then
        if (Z.rem index 2 =? 1)%Z then
          match orientation model with
          | Orientation.horizontal =>
              (x + (direction * basisPx * amount) / inject_Z (offset model), y)
          | Orientation.vertical =>
              (x, y + (direction * basisPx * amount) / inject_Z (offset model))
          end
        else (x, y)
      else
        let modularOffset :=
          (Z.rem index (offset model)
           - (if StepDirection.isRight (stepDirection model)
              then 0 else offset model - 1))%Z in
        match orientation model with
        | Orientation.horizontal =>
            (x + (direction * basisPx * amount * inject_Z modularOffset)
                 / inject_Z (offset model), y)
        | Orientation.vertical =>
            (x, y + (direction * basisPx * amount * inject_Z modularOffset)
                    / inject_Z (offset model))
        end in
    match orientation model with
    | Orientation.horizontal =>
        if Qltb x groutPx
        then TileRect.mk (if inside then groutPx else 0) y
               (width - (if inside then groutPx - x else - x)) height
        else TileRect.mk x y width height
    | Orientation.vertical =>
        if Qltb y groutPx
        then TileRect.mk x (if inside then groutPx else 0) width
               (height - (if inside then groutPx - y else - y))
        else TileRect.mk x y width height
    end
  else TileRect.mk x y width height.

(** The locator function for a tile or an area. *)
Definition locate (row column toRow toColumn : Z) (inside : bool) : TileRect.t :=
  let start := locateCell row column inside in
  let end_ := locateCell toRow toColumn inside in
  TileRect.union start end_.

(** [locate(row, column)]: the call with the defaults
    [toRow = row], [toColumn = column], [inside = true]. *)
Definition locateTile (row column : Z) : TileRect.t :=
  locate row column row column true.

(** [memoize] caches by hole; the cached function is pure. *)
Definition locateHole (hole : Region) : TileRect.t :=
  locate (startRow hole) (startColumn hole) (endRow hole) (endColumn hole) true.

(** [canvasSize] and [canvasCrop]; [None] when the scan of the rows reads a
    property of [undefined] (a row without tiles, or no row at all). The
    crop is [null] ([None]) when there is no offset. *)
Definition scanRows (pick : list Tile.t -> option Tile.t)
    (step : Q -> Tile.t -> Q) (init : Q) : option Q :=
  fold_left
    (fun acc r =>
       match acc, pick (TileRow.columns r) with
       | Some a, Some tile => Some (step a tile)
       | _, _ => None
       end)
    rows (Some init).

Definition canvas : option (TileSize.t * option (list TileRect.t)) :=
  let fullCanvas := measure (rowCount model) (columnCount model) false in
  if (1 <? offset model)%Z then
    match orientation model with
    | Orientation.horizontal =>
        match
          scanRows (@JS.atFirst _)
            (fun max tile =>
               Qmax (TileRect.left (locateCell (Tile.row tile) (Tile.key tile) false)) max)
            0,
          scanRows (@JS.atLast _)
            (fun min tile =>
               Qmin (TileRect.right (locateCell (Tile.row tile) (Tile.key tile) false)) min)
            (TileSize.width fullCanvas)
        with
        | Some left_, Some right_ =>
            let canvasSize := TileSize.withWidth fullCanvas (right_ - left_) in
            Some (canvasSize,
                  Some ((if Qltb 0 left_
                         then [TileRect.mk 0 0 left_ (TileSize.height fullCanvas)]
                         else [])
                        ++ (if Qltb right_ (TileSize.width fullCanvas)
                            then [TileRect.mk right_ 0
                                    (TileSize.width fullCanvas - right_)
                                    (TileSize.height canvasSize)]
                            else [])))
        | _, _ => None
        end
    | Orientation.vertical =>
        match JS.atFirst rows, JS.atLast rows with
        | Some first, Some last =>
            let top :=
              fold_left
                (fun max tile =>
                   Qmax (TileRect.top (locateCell (Tile.row tile) (Tile.key tile) false)) max)
                (TileRow.columns first) 0 in
            let bottom :=
              fold_left
                (fun min tile =>
                   Qmin (TileRect.bottom (locateCell (Tile.row tile) (Tile.key tile) false)) min)
                (TileRow.columns last) (TileSize.height fullCanvas) in
            let canvasSize := TileSize.withHeight fullCanvas (bottom - top) in
            Some (canvasSize,
                  Some ((if Qltb 0 top
                         then [TileRect.mk 0 0 (TileSize.width fullCanvas) top]
                         else [])
                        ++ (if Qltb bottom (TileSize.height fullCanvas)
                            then [TileRect.mk 0 bottom (TileSize.width fullCanvas)
                                    (TileSize.height fullCanvas - bottom)]
                            else [])))
        | _, _ => None
        end
    end
  else Some (fullCanvas, None).

(** One more subtraction applied to the running result of the input [tile]:
    [acc] is [This] while the result still is the input object. *)
Definition trimBy (tile : TileRect.t) (acc : TileRect.Intersection)
    (other : TileRect.t) : TileRect.Intersection :=
  match acc with
  | TileRect.Null => TileRect.Null
  | TileRect.This => TileRect.intersect tile other
  | TileRect.Trimmed r =>
      match TileRect.intersect r other with
      | TileRect.Null => TileRect.Null
      | TileRect.This => TileRect.Trimmed r
      | TileRect.Trimmed r' => TileRect.Trimmed r'
      end
  end.

(** The body of the [forEach] callback over the holes: when nothing is left
    the callback returns, and [result] keeps its value. *)
Definition subtractHole (tile : TileRect.t) (result : TileRect.Intersection)
    (hole : Region) : TileRect.Intersection :=
  let holeRect := locateHole hole in
  match trimBy tile result holeRect with
  | TileRect.Null => result
  | intersected => intersected
  end.

Definition intersectWithHoles (canvasCrop : option (list TileRect.t))
    (tile : TileRect.t) : TileRect.Intersection :=
  let result :=
    match canvasCrop with
    | Some crops => fold_left (trimBy tile) crops TileRect.This
    | None => TileRect.This
    end in
  match result with
  | TileRect.Null => result
  | _ => fold_left (subtractHole tile) (holes model) result
  end.

End Layout.

(** The rectangle an [Intersection] of [this] denotes, [None] for [null]. *)
Definition rectOf (this : TileRect.t) (i : TileRect.Intersection)
  : option TileRect.t :=
  match i with
  | TileRect.Null => None
  | TileRect.This => Some this
  | TileRect.Trimmed r => Some r
  end.

(** What [layout] returns. *)
Record Layout := mkLayout {
  l_basisPx : Q;
  l_canvasSize : TileSize.t;
  l_cellSize : TileSize.t;
  l_measure : Z -> Z -> bool -> TileSize.t;
  l_locate : Z -> Z -> Z -> Z -> bool -> TileRect.t;
  l_intersectWithHoles : TileRect.t -> TileRect.Intersection
}.

Definition layout (basisFactor magnification : Q) (model : TileParametersModel)
    (rows : list TileRow.t) : option Layout :=
  match canvas basisFactor magnification model rows with
  | Some (canvasSize, canvasCrop) =>
      Some (mkLayout (basisPx magnification) canvasSize
              (cellSize basisFactor magnification model)
              (measure basisFactor magnification model)
              (locate basisFactor magnification model)
              (intersectWithHoles basisFactor magnification model canvasCrop))
  | None => None
  end.

(** ** Own property order of a JavaScript object used as a map *)

Module JSObject.

Local Open Scope N_scope.

Fixpoint digits (s : string) (acc : N) : option N :=
  match s with
  | EmptyString => Some acc
  | String c s' =>
      let n := N_of_ascii c in
      if (48 <=? n) && (n <=? 57) then digits s' (10 * acc + (n - 48)) else None
  end.

(** The array index a property key denotes, if it is a canonical one. *)
Definition arrayIndex (s : string) : option N :=
  match s with
  | EmptyString => None
  | String "0" EmptyString => Some 0
  | String "0" _ => None
  | _ =>
      match digits s 0 with
      | Some n => if n <? 4294967295 then Some n else None
      | None => None
      end
  end.

Section Entries.
Variable V : Type.

(** An object's own entries in creation order. *)
Definition t := list (string * V).

Fixpoint set (o : t) (k : string) (v : V) : t :=
  match o with
  | [] => [(k, v)]
  | (k', v') :: o' => if String.eqb k' k then (k, v) :: o' else (k', v') :: set o' k v
  end.

Fixpoint get (o : t) (k : string) : option V :=
  match o with
  | [] => None
  | (k', v') :: o' => if String.eqb k' k then Some v' else get o' k
  end.

Fixpoint insertIndexed (e : N * (string * V)) (l : list (N * (string * V)))
  : list (N * (string * V)) :=
  match l with
  | [] => [e]
  | e' :: l' => if fst e <=? fst e' then e :: l else e' :: insertIndexed e l'
  end.

(** Enumeration order: array indexes ascending, then the other keys as created. *)
Definition entries (o : t) : list (string * V) :=
  let indexed :=
    fold_right
      (fun e acc =>
         match arrayIndex (fst e) with
         | Some n => insertIndexed (n, e) acc
         | None => acc
         end) [] o in
  map snd indexed
  ++ filter (fun e => match arrayIndex (fst e) with Some _ => false | None => true end) o.

Definition keys (o : t) : list string := map fst (entries o).
Definition values (o : t) : list V := map snd (entries o).
End Entries.

End JSObject.

(** The names [Object.prototype] gives every object literal: such a name
    reads as what the prototype holds for it (a function, or the prototype
    itself) until the object has the property itself. *)
Definition objectPrototypeNames : list string :=
  [ "constructor"%string; "__defineGetter__"%string; "__defineSetter__"%string;
    "hasOwnProperty"%string; "__lookupGetter__"%string;
    "__lookupSetter__"%string; "isPrototypeOf"%string;
    "propertyIsEnumerable"%string; "toString"%string; "valueOf"%string;
    "__proto__"%string; "toLocaleString"%string ].

Definition inherits (colour : string) : bool :=
  existsb (String.eqb colour) objectPrototypeNames.

(** ** The seeded generator

    [seedrandom] is an external library: a generator is a state that each
    draw advances, [rnd()] giving a real in [0, 1) and [rnd.int32()] a
    signed integer. *)

Class SeedRandom := {
  PRNG : Type;
  seedrandom : string -> PRNG;
  prng_double : PRNG -> Q * PRNG;
  prng_int32 : PRNG -> Z * PRNG
}.

(** A scripted generator for running the code on chosen draws: the seed
    spells the draws, one character each (a decimal digit stands for itself,
    any character for its code less 48); [int32] gives the number, [rnd()] a
    tenth of its last digit, and an exhausted script gives 0. *)
Definition scriptOf (s : string) : list Z :=
  map (fun c => (Z.of_N (N_of_ascii c) - 48)%Z) (list_ascii_of_string s).

Definition scripted : SeedRandom := {|
  PRNG := list Z;
  seedrandom := scriptOf;
  prng_double := fun g => (inject_Z (hd 0%Z g mod 10) / 10, tl g);
  prng_int32 := fun g => (hd 0%Z g, tl g)
|}.

(** ** A supplier of random numbers and shuffles *)

Module Randomizer.
Section Randomizer.
Context {SR : SeedRandom}.

(** Get the next random real between 0 and 1. *)
Definition next (g : PRNG) : Q * PRNG := prng_double g.

(** Get the next random non-negative integer. *)
Definition nextInt (g : PRNG) : Z * PRNG :=
  let (v, g') := prng_int32 g in (Z.abs v, g').

Section Shuffle.
Variable T : Type.

(** The [while (supply.length > 1)] loop; each turn removes one item of the
    supply, so [length supply] turns of fuel are enough. *)
Fixpoint shuffleLoop (fuel : nat) (supply result : list T) (g : PRNG)
  : list T * list T * PRNG :=
  match fuel with
  | O => (supply, result, g)
  | S fuel' =>
      if (1 <? List.length supply)%nat then
        let (n, g') := nextInt g in
        let next := JS.rem n (Z.of_nat (List.length supply)) in
        let (item, supply') := JS.splice1 supply (JS.toIndex next) in
        shuffleLoop fuel' supply' (result ++ item) g'
      else (supply, result, g)
  end.

(** Randomly shuffle some [items]. *)
Definition shuffle (items : list T) (g : PRNG) : list T * PRNG :=
  match items with
  | [] => (items, g)
  | _ =>
      let '(supply, result, g') := shuffleLoop (List.length items) items [] g in
      (result ++ firstn 1 supply, g')
  end.
End Shuffle.

(** A sort key: a number, or NaN ([None]). lodash puts a NaN key after every
    number, and of two NaN keys the later item last. *)
Definition keyLe (a b : option Q) : bool :=
  match a, b with
  | Some x, Some y => Qle_bool x y
  | _, None => true
  | None, Some _ => false
  end.

(** lodash [sortBy] on computed keys: a stable ascending sort. *)
Fixpoint insertByKey (T : Type) (e : option Q * T) (l : list (option Q * T))
  : list (option Q * T) :=
  match l with
  | [] => [e]
  | e' :: l' => if keyLe (fst e) (fst e') then e :: l else e' :: insertByKey e l'
  end.

Definition sortByKey (T : Type) (l : list (option Q * T)) : list T :=
  map snd (fold_right (@insertByKey T) [] l).

(** The iteratee of [weightedShuffle] run over the items in order, one draw
    each; the product with what is not a number is NaN. *)
Fixpoint weighKeys (weigh : string -> option Q) (items : list string) (g : PRNG)
  : list (option Q * string) * PRNG :=
  match items with
  | [] => ([], g)
  | item :: rest =>
      let (d, g1) := next g in
      let (keyed, g2) := weighKeys weigh rest g1 in
      ((match weigh item with Some w => Some (- d * w) | None => None end, item)
         :: keyed, g2)
  end.

(** Shuffle some [items] on a weighted random distribution. The average
    stands in for an item that has no weight of its own and whose name the
    prototype does not define; it is NaN when there is no weight at all
    (0/0). *)
Definition weightedShuffle (items : list string) (weights : JSObject.t Z)
    (g : PRNG) : list string * PRNG :=
  let values := JSObject.values weights in
  let average :=
    match values with
    | [] => None
    | _ =>
        Some (inject_Z (fold_left Z.add values 0%Z)
              / inject_Z (Z.of_nat (List.length values)))
    end in
  let (keyed, g') :=
    weighKeys
      (fun item =>
         match JSObject.get weights item with
         | Some w => Some (inject_Z w)
         | None => if inherits item then None else average
         end) items g in
  (sortByKey keyed, g').

End Randomizer.
End Randomizer.

(** ** The colour dispenser

    The generator function as an explicit iterator: its state is the counter
    [i], the group being dispensed and the colour dispensed last. *)

Module Dispenser.
Record t := mk {
  i : Z;
  group : list string;
  lastColour : option string
}.

Definition init : t := mk 0 [] None.
End Dispenser.

(** [a === b] on values that are a string or [undefined]. *)
Definition sameColour (a b : option string) : bool :=
  match a, b with
  | Some s, Some s' => String.eqb s s'
  | None, None => true
  | _, _ => false
  end.

Section Generator.
Context {SR : SeedRandom}.

(** One turn of the dispenser's loop up to its [yield]: the colour, the
    iterator's next state and the advanced generator; [None] when
    [assertExists] throws. *)
Definition colourDispenser (colours : list string) (st : Dispenser.t) (g : PRNG)
  : option (string * Dispenser.t * PRNG) :=
  let colourCount := Z.of_nat (List.length colours) in
  let '(group, g') :=
    match JS.rem (Dispenser.i st) colourCount with
    | Some 0%Z =>
        (* New group *)
        let (group, g') := Randomizer.shuffle colours g in
        (* Always start with a random colour different to the last of the
           previous group *)
        if sameColour (hd_error group) (Dispenser.lastColour st) then
          let (colour, group') := JS.splice1 group 0 in
          (group' ++ colour, g')
        else (group, g')
    | _ => (Dispenser.group st, g)
    end in
  match group with
  | [] => None
  | lastColour :: group' =>
      Some (lastColour,
            Dispenser.mk (Dispenser.i st + 1) group' (Some lastColour), g')
  end.

(** The first [n] colours a dispenser hands out from state [st]. *)
Fixpoint dispense (colours : list string) (n : nat) (st : Dispenser.t) (g : PRNG)
  : option (list string * Dispenser.t * PRNG) :=
  match n with
  | O => Some ([], st, g)
  | S n' =>
      match colourDispenser colours st g with
      | Some (c, st', g') =>
          match dispense colours n' st' g' with
          | Some (cs, st'', g'') => Some (c :: cs, st'', g'')
          | None => None
          end
      | None => None
      end
  end.

(** Rotate some [items] to the right by some number of [places]. *)
Definition rotate (T : Type) (items : list T) (places : Z) : list T :=
  if (places =? 0)%Z then items
  else
    let (chunk, result) :=
      JS.spliceFrom items (Z.of_nat (List.length items) - places) in
    chunk ++ result.

(** *** A generator of rows of tiles *)

Section RowGenerator.
Variable model : TileParametersModel.
Variable colourWeights : JSObject.t Z.
Variable favourites : list string.

Definition includes (l : list string) (s : string) : bool :=
  existsb (String.eqb s) l.

Definition baseColourSupplier (g : PRNG) : list string * PRNG :=
  let colours :=
    filter (fun colour => negb (includes favourites colour))
      (JSObject.keys colourWeights) in
  let (favs, g1) := Randomizer.shuffle favourites g in
  let (others, g2) := Randomizer.shuffle colours g1 in
  (JS.slice0 (favs ++ others) (Some (groupSize model)), g2).

Definition colourSupplier (g : PRNG) : list string * PRNG :=
  if (0 <? complexity model)%Z then
    (* Add random duplicates, adjusted by weight *)
    let (result, g1) := baseColourSupplier g in
    let (n, g2) := Randomizer.nextInt g1 in
    let dupeCount :=
      match JS.rem n (complexity model) with
      | Some m => JS.rem m (groupSize model)
      | None => None
      end in
    let (sorted, g3) := Randomizer.weightedShuffle result colourWeights g2 in
    (result ++ JS.slice0 sorted dupeCount, g3)
  else baseColourSupplier g.

(** The [for ... of] loop of [generateRow]: every turn first takes a colour
    from the dispenser and then tests [i >= columnCount]; [n] is the number
    of tiles still to push, so the test holds when [n] is 0, and the colour
    taken in that turn is dropped. *)
Fixpoint fillRow (colours : list string) (rowKey : Z) (n : nat) (i : Z)
    (st : Dispenser.t) (g : PRNG) : option (list Tile.t * PRNG) :=
  match colourDispenser colours st g with
  | None => None
  | Some (colour, st', g') =>
      match n with
      | O => Some ([], g')
      | S n' =>
          let columnKey := (Z.rem (i + rotation model) (columnCount model) + 1)%Z in
          match fillRow colours rowKey n' (i + 1)%Z st' g' with
          | Some (row, g'') => Some (Tile.mk columnKey rowKey colour :: row, g'')
          | None => None
          end
      end
  end.

Definition generateRow (rowKey : Z) (g : PRNG) : option (TileRow.t * PRNG) :=
  let (colours, g1) := colourSupplier g in
  match fillRow colours rowKey (Z.to_nat (columnCount model)) 0 Dispenser.init g1 with
  | Some (row, g2) => Some (TileRow.mk rowKey (rotate row (rotation model)), g2)
  | None => None
  end.

(** The rows in the order [generateRows] yields them: [n] turns of the loop
    [for (i = rowCount; i >= 1; i--)] are left when it stands at [i]. *)
Fixpoint yieldRows (n : nat) (i : Z) (g : PRNG) : option (list TileRow.t) :=
  match n with
  | O => Some []
  | S n' =>
      match generateRow i g with
      | Some (row, g') =>
          match yieldRows n' (i - 1)%Z g' with
          | Some rest => Some (row :: rest)
          | None => None
          end
      | None => None
      end
  end.

Definition RowGenerator_generateRows : option (list TileRow.t) :=
  let rnd := seedrandom (seed model) in
  yieldRows (Z.to_nat (rowCount model)) (rowCount model) rnd.

End RowGenerator.

(** *** A generator of a randomized tile backsplash pattern *)

Definition enabledColours (model : TileParametersModel) : list ColourSpec :=
  filter enabled (colourModel model).

(** [colourWeights[colour.name] = colour.weight] for every enabled colour: a
    number assigned to [__proto__] is dropped. *)
Definition colourWeightsOf (model : TileParametersModel) : JSObject.t Z :=
  fold_left
    (fun o colour =>
       if String.eqb (name colour) "__proto__" then o
       else JSObject.set o (name colour) (weight colour))
    (enabledColours model) [].

Definition favouritesOf (model : TileParametersModel) : list string :=
  map name (filter favourite (enabledColours model)).

(** Each yielded row is put in front of the result ([unshift]). *)
Definition generate (model : TileParametersModel) : option (list TileRow.t) :=
  match RowGenerator_generateRows model (colourWeightsOf model) (favouritesOf model) with
  | Some yielded => Some (fold_left (fun result row => row :: result) yielded [])
  | None => None
  end.

(** Generate the backsplash pattern as a sequence of rows from top to bottom. *)
Definition generateRows (state : TileParametersModel) : option (list TileRow.t) :=
  generate state.

End Generator.

(** ** Record updates, the specification's reading of two sentences, and
    the sample inputs of the examples below *)

Definition withOffset (m : TileParametersModel) (o : Z) : TileParametersModel :=
  mkModel (seed m) (orientation m) (rowCount m) (columnCount m) (complexity m)
    (aspectRatio m) o (stepDirection m) (stepAlternate m) (groupSize m)
    (rotation m) (holes m) (grout m) (colourModel m).

Definition withRowCount (m : TileParametersModel) (n : Z) : TileParametersModel :=
  mkModel (seed m) (orientation m) n (columnCount m) (complexity m)
    (aspectRatio m) (offset m) (stepDirection m) (stepAlternate m) (groupSize m)
    (rotation m) (holes m) (grout m) (colourModel m).

Definition withComplexity (m : TileParametersModel) (c : Z) : TileParametersModel :=
  mkModel (seed m) (orientation m) (rowCount m) (columnCount m) c
    (aspectRatio m) (offset m) (stepDirection m) (stepAlternate m) (groupSize m)
    (rotation m) (holes m) (grout m) (colourModel m).

(** A region with its corners ordered by min/max. *)
Definition normalize (hole : Region) : Region :=
  mkRegion (Z.min (startRow hole) (endRow hole))
           (Z.min (startColumn hole) (endColumn hole))
           (Z.max (startRow hole) (endRow hole))
           (Z.max (startColumn hole) (endColumn hole)).

(** The step of a cell as the specification words it: a fixed fraction in the
    direction [stepDirection] names (right is negative, as in the source) for
    odd indexes, or the ramp [index mod offset] moved by [offset - 1] when
    stepping right. *)
Definition spec_stepShift (basisFactor magnification : Q)
    (model : TileParametersModel) (index : Z) : Q :=
  let direction := if StepDirection.isRight (stepDirection model) then -1 else 1 in
  if (offset model <=? 2)%Z || stepAlternate model then
    if (Z.rem index 2 =? 1)%Z
    then direction * basisPx magnification * stepAmount basisFactor model
         / inject_Z (offset model)
    else 0
  else
    direction * basisPx magnification * stepAmount basisFactor model
    * inject_Z (Z.rem index (offset model)
                - (if StepDirection.isRight (stepDirection model)
                   then offset model - 1 else 0))
    / inject_Z (offset model).

(** Two rectangles share an inner point. *)
Definition overlaps (a b : TileRect.t) : Prop :=
  TileRect.left a < TileRect.right b /\ TileRect.left b < TileRect.right a
  /\ TileRect.top a < TileRect.bottom b /\ TileRect.top b < TileRect.bottom a.

(** The dispenser's state between two turns: the counter is not negative,
    and inside a group the colours still to come fill the group up. *)
Definition inGroup (colours : list string) (st : Dispenser.t) : Prop :=
  let colourCount := Z.of_nat (List.length colours) in
  (0 <= Dispenser.i st)%Z
  /\ (Z.rem (Dispenser.i st) colourCount <> 0%Z ->
      Z.of_nat (List.length (Dispenser.group st))
      = (colourCount - Z.rem (Dispenser.i st) colourCount)%Z).

(** A row moved [k] rows down the grid: its key and its tiles' [row]. *)
Definition shiftTile (k : Z) (t : Tile.t) : Tile.t :=
  Tile.mk (Tile.key t) (Tile.row t + k) (Tile.colour t).

Definition shiftRow (k : Z) (r : TileRow.t) : TileRow.t :=
  TileRow.mk (TileRow.key r + k) (map (shiftTile k) (TileRow.columns r)).

(** The fields of the parameters record that one row's generation reads. *)
Definition sameRowFields (a b : TileParametersModel) : Prop :=
  columnCount a = columnCount b /\ complexity a = complexity b
  /\ groupSize a = groupSize b /\ rotation a = rotation b.

(** The colours of a row's tiles, in order. *)
Definition rowColours (r : TileRow.t) : list string :=
  map Tile.colour (TileRow.columns r).

(** The fields of the parameters record that the pattern generator reads. *)
Definition sameGeneration (a b : TileParametersModel) : Prop :=
  seed a = seed b /\ rowCount a = rowCount b /\ columnCount a = columnCount b
  /\ complexity a = complexity b /\ groupSize a = groupSize b
  /\ rotation a = rotation b
  /\ map (fun c => (name c, weight c, favourite c)) (enabledColours a)
     = map (fun c => (name c, weight c, favourite c)) (enabledColours b).

Module Sample.
Local Open Scope string_scope.

Definition colour (n : string) (fav : bool) : ColourSpec :=
  mkColour n "#8b314d" "C" true 5 fav.

(** The application's default parameters and palette. *)
Definition defaultColourModel : list ColourSpec :=
  [ mkColour "cherry" "#8b314d" "C" true 5 false;
    mkColour "pink" "#a9929d" "I" false 5 false;
    mkColour "jeans" "#90a5bc" "J" true 5 false;
    mkColour "smoke" "#91949b" "S" true 5 false;
    mkColour "pearl" "#c5c9cc" "P" true 5 true;
    mkColour "emerald" "#2c6278" "E" false 5 false;
    mkColour "maldive" "#478fa9" "M" false 5 false;
    mkColour "aequa" "#6d9da0" "A" false 5 false;
    mkColour "green" "#314d50" "G" false 5 false;
    mkColour "blue" "#2f657c" "B" false 5 false;
    mkColour "black" "#1d2322" "K" false 5 false ].

Definition defaultParams : TileParametersModel :=
  mkModel "Oceani" Orientation.horizontal 8 34 1 4 2 StepDirection.right true
    4 0 [] "#e8ece4" defaultColourModel.

(** The default parameters without stepping and with one hole over rows 2-3,
    columns 5-7. *)
Definition holed : TileParametersModel :=
  mkModel "Oceani" Orientation.horizontal 8 34 1 4 1 StepDirection.right true
    4 0 [mkRegion 2 5 3 7] "#e8ece4" defaultColourModel.

(** Stepping to the left, by halves and by thirds. *)
Definition steppedLeft (o : Z) (alternate : bool) : TileParametersModel :=
  mkModel "Oceani" Orientation.horizontal 8 34 1 4 o StepDirection.left alternate
    4 0 [] "#e8ece4" defaultColourModel.

Definition steppedRight (o : Z) (alternate : bool) : TileParametersModel :=
  mkModel "Oceani" Orientation.horizontal 8 34 1 4 o StepDirection.right alternate
    4 0 [] "#e8ece4" defaultColourModel.

(** A hole whose rows are given in reverse. *)
Definition reversedRows : Region := mkRegion 3 5 2 7.

(** Two colours, rows of [columns] tiles, drawn from the digits of [seed]. *)
Definition twoColours (seed : string) (rows columns complexity rotation : Z)
  : TileParametersModel :=
  mkModel seed Orientation.horizontal rows columns complexity 4 1
    StepDirection.right true 2 rotation [] "#e8ece4"
    [colour "A" false; colour "B" false].

(** Ten columns rotated by five places, and the row generated for it when
    every draw is 0. *)
Definition rotated : TileParametersModel := twoColours "" 1 10 0 5.

Definition rotatedRow : TileRow.t :=
  TileRow.mk 1
    [ Tile.mk 1 1 "B"; Tile.mk 2 1 "A"; Tile.mk 3 1 "B"; Tile.mk 4 1 "A";
      Tile.mk 5 1 "B"; Tile.mk 6 1 "A"; Tile.mk 7 1 "B"; Tile.mk 8 1 "A";
      Tile.mk 9 1 "B"; Tile.mk 10 1 "A" ].

(** Two colours with complexity 2: the draws 0, 1, 9, 0 make the palette
    A, B, A, and the draws 1, 0, 0, 1 shuffle it to B, A, A and then A, A, B. *)
Definition duplicated : TileParametersModel := twoColours "01901001" 1 4 2 0.

(** Two parameters records without a usable colour: the only enabled colour
    is named [__proto__], or no colour is enabled at all. *)
Definition protoOnly : TileParametersModel :=
  mkModel "0110" Orientation.horizontal 2 3 0 4 1 StepDirection.right true
    1 0 [] "#e8ece4" [colour "__proto__" false].

Definition noColours : TileParametersModel :=
  mkModel "0110" Orientation.horizontal 2 3 0 4 1 StepDirection.right true
    1 0 [] "#e8ece4" [mkColour "A" "#8b314d" "C" false 5 false].

(** Colour A beside a colour named [__proto__]. *)
Definition protoBeside : TileParametersModel :=
  mkModel "0110" Orientation.horizontal 1 3 0 4 1 StepDirection.right true
    2 0 [] "#e8ece4" [colour "A" false; colour "__proto__" false].

End Sample.

(** ** The parameters reducer ([backsplash-model.ts]) *)

Local Open Scope Z_scope.

Definition enabledCount (colourModel : list ColourSpec) : Z :=
  Z.of_nat (List.length (filter enabled colourModel)).

Definition _isInHole (row column : Z) (hole : Region) : bool :=
  (startRow hole <=? row) && (row <=? endRow hole)
  && (startColumn hole <=? column) && (column <=? endColumn hole).

Definition isInHole (row column : Z) (model : TileParametersModel) : bool :=
  existsb (_isInHole row column) (holes model).

(** lodash [isEqual] on the values the parameters hold. *)
Module IsEqual.

Definition orientation (a b : Orientation.t) : bool :=
  match a, b with
  | Orientation.horizontal, Orientation.horizontal => true
  | Orientation.vertical, Orientation.vertical => true
  | _, _ => false
  end.

Definition stepDirection (a b : StepDirection.t) : bool :=
  match a, b with
  | StepDirection.left, StepDirection.left => true
  | StepDirection.right, StepDirection.right => true
  | _, _ => false
  end.

Definition region (a b : Region) : bool :=
  (startRow a =? startRow b) && (startColumn a =? startColumn b)
  && (endRow a =? endRow b) && (endColumn a =? endColumn b).

Definition colourSpec (a b : ColourSpec) : bool :=
  String.eqb (name a) (name b) && String.eqb (hexcode a) (hexcode b)
  && String.eqb (code a) (code b) && Bool.eqb (enabled a) (enabled b)
  && (weight a =? weight b) && Bool.eqb (favourite a) (favourite b).

Fixpoint array (T : Type) (eqb : T -> T -> bool) (a b : list T) : bool :=
  match a, b with
  | [], [] => true
  | x :: a', y :: b' => eqb x y && array eqb a' b'
  | _, _ => false
  end.

End IsEqual.

(** A [set] action: the parameter it names and the value for it. *)
Inductive SetAction :=
| SetSeed (value : string)
| SetOrientation (value : Orientation.t)
| SetRowCount (value : Z)
| SetColumnCount (value : Z)
| SetComplexity (value : Z)
| SetAspectRatio (value : Z)
| SetOffset (value : Z)
| SetStepDirection (value : StepDirection.t)
| SetStepAlternate (value : bool)
| SetGroupSize (value : Z)
| SetRotation (value : Z)
| SetHoles (value : list Region)
| SetGrout (value : string)
| SetColourModel (value : list ColourSpec).

Record ColourPalette := mkPalette {
  p_grout : string;
  p_colourModel : list ColourSpec
}.

Inductive TileParametersAction :=
| ActSet (action : SetAction)
| ActSetColourPalette (palette : ColourPalette)
| ActLoad (state : TileParametersModel)
| ActAddHole (hole : Region)
| ActRemoveHole (row column : Z).

(** [isEqual(params[action.param], action.value)]. *)
Definition isCurrent (params : TileParametersModel) (action : SetAction) : bool :=
  match action with
  | SetSeed v => String.eqb (seed params) v
  | SetOrientation v => IsEqual.orientation (orientation params) v
  | SetRowCount v => rowCount params =? v
  | SetColumnCount v => columnCount params =? v
  | SetComplexity v => complexity params =? v
  | SetAspectRatio v => aspectRatio params =? v
  | SetOffset v => offset params =? v
  | SetStepDirection v => IsEqual.stepDirection (stepDirection params) v
  | SetStepAlternate v => Bool.eqb (stepAlternate params) v
  | SetGroupSize v => groupSize params =? v
  | SetRotation v => rotation params =? v
  | SetHoles v => IsEqual.array IsEqual.region (holes params) v
  | SetGrout v => String.eqb (grout params) v
  | SetColourModel v => IsEqual.array IsEqual.colourSpec (colourModel params) v
  end.

Definition withGroupSize (m : TileParametersModel) (n : Z) : TileParametersModel :=
  mkModel (seed m) (orientation m) (rowCount m) (columnCount m) (complexity m)
    (aspectRatio m) (offset m) (stepDirection m) (stepAlternate m) n
    (rotation m) (holes m) (grout m) (colourModel m).

Definition withHoles (m : TileParametersModel) (hs : list Region) : TileParametersModel :=
  mkModel (seed m) (orientation m) (rowCount m) (columnCount m) (complexity m)
    (aspectRatio m) (offset m) (stepDirection m) (stepAlternate m) (groupSize m)
    (rotation m) hs (grout m) (colourModel m).

(** [{ ...result, [action.param]: action.value }]. *)
Definition withParam (m : TileParametersModel) (action : SetAction)
  : TileParametersModel :=
  match action with
  | SetSeed v =>
      mkModel v (orientation m) (rowCount m) (columnCount m) (complexity m)
        (aspectRatio m) (offset m) (stepDirection m) (stepAlternate m)
        (groupSize m) (rotation m) (holes m) (grout m) (colourModel m)
  | SetOrientation v =>
      mkModel (seed m) v (rowCount m) (columnCount m) (complexity m)
        (aspectRatio m) (offset m) (stepDirection m) (stepAlternate m)
        (groupSize m) (rotation m) (holes m) (grout m) (colourModel m)
  | SetRowCount v => withRowCount m v
  | SetColumnCount v =>
      mkModel (seed m) (orientation m) (rowCount m) v (complexity m)
        (aspectRatio m) (offset m) (stepDirection m) (stepAlternate m)
        (groupSize m) (rotation m) (holes m) (grout m) (colourModel m)
  | SetComplexity v => withComplexity m v
  | SetAspectRatio v =>
      mkModel (seed m) (orientation m) (rowCount m) (columnCount m) (complexity m)
        v (offset m) (stepDirection m) (stepAlternate m)
        (groupSize m) (rotation m) (holes m) (grout m) (colourModel m)
  | SetOffset v => withOffset m v
  | SetStepDirection v =>
      mkModel (seed m) (orientation m) (rowCount m) (columnCount m) (complexity m)
        (aspectRatio m) (offset m) v (stepAlternate m)
        (groupSize m) (rotation m) (holes m) (grout m) (colourModel m)
  | SetStepAlternate v =>
      mkModel (seed m) (orientation m) (rowCount m) (columnCount m) (complexity m)
        (aspectRatio m) (offset m) (stepDirection m) v
        (groupSize m) (rotation m) (holes m) (grout m) (colourModel m)
  | SetGroupSize v => withGroupSize m v
  | SetRotation v =>
      mkModel (seed m) (orientation m) (rowCount m) (columnCount m) (complexity m)
        (aspectRatio m) (offset m) (stepDirection m) (stepAlternate m)
        (groupSize m) v (holes m) (grout m) (colourModel m)
  | SetHoles v => withHoles m v
  | SetGrout v =>
      mkModel (seed m) (orientation m) (rowCount m) (columnCount m) (complexity m)
        (aspectRatio m) (offset m) (stepDirection m) (stepAlternate m)
        (groupSize m) (rotation m) (holes m) v (colourModel m)
  | SetColourModel v =>
      mkModel (seed m) (orientation m) (rowCount m) (columnCount m) (complexity m)
        (aspectRatio m) (offset m) (stepDirection m) (stepAlternate m)
        (groupSize m) (rotation m) (holes m) (grout m) v
  end.

Definition paramsReducer (params : TileParametersModel)
    (action : TileParametersAction) : TileParametersModel :=
  match action with
  | ActSet action =>
      (* Handle idempotent dispatches *)
      if isCurrent params action then params
      else
        let result := params in
        (* Handle side-effects *)
        let result :=
          match action with
          | SetColourModel value =>
              if enabledCount value =? groupSize params
              then withGroupSize result (enabledCount value)
              else result
          | _ => result
          end in
        (* The new param *)
        withParam result action
  | ActSetColourPalette palette =>
      withParam (withParam params (SetGrout (p_grout palette)))
        (SetColourModel (p_colourModel palette))
  | ActLoad state => state
  | ActAddHole hole => withHoles params (holes params ++ [hole])
  | ActRemoveHole row column =>
      withHoles params
        (filter (fun hole => negb (_isInHole row column hole)) (holes params))
  end.

(** ** The colour palette reducer ([colour-model.ts]) *)

Inductive ColourAction :=
| SetGroutAction (colour : string)
| AddColourAction (colour : ColourSpec)
| DeleteColourAction (colourName : string)
| ChangeColourAction (colourName hexcode : string)
| ToggleColourAction (colourName : string)
| ToggleFavouriteAction (colourName : string)
| WeightColourAction (colourName : string) (delta : Z)
| SetColourModelAction (model : list ColourSpec).

(** The two boolean properties [toggle] can flip. *)
Inductive ColourFlag := FlagEnabled | FlagFavourite.

Definition flip (colour : ColourSpec) (prop : ColourFlag) : ColourSpec :=
  match prop with
  | FlagEnabled =>
      mkColour (name colour) (hexcode colour) (code colour)
        (negb (enabled colour)) (weight colour) (favourite colour)
  | FlagFavourite =>
      mkColour (name colour) (hexcode colour) (code colour)
        (enabled colour) (weight colour) (negb (favourite colour))
  end.

(** [setColourModel] sends [set-colour-model] through the reducer; that case
    of the reducer is written out here. *)
Definition setColourModel (palette : ColourPalette) (model : list ColourSpec)
  : ColourPalette :=
  mkPalette (p_grout palette) model.

Definition toggle (palette : ColourPalette) (colourName : string)
    (prop : ColourFlag) : ColourPalette :=
  setColourModel palette
    (map (fun colour =>
            if negb (String.eqb (name colour) colourName) then colour
            else flip colour prop)
       (p_colourModel palette)).

Definition colourPaletteReducer (palette : ColourPalette) (action : ColourAction)
  : ColourPalette :=
  match action with
  | SetGroutAction colour => mkPalette colour (p_colourModel palette)
  | SetColourModelAction model => mkPalette (p_grout palette) model
  | AddColourAction colour =>
      setColourModel palette (p_colourModel palette ++ [colour])
  | DeleteColourAction colourName =>
      setColourModel palette
        (filter (fun colour => negb (String.eqb (name colour) colourName))
           (p_colourModel palette))
  | ChangeColourAction colourName hex =>
      setColourModel palette
        (map (fun colour =>
                if negb (String.eqb (name colour) colourName) then colour
                else mkColour (name colour) hex (code colour) (enabled colour)
                       (weight colour) (favourite colour))
           (p_colourModel palette))
  | ToggleColourAction colourName => toggle palette colourName FlagEnabled
  | ToggleFavouriteAction colourName => toggle palette colourName FlagFavourite
  | WeightColourAction colourName delta =>
      setColourModel palette
        (map (fun colour =>
                if negb (String.eqb (name colour) colourName) then colour
                else mkColour (name colour) (hexcode colour) (code colour)
                       (enabled colour)
                       (Z.min 9 (Z.max 1 (weight colour + delta)))
                       (favourite colour))
           (p_colourModel palette))
  end.

(** ** Zoom and hole gestures of the designer page *)

(** A JavaScript number as [Number(...)] can give it. *)
Inductive JSNumber :=
| NaN
| NegInfinity
| Finite (q : Q)
| PosInfinity.

Definition MIN_MAGNIFICATION_PCT : Z := 1.
Definition MAX_MAGNIFICATION_PCT : Z := 4000.

Definition clampMagnification (magnification : JSNumber) : Z :=
  match magnification with
  | NaN => 100
  | NegInfinity => MIN_MAGNIFICATION_PCT
  | PosInfinity => MAX_MAGNIFICATION_PCT
  | Finite q =>
      Qceiling
        (Qmin (Qmax q (inject_Z MIN_MAGNIFICATION_PCT))
              (inject_Z MAX_MAGNIFICATION_PCT))
  end.

Definition zoomIn (magnification : Q) : Q := (magnification * 2)%Q.
Definition zoomOut (magnification : Q) : Q := inject_Z (Qceiling (magnification / 2)).
Definition canZoomIn (magnification : Q) : bool := Qltb magnification 2000.
Definition canZoomOut (magnification : Q) : bool := Qgeb magnification 2.

Record Hit := mkHit { hit_x : Q; hit_y : Q; data : Tile.t }.

Record TileSelection := mkSelection { anchor : Hit; head : Hit }.

(** The action [onTileSelection] dispatches. *)
Definition onTileSelection (selection : TileSelection) : TileParametersAction :=
  let startRow :=
    Z.min (Tile.row (data (anchor selection))) (Tile.row (data (head selection))) in
  let startColumn :=
    Z.min (Tile.key (data (anchor selection))) (Tile.key (data (head selection))) in
  let endRow :=
    Z.max (Tile.row (data (anchor selection))) (Tile.row (data (head selection))) in
  let endColumn :=
    Z.max (Tile.key (data (anchor selection))) (Tile.key (data (head selection))) in
  ActAddHole (mkRegion startRow startColumn endRow endColumn).

(** The action [onHoleRemoval] dispatches. *)
Definition onHoleRemoval (hit : Hit) : TileParametersAction :=
  ActRemoveHole (Tile.row (data hit)) (Tile.key (data hit)).

(** ** The export page ([Export.tsx]) *)

(** The basis factor [BacksplashMap] passes to the canvas; 1 is the canvas's
    default. *)
Definition mapBasisFactor (model : TileParametersModel) : Q :=
  if 1 <? aspectRatio model then ((16667 # 10000) / inject_Z (aspectRatio model))%Q
  else if aspectRatio model <? -1
       then ((- (16667 # 10000)) / inject_Z (aspectRatio model))%Q
       else 1%Q.

(** [TileCounts]: the tiles needed of each colour, holes left out.

    [tileCounts] is an object literal: a name that [Object.prototype] defines
    reads as what the prototype holds for it until the object has the
    property itself.  What [+ 1] makes of anything but a number is a string,
    which [Text] stands for. *)
Inductive TileCount :=
| Count (n : Z)
| Text.

(** [(tileCounts[colour] ?? 0) + 1]. *)
Definition nextCount (tileCounts : JSObject.t TileCount) (colour : string)
  : TileCount :=
  match JSObject.get tileCounts colour with
  | Some (Count n) => Count (n + 1)
  | Some Text => Text
  | None => if inherits colour then Text else Count (0 + 1)
  end.

(** [tileCounts[col.colour] = ...]: a string assigned to [__proto__] is
    dropped. *)
Definition countTile (tileCounts : JSObject.t TileCount) (col : Tile.t)
  : JSObject.t TileCount :=
  if String.eqb (Tile.colour col) "__proto__" then tileCounts
  else JSObject.set tileCounts (Tile.colour col)
         (nextCount tileCounts (Tile.colour col)).

Definition tileCounts (model : TileParametersModel) (rows : list TileRow.t)
  : JSObject.t TileCount :=
  fold_left
    (fun counts row =>
       fold_left countTile
         (filter (fun col => negb (isInHole (Tile.row col) (Tile.key col) model))
            (TileRow.columns row))
         counts)
    rows [].

Local Open Scope Q_scope.

(** ** The colour dialog's dispatch ([TopBar.tsx]) *)

(** [dispatchColour]: the action sent to the parameters reducer for a colour
    action, and the state the reducer gives for it. *)
Definition dispatchColour (state : TileParametersModel) (action : ColourAction)
  : TileParametersAction :=
  ActSetColourPalette
    (colourPaletteReducer (mkPalette (grout state) (colourModel state)) action).

Definition afterColourAction (state : TileParametersModel) (action : ColourAction)
  : TileParametersModel :=
  paramsReducer state (dispatchColour state action).

(** The weights the colour schema admits, for a colour model and for what an
    action carries. *)
Definition weightsInRange (model : list ColourSpec) : Prop :=
  Forall (fun colour => (1 <= weight colour <= 9)%Z) model.

Definition payloadInRange (action : ColourAction) : Prop :=
  match action with
  | AddColourAction colour => (1 <= weight colour <= 9)%Z
  | SetColourModelAction model => weightsInRange model
  | _ => True
  end.

(** Two colour models with the same names in the same places, equal at
    every colour not named [colourName]. *)
Definition sameColoursBut (colourName : string) (before after : list ColourSpec)
  : Prop :=
  map name after = map name before
  /\ forall i colour,
       nth_error before i = Some colour -> name colour <> colourName ->
       nth_error after i = Some colour.

(** lodash [sortBy] on strings: a stable ascending sort, the strings compared
    character by character. *)
Fixpoint insertSorted (s : string) (l : list string) : list string :=
  match l with
  | [] => [s]
  | s' :: l' => if String.leb s s' then s :: l else s' :: insertSorted s l'
  end.

Definition sortBy (l : list string) : list string :=
  fold_right insertSorted [] l.

(** The lines of the table of tiles needed: a colour and [tileCounts[colour]]. *)
Definition tileCountLines (model : TileParametersModel) (rows : list TileRow.t)
  : list (string * option TileCount) :=
  let counts := tileCounts model rows in
  map (fun colour => (colour, JSObject.get counts colour))
    (sortBy (JSObject.keys counts)).

(** The tiles of a pattern that lie in no hole, row after row. *)
Definition tilesNeeded (model : TileParametersModel) (rows : list TileRow.t)
  : list Tile.t :=
  filter (fun col => negb (isInHole (Tile.row col) (Tile.key col) model))
    (flat_map TileRow.columns rows).

(** * Properties *)

Unset Implicit Arguments.
(** ** Rectangles *)

Local Open Scope Q_scope.

Lemma Qmin_case_eq a b : (a <= b /\ Qmin a b == a) \/ (b <= a /\ Qmin a b == b).
Proof.
  destruct (Q.min_spec a b) as [[H1 H2]|[H1 H2]]; [left|right]; split; auto; lra.
Qed.

Lemma Qmax_case_eq a b : (a <= b /\ Qmax a b == b) \/ (b <= a /\ Qmax a b == a).
Proof.
  destruct (Q.max_spec a b) as [[H1 H2]|[H1 H2]]; [left|right]; split; auto; lra.
Qed.

(** Replace every [Qmin] and [Qmax] of the goal by a fresh number that is
    one of its arguments. *)
Ltac q_minmax :=
  repeat match goal with
  | |- context [Qmin ?a ?b] =>
      let H := fresh "Hm" in let m := fresh "m" in
      destruct (Qmin_case_eq a b) as [[? H]|[? H]];
      revert H; generalize (Qmin a b); intros m H
  | |- context [Qmax ?a ?b] =>
      let H := fresh "Hm" in let m := fresh "m" in
      destruct (Qmax_case_eq a b) as [[? H]|[? H]];
      revert H; generalize (Qmax a b); intros m H
  end.

Ltac rect_unfold :=
  unfold TileRect.eq, TileRect.union, TileRect.left, TileRect.right,
    TileRect.top, TileRect.bottom in *; simpl in *.

Lemma Qltb_lt a b : Qltb a b = true <-> a < b.
Proof.
  unfold Qltb. rewrite negb_true_iff.
  destruct (Qle_bool b a) eqn:E.
  - apply Qle_bool_iff in E. split; [discriminate | lra].
  - split; auto. intros _. apply Qnot_le_lt. intro H.
    apply Qle_bool_iff in H. congruence.
Qed.

Lemma Qltb_ge a b : Qltb a b = false <-> b <= a.
Proof.
  unfold Qltb. rewrite negb_false_iff. apply Qle_bool_iff.
Qed.

Lemma Qgeb_le a b : Qgeb a b = true <-> b <= a.
Proof. apply Qle_bool_iff. Qed.

Lemma Qgeb_lt a b : Qgeb a b = false <-> a < b.
Proof.
  unfold Qgeb. destruct (Qle_bool b a) eqn:E.
  - apply Qle_bool_iff in E. split; [discriminate | lra].
  - split; auto. intros _. apply Qnot_le_lt. intro H.
    apply Qle_bool_iff in H. congruence.
Qed.

Lemma rect_eq_refl a : TileRect.eq a a.
Proof. unfold TileRect.eq. repeat split; reflexivity. Qed.

Lemma rect_eq_sym a b : TileRect.eq a b -> TileRect.eq b a.
Proof. unfold TileRect.eq. intros (?&?&?&?). repeat split; symmetry; assumption. Qed.


Lemma union_self a : TileRect.eq (TileRect.union a a) a.
Proof.
  destruct a as [ax ay aw ah]. rect_unfold.
  q_minmax; repeat split; lra.
Qed.

Lemma union_comm a b : TileRect.eq (TileRect.union a b) (TileRect.union b a).
Proof.
  destruct a as [ax ay aw ah], b as [bx by_ bw bh]. rect_unfold.
  q_minmax; repeat split; lra.
Qed.

Lemma union_compat a a' b b' :
  TileRect.eq a a' -> TileRect.eq b b' ->
  TileRect.eq (TileRect.union a b) (TileRect.union a' b').
Proof.
  destruct a as [ax ay aw ah], a' as [ax' ay' aw' ah'],
           b as [bx by_ bw bh], b' as [bx' by' bw' bh'].
  rect_unfold. intros (H1 & H2 & H3 & H4) (H5 & H6 & H7 & H8).
  split; [|split; [|split]].
  - q_minmax; lra.
  - q_minmax; lra.
  - q_minmax; lra.
  - q_minmax; lra.
Qed.

(** ** The locator *)

(** C7. For every layout and every two grid cells A and B, [locate] from A
    to B is, as a rectangle value, the union of [locate] at A and [locate]
    at B. *)
Theorem locate_is_union_of_cells :
  forall (basisFactor magnification : Q) (model : TileParametersModel)
         (rowA colA rowB colB : Z),
    TileRect.eq
      (locate basisFactor magnification model rowA colA rowB colB true)
      (TileRect.union
         (locateTile basisFactor magnification model rowA colA)
         (locateTile basisFactor magnification model rowB colB)).
Proof.
  intros. unfold locateTile, locate.
  apply rect_eq_sym, union_compat; apply union_self.
Qed.

Lemma locateCell_no_offset bf mag m row col inside :
  (offset m <= 1)%Z ->
  locateCell bf mag m row col inside
  = TileRect.mk
      (inject_Z (col - 1) * TileSize.width (cellSize bf mag m)
       + inject_Z (if inside then col else (col - 1)%Z) * groutPx)
      (inject_Z (row - 1) * TileSize.height (cellSize bf mag m)
       + inject_Z (if inside then row else (row - 1)%Z) * groutPx)
      (TileSize.width (cellSize bf mag m) + (if inside then 0 else 2 * groutPx))
      (TileSize.height (cellSize bf mag m) + (if inside then 0 else 2 * groutPx)).
Proof.
  intros H. unfold locateCell.
  destruct (1 <? offset m)%Z eqn:E; [apply Z.ltb_lt in E; lia | reflexivity].
Qed.

(** C8, as amended. A hole given with its rows or columns in reverse is
    located without error, and its rectangle is that of the min/max-ordered
    region when the layout has no offset step, or when both its rows and its
    columns are reversed. *)
Theorem locateHole_normalized :
  forall (basisFactor magnification : Q) (model : TileParametersModel)
         (hole : Region),
    (offset model <= 1)%Z
    \/ (endRow hole <= startRow hole /\ endColumn hole <= startColumn hole)%Z ->
    TileRect.eq (locateHole basisFactor magnification model hole)
                (locateHole basisFactor magnification model (normalize hole)).
Proof.
  intros bf mag m [sr sc er ec] [Hoff | [Hr Hc]];
    unfold locateHole, normalize, locate; simpl in *.
  - rewrite !locateCell_no_offset by assumption.
    generalize (TileSize.width (cellSize bf mag m)) (TileSize.height (cellSize bf mag m)).
    intros w h.
    destruct (Z.min_spec sr er) as [[? ->]|[? ->]];
      destruct (Z.max_spec sr er) as [[? ->]|[? ->]]; try lia;
      destruct (Z.min_spec sc ec) as [[? ->]|[? ->]];
      destruct (Z.max_spec sc ec) as [[? ->]|[? ->]]; try lia;
      try apply rect_eq_refl; try apply union_comm;
      rect_unfold;
      generalize (inject_Z (sr - 1)) (inject_Z (er - 1)) (inject_Z (sc - 1))
        (inject_Z (ec - 1)) (inject_Z sr) (inject_Z er) (inject_Z sc) (inject_Z ec);
      intros;
      (split; [|split; [|split]]); q_minmax; lra.
  - rewrite (Z.min_r sr er), (Z.max_l sr er), (Z.min_r sc ec), (Z.max_l sc ec) by lia.
    apply union_comm.
Qed.

Lemma locateHole_normalized_witness :
  TileRect.eq
    (locateHole 1 100 Sample.holed Sample.reversedRows)
    (locateHole 1 100 Sample.holed (normalize Sample.reversedRows)).
Proof.
  apply (locateHole_normalized 1 100 Sample.holed Sample.reversedRows).
  left. vm_compute. discriminate.
Defined.

(** C8, as stated, fails: with the default half-step the hole from row 3,
    column 5 to row 2, column 7 is located at x = 266, and its min/max-ordered
    region at x = 234. *)
Lemma locateHole_reversed_rows_differs :
  TileRect.x (locateHole 1 100 Sample.defaultParams Sample.reversedRows) == 266
  /\ TileRect.x (locateHole 1 100 Sample.defaultParams (normalize Sample.reversedRows)) == 234
  /\ ~ TileRect.eq
        (locateHole 1 100 Sample.defaultParams Sample.reversedRows)
        (locateHole 1 100 Sample.defaultParams (normalize Sample.reversedRows)).
Proof.
  split; [vm_compute; reflexivity|].
  split; [vm_compute; reflexivity|].
  intros [H _]. vm_compute in H. discriminate H.
Qed.

(** ** The offset step of [locateCell] *)

Lemma Qltb_compat a a' b : a == a' -> Qltb a b = Qltb a' b.
Proof.
  intros H. destruct (Qltb a b) eqn:E, (Qltb a' b) eqn:E'; auto.
  - apply Qltb_lt in E. apply Qltb_ge in E'. lra.
  - apply Qltb_ge in E. apply Qltb_lt in E'. lra.
Qed.

Ltac cut_edge :=
  match goal with
  | |- context [Qltb ?a groutPx] =>
      match goal with
      | |- context [Qltb ?b groutPx] =>
          lazymatch a with
          | b => fail
          | _ => rewrite (@Qltb_compat a b groutPx) by (unfold Qdiv; ring)
          end
      end
  end.

(** C3, as amended. Under an offset above 1 a cell is the un-offset cell
    moved along x (horizontal orientation, index = row - 1) or along y
    (vertical orientation, index = column - 1) by
    direction * basisPx * amount * steps / offset, where direction is -1 when
    stepping right or when offset <= 2 and +1 otherwise, and steps is 1 for
    an odd index and 0 for an even one when offset <= 2 or stepAlternate is
    set, and (index mod offset) - (offset - 1 when stepping left, else 0)
    otherwise. Where the moved position falls short of the grout width the
    cell is cut there: it starts at the grout line (at 0 for the outer
    rectangle) and its extent is reduced by the part cut off; otherwise the
    cell starts at the moved position with its extent unchanged. The other
    axis is not touched. *)
Theorem locateCell_step :
  forall (basisFactor magnification : Q) (model : TileParametersModel)
         (row column : Z) (inside : bool),
    (1 < offset model)%Z ->
    let index :=
      match orientation model with
      | Orientation.vertical => (column - 1)%Z
      | Orientation.horizontal => (row - 1)%Z
      end in
    let direction :=
      if StepDirection.isRight (stepDirection model) || (offset model <=? 2)%Z
      then -1 else 1 in
    let steps :=
      if stepAlternate model || (offset model <=? 2)%Z
      then (if (Z.rem index 2 =? 1)%Z then 1 else 0)%Z
      else (Z.rem index (offset model)
            - (if StepDirection.isRight (stepDirection model)
               then 0 else offset model - 1))%Z in
    let shift :=
      direction * basisPx magnification * stepAmount basisFactor model
      * inject_Z steps / inject_Z (offset model) in
    let plain :=
      locateCell basisFactor magnification (withOffset model 1) row column inside in
    let cell := locateCell basisFactor magnification model row column inside in
    let edge := if inside then groutPx else 0 in
    match orientation model with
    | Orientation.horizontal =>
        TileRect.left cell
        == (if Qltb (TileRect.left plain + shift) groutPx
            then edge else TileRect.left plain + shift)
        /\ TileRect.width cell
           == (if Qltb (TileRect.left plain + shift) groutPx
               then TileRect.width plain
                    - (if inside then groutPx - (TileRect.left plain + shift)
                       else - (TileRect.left plain + shift))
               else TileRect.width plain)
        /\ TileRect.top cell == TileRect.top plain
        /\ TileRect.height cell == TileRect.height plain
    | Orientation.vertical =>
        TileRect.top cell
        == (if Qltb (TileRect.top plain + shift) groutPx
            then edge else TileRect.top plain + shift)
        /\ TileRect.height cell
           == (if Qltb (TileRect.top plain + shift) groutPx
               then TileRect.height plain
                    - (if inside then groutPx - (TileRect.top plain + shift)
                       else - (TileRect.top plain + shift))
               else TileRect.height plain)
        /\ TileRect.left cell == TileRect.left plain
        /\ TileRect.width cell == TileRect.width plain
    end.
Proof.
  intros bf mag m row col inside Hoff.
  assert (E : (1 <? offset m)%Z = true) by (apply Z.ltb_lt; assumption).
  cbv zeta. unfold locateCell, stepDirectionSign.
  rewrite E.
  change (offset (withOffset m 1)) with 1%Z.
  change (1 <? 1)%Z with false. cbv iota.
  change (cellSize bf mag (withOffset m 1)) with (cellSize bf mag m).
  generalize (TileSize.width (cellSize bf mag m)) (TileSize.height (cellSize bf mag m)).
  intros w h.
  generalize (stepAmount bf m) (basisPx mag). intros amount basis.
  destruct (orientation m);
    destruct (stepAlternate m || (offset m <=? 2)%Z);
    [ destruct (Z.rem (row - 1) 2 =? 1)%Z | | destruct (Z.rem (col - 1) 2 =? 1)%Z | ];
    destruct (StepDirection.isRight (stepDirection m) || (offset m <=? 2)%Z);
    destruct inside;
    unfold TileRect.left, TileRect.right, TileRect.top, TileRect.bottom;
    cbv beta iota;
    change (inject_Z 1) with 1; change (inject_Z 0) with 0;
    cbn [TileRect.x TileRect.y TileRect.width TileRect.height];
    repeat cut_edge;
    match goal with
    | |- context [Qltb ?a groutPx] => destruct (Qltb a groutPx)
    end;
    cbn [TileRect.x TileRect.y TileRect.width TileRect.height];
    unfold Qdiv, groutPx; repeat split; ring.
Qed.

Lemma locateCell_step_witness :
  (1 < offset Sample.defaultParams)%Z
  /\ (let shift :=
        -1 * basisPx 100 * stepAmount 1 Sample.defaultParams * inject_Z 1
        / inject_Z 2 in
      let plain := locateCell 1 100 (withOffset Sample.defaultParams 1) 2 5 true in
      let cell := locateCell 1 100 Sample.defaultParams 2 5 true in
      TileRect.left cell
      == (if Qltb (TileRect.left plain + shift) groutPx
          then groutPx else TileRect.left plain + shift)
      /\ TileRect.width cell
         == (if Qltb (TileRect.left plain + shift) groutPx
             then TileRect.width plain - (groutPx - (TileRect.left plain + shift))
             else TileRect.width plain)
      /\ TileRect.top cell == TileRect.top plain
      /\ TileRect.height cell == TileRect.height plain).
Proof.
  assert (H : (1 < offset Sample.defaultParams)%Z) by (vm_compute; reflexivity).
  split; [exact H|].
  exact (locateCell_step 1 100 Sample.defaultParams 2 5 true H).
Defined.

(** C3, as stated, fails twice. With offset 2 the step does not follow
    [stepDirection]: stepping left, row 2 is moved to x = 234 exactly as when
    stepping right, not to 266 + 32 = 298. With offset 3 and no alternation
    the ramp is moved by offset - 1 when stepping left, not right: stepping
    right, row 1 (index 0) stays at x = 266, and stepping left it is moved by
    -128/3. *)
Lemma locateCell_step_spec_differs :
  locateCell 1 100 (Sample.steppedLeft 2 true) 2 5 true
  = locateCell 1 100 (Sample.steppedRight 2 true) 2 5 true
  /\ TileRect.x (locateCell 1 100 (Sample.steppedLeft 2 true) 2 5 true) == 234
  /\ ~ TileRect.x (locateCell 1 100 (Sample.steppedLeft 2 true) 2 5 true)
       == TileRect.x (locateCell 1 100 (withOffset (Sample.steppedLeft 2 true) 1) 2 5 true)
          + spec_stepShift 1 100 (Sample.steppedLeft 2 true) 1
  /\ TileRect.x (locateCell 1 100 (Sample.steppedRight 3 false) 1 5 true) == 266
  /\ ~ TileRect.x (locateCell 1 100 (Sample.steppedRight 3 false) 1 5 true)
       == TileRect.x (locateCell 1 100 (withOffset (Sample.steppedRight 3 false) 1) 1 5 true)
          + spec_stepShift 1 100 (Sample.steppedRight 3 false) 0
  /\ TileRect.x (locateCell 1 100 (Sample.steppedLeft 3 false) 1 5 true)
     == 266 - (128 # 3).
Proof.
  split; [vm_compute; reflexivity|].
  split; [vm_compute; reflexivity|].
  split; [intros H; vm_compute in H; discriminate H|].
  split; [vm_compute; reflexivity|].
  split; [intros H; vm_compute in H; discriminate H|].
  vm_compute; reflexivity.
Qed.

(** ** Subtracting holes *)

Lemma contains_iff r p :
  TileRect.contains r p = true
  <-> TileRect.left r <= TilePoint.x p /\ TilePoint.x p <= TileRect.right r
      /\ TileRect.top r <= TilePoint.y p /\ TilePoint.y p <= TileRect.bottom r.
Proof.
  unfold TileRect.contains, Qgeb. rewrite !andb_true_iff, !Qle_bool_iff. tauto.
Qed.

Lemma Qeq_bool_refl a : Qeq_bool a a = true.
Proof. apply Qeq_bool_iff. reflexivity. Qed.

(** [lra] reads a half as a product. *)
Ltac halves := unfold Qdiv in *; change (/ 2) with (1 # 2) in *.

(** A rectangle that shares no inner point with [other] comes back as it is. *)
Lemma intersect_disjoint this other :
  0 < TileRect.width this -> 0 < TileRect.height this ->
  ~ overlaps this other ->
  TileRect.intersect this other = TileRect.This.
Proof.
  intros Hw Hh Hno. unfold TileRect.intersect.
  assert (P : forall p q,
             TilePoint.x p <= TileRect.right this /\ TileRect.left this <= TilePoint.x p ->
             TilePoint.y q <= TileRect.bottom this /\ TileRect.top this <= TilePoint.y q ->
             TilePoint.x q == TileRect.left this + TileRect.width this / 2 ->
             TilePoint.y p == TileRect.top this + TileRect.height this / 2 ->
             TileRect.contains other p && TileRect.contains other q = false).
  { intros p q Hp Hq Hqx Hpy.
    destruct (TileRect.contains other p) eqn:Ep; [|reflexivity].
    destruct (TileRect.contains other q) eqn:Eq; [|reflexivity].
    exfalso. apply Hno. clear Hno.
    apply contains_iff in Ep. apply contains_iff in Eq.
    unfold overlaps, TileRect.right, TileRect.bottom, TileRect.left, TileRect.top in *.
    halves. split; [|split; [|split]]; lra. }
  assert (LT : TileRect.contains other (TileRect.leftMiddle this)
               && TileRect.contains other (TileRect.topMiddle this) = false).
  { apply P; unfold TileRect.leftMiddle, TileRect.topMiddle, TileRect.right,
      TileRect.bottom, TileRect.left, TileRect.top; simpl; halves; try lra; reflexivity. }
  assert (RT : TileRect.contains other (TileRect.rightMiddle this)
               && TileRect.contains other (TileRect.topMiddle this) = false).
  { apply P; unfold TileRect.rightMiddle, TileRect.topMiddle, TileRect.right,
      TileRect.bottom, TileRect.left, TileRect.top; simpl; halves; try lra; reflexivity. }
  assert (LB : TileRect.contains other (TileRect.leftMiddle this)
               && TileRect.contains other (TileRect.bottomMiddle this) = false).
  { apply P; unfold TileRect.leftMiddle, TileRect.bottomMiddle, TileRect.right,
      TileRect.bottom, TileRect.left, TileRect.top; simpl; halves; try lra; reflexivity. }
  assert (E1 : TileRect.contains other (TileRect.leftMiddle this)
               && TileRect.contains other (TileRect.topMiddle this)
               && TileRect.contains other (TileRect.bottomMiddle this) = false)
    by (rewrite LT; reflexivity).
  assert (E2 : TileRect.contains other (TileRect.topMiddle this)
               && TileRect.contains other (TileRect.leftMiddle this)
               && TileRect.contains other (TileRect.rightMiddle this) = false)
    by (rewrite (andb_comm (TileRect.contains other (TileRect.topMiddle this))), LT;
        reflexivity).
  assert (E3 : TileRect.contains other (TileRect.rightMiddle this)
               && TileRect.contains other (TileRect.topMiddle this)
               && TileRect.contains other (TileRect.bottomMiddle this) = false)
    by (rewrite RT; reflexivity).
  assert (E4 : TileRect.contains other (TileRect.bottomMiddle this)
               && TileRect.contains other (TileRect.leftMiddle this)
               && TileRect.contains other (TileRect.rightMiddle this) = false)
    by (rewrite (andb_comm (TileRect.contains other (TileRect.bottomMiddle this))), LB;
        reflexivity).
  rewrite E1, E2, E3, E4. cbv zeta.
  assert (G1 : Qgeb (TileRect.left this) (TileRect.right this) = false)
    by (apply Qgeb_lt; unfold TileRect.left, TileRect.right; lra).
  assert (G2 : Qgeb (TileRect.top this) (TileRect.bottom this) = false)
    by (apply Qgeb_lt; unfold TileRect.top, TileRect.bottom; lra).
  rewrite G1, G2, !Qeq_bool_refl. reflexivity.
Qed.

(** A rectangle that lies inside [other] is cut away whole. *)
Lemma intersect_covered this other :
  0 <= TileRect.width this -> 0 <= TileRect.height this ->
  TileRect.left other <= TileRect.left this ->
  TileRect.right this <= TileRect.right other ->
  TileRect.top other <= TileRect.top this ->
  TileRect.bottom this <= TileRect.bottom other ->
  TileRect.intersect this other = TileRect.Null.
Proof.
  intros Hw Hh Hl Hr Ht Hb. unfold TileRect.intersect.
  assert (C : forall p,
             TileRect.left this <= TilePoint.x p <= TileRect.right this ->
             TileRect.top this <= TilePoint.y p <= TileRect.bottom this ->
             TileRect.contains other p = true).
  { intros p Hx Hy. apply contains_iff. lra. }
  rewrite !C by
    (unfold TileRect.leftMiddle, TileRect.topMiddle, TileRect.rightMiddle,
       TileRect.bottomMiddle, TileRect.left, TileRect.right, TileRect.top,
       TileRect.bottom in *; simpl; halves; lra).
  cbn [andb]. cbv beta iota zeta.
  assert (G : Qgeb (Qmax (TileRect.left this) (TileRect.right other))
                   (Qmin (TileRect.right this) (TileRect.left other)) = true).
  { apply Qgeb_le. unfold TileRect.left, TileRect.right in *. q_minmax; lra. }
  rewrite G. reflexivity.
Qed.

Lemma subtractHole_not_null bf mag m tile result hole :
  result <> TileRect.Null ->
  subtractHole bf mag m tile result hole <> TileRect.Null.
Proof.
  intros H. unfold subtractHole.
  destruct (trimBy tile result (locateHole bf mag m hole)); congruence.
Qed.

Lemma subtractHoles_not_null bf mag m tile hs :
  forall result,
    result <> TileRect.Null ->
    fold_left (subtractHole bf mag m tile) hs result <> TileRect.Null.
Proof.
  induction hs as [|hole hs IH]; intros result H; simpl.
  - exact H.
  - apply IH, subtractHole_not_null, H.
Qed.

(** The holes never take a tile away: [intersectWithHoles] is [null] only
    when the canvas crop alone leaves nothing. *)
Theorem intersectWithHoles_null_only_by_crop :
  forall (basisFactor magnification : Q) (model : TileParametersModel)
         (canvasCrop : option (list TileRect.t)) (tile : TileRect.t),
    intersectWithHoles basisFactor magnification model canvasCrop tile
    = TileRect.Null ->
    exists crops,
      canvasCrop = Some crops
      /\ fold_left (trimBy tile) crops TileRect.This = TileRect.Null.
Proof.
  intros bf mag m crop tile. unfold intersectWithHoles.
  destruct crop as [crops|].
  - destruct (fold_left (trimBy tile) crops TileRect.This) eqn:E; intros H.
    + exists crops. split; [reflexivity | exact E].
    + exfalso. revert H. apply subtractHoles_not_null. discriminate.
    + exfalso. revert H. apply subtractHoles_not_null. discriminate.
  - intros H. exfalso. revert H. apply subtractHoles_not_null. discriminate.
Qed.

Lemma intersectWithHoles_null_only_by_crop_witness :
  exists crops,
    Some [TileRect.mk 0 0 400 200] = Some crops
    /\ fold_left (trimBy (TileRect.mk 266 20 64 16)) crops TileRect.This
       = TileRect.Null.
Proof.
  apply (intersectWithHoles_null_only_by_crop 1 100 Sample.holed
           (Some [TileRect.mk 0 0 400 200]) (TileRect.mk 266 20 64 16)).
  vm_compute. reflexivity.
Defined.

(** C1: the code at the hole over rows 2-3, columns 5-7. [intersect] of the
    tile at row 2, column 5 with the hole's rectangle is [null], and still
    [intersectWithHoles] hands back that tile itself, as it does for each of
    the six tiles of the hole. *)
Theorem intersectWithHoles_keeps_covered_tile :
  TileRect.intersect (locateTile 1 100 Sample.holed 2 5)
    (locateHole 1 100 Sample.holed (mkRegion 2 5 3 7)) = TileRect.Null
  /\ rectOf (locateTile 1 100 Sample.holed 2 5)
       (intersectWithHoles 1 100 Sample.holed None (locateTile 1 100 Sample.holed 2 5))
     = Some (locateTile 1 100 Sample.holed 2 5)
  /\ option_map
       (fun l => map (fun rc => l_intersectWithHoles l
                                  (l_locate l (fst rc) (snd rc) (fst rc) (snd rc) true))
                   [(2, 5); (2, 6); (2, 7); (3, 5); (3, 6); (3, 7)]%Z)
       (layout 1 100 Sample.holed [])
     = Some [TileRect.This; TileRect.This; TileRect.This;
             TileRect.This; TileRect.This; TileRect.This].
Proof.
  split; [vm_compute; reflexivity|].
  split; vm_compute; reflexivity.
Qed.

(** A tile that every hole covers, on a canvas without crop, comes back as
    the same rectangle, not as [null]. *)
Theorem intersectWithHoles_covered_is_kept :
  forall (basisFactor magnification : Q) (model : TileParametersModel)
         (tile : TileRect.t),
    0 <= TileRect.width tile -> 0 <= TileRect.height tile ->
    (forall hole, In hole (holes model) ->
       let r := locateHole basisFactor magnification model hole in
       TileRect.left r <= TileRect.left tile
       /\ TileRect.right tile <= TileRect.right r
       /\ TileRect.top r <= TileRect.top tile
       /\ TileRect.bottom tile <= TileRect.bottom r) ->
    intersectWithHoles basisFactor magnification model None tile = TileRect.This.
Proof.
  intros bf mag m tile Hw Hh Hcov. unfold intersectWithHoles.
  induction (holes m) as [|hole hs IH]; simpl.
  - reflexivity.
  - unfold subtractHole at 2. cbn [trimBy].
    destruct (Hcov hole (or_introl eq_refl)) as (H1 & H2 & H3 & H4).
    rewrite intersect_covered by assumption.
    apply IH. intros h Hin. apply Hcov. right. exact Hin.
Qed.

Lemma intersectWithHoles_covered_is_kept_witness :
  intersectWithHoles 1 100 Sample.holed None (TileRect.mk 266 20 64 16)
  = TileRect.This.
Proof.
  apply (intersectWithHoles_covered_is_kept 1 100 Sample.holed
           (TileRect.mk 266 20 64 16)).
  - vm_compute. discriminate.
  - vm_compute. discriminate.
  - intros hole [<-|[]]. vm_compute.
    split; [discriminate|]. split; [discriminate|]. split; discriminate.
Defined.

(** A tile of positive size that shares no inner point with any crop
    rectangle or any hole comes back as the same rectangle. *)
Theorem intersectWithHoles_disjoint_is_same :
  forall (basisFactor magnification : Q) (model : TileParametersModel)
         (canvasCrop : option (list TileRect.t)) (tile : TileRect.t),
    0 < TileRect.width tile -> 0 < TileRect.height tile ->
    (forall crops crop, canvasCrop = Some crops -> In crop crops ->
       ~ overlaps tile crop) ->
    (forall hole, In hole (holes model) ->
       ~ overlaps tile (locateHole basisFactor magnification model hole)) ->
    intersectWithHoles basisFactor magnification model canvasCrop tile
    = TileRect.This.
Proof.
  intros bf mag m crop tile Hw Hh Hcrop Hholes. unfold intersectWithHoles.
  assert (E : match crop with
              | Some crops => fold_left (trimBy tile) crops TileRect.This
              | None => TileRect.This
              end = TileRect.This).
  { destruct crop as [crops|]; [|reflexivity].
    specialize (Hcrop crops).
    induction crops as [|c cs IH]; simpl; [reflexivity|].
    rewrite intersect_disjoint; auto.
    - apply IH. intros crop E Hin. apply Hcrop; auto. right. exact Hin.
    - apply Hcrop; auto. left. reflexivity. }
  rewrite E. clear E Hcrop.
  induction (holes m) as [|hole hs IH]; simpl; [reflexivity|].
  unfold subtractHole at 2. cbn [trimBy].
  rewrite intersect_disjoint; auto.
  - apply IH. intros h Hin. apply Hholes. right. exact Hin.
  - apply Hholes. left. reflexivity.
Qed.

Lemma intersectWithHoles_disjoint_is_same_witness :
  intersectWithHoles 1 100 Sample.holed None (TileRect.mk 2 2 64 16)
  = TileRect.This.
Proof.
  apply (intersectWithHoles_disjoint_is_same 1 100 Sample.holed None
           (TileRect.mk 2 2 64 16)).
  - vm_compute. reflexivity.
  - vm_compute. reflexivity.
  - intros crops crop H. discriminate H.
  - intros hole [<-|[]]. intros (_ & H & _). vm_compute in H. discriminate H.
Defined.

(** ** Array primitives *)


Lemma clamp_in_range len i :
  (0 <= i < Z.of_nat len)%Z -> JS.clamp len i = Z.to_nat i.
Proof.
  intros H. unfold JS.clamp.
  destruct (i <? 0)%Z eqn:E; [apply Z.ltb_lt in E; lia|].
  apply Nat.min_l. lia.
Qed.

Lemma splice1_perm (T : Type) (items : list T) (start : Z) :
  Permutation (fst (JS.splice1 items start) ++ snd (JS.splice1 items start)) items.
Proof.
  unfold JS.splice1. cbn [fst snd].
  generalize (JS.clamp (List.length items) start). intros s.
  transitivity (firstn s items ++ skipn s items);
    [|rewrite firstn_skipn; reflexivity].
  rewrite Permutation_app_swap_app. apply Permutation_app_head.
  replace (skipn (S s) items) with (skipn 1 (skipn s items))
    by (rewrite skipn_skipn; reflexivity).
  rewrite (firstn_skipn 1 (skipn s items)). reflexivity.
Qed.

Lemma splice1_length (T : Type) (items : list T) (start : Z) :
  (0 <= start < Z.of_nat (List.length items))%Z ->
  List.length (fst (JS.splice1 items start)) = 1%nat
  /\ S (List.length (snd (JS.splice1 items start))) = List.length items.
Proof.
  intros H. unfold JS.splice1. cbn [fst snd].
  rewrite clamp_in_range by assumption.
  assert (Hs : (Z.to_nat start < List.length items)%nat) by lia.
  revert Hs. generalize (Z.to_nat start). intros s Hs.
  split.
  - rewrite length_firstn, length_skipn. lia.
  - rewrite length_app, length_firstn, length_skipn. lia.
Qed.

(** ** The randomizer *)

Section RandomizerFacts.
Context {SR : SeedRandom}.

Lemma nextInt_nonneg g : (0 <= fst (Randomizer.nextInt g))%Z.
Proof.
  unfold Randomizer.nextInt. destruct (prng_int32 g). simpl. apply Z.abs_nonneg.
Qed.

(** An index drawn for a supply of more than one item lies within it. *)
Lemma drawn_index_in_range n len :
  (0 <= n)%Z -> (1 < len)%nat ->
  (0 <= JS.toIndex (JS.rem n (Z.of_nat len)) < Z.of_nat len)%Z.
Proof.
  intros Hn Hlen. unfold JS.rem.
  destruct (Z.of_nat len =? 0)%Z eqn:E; [apply Z.eqb_eq in E; lia|].
  simpl. pose proof (Z.rem_bound_pos n (Z.of_nat len)). lia.
Qed.

Lemma shuffleLoop_spec (T : Type) :
  forall fuel (supply result : list T) g supply' result' g',
    Randomizer.shuffleLoop fuel supply result g = (supply', result', g') ->
    Permutation (result' ++ supply') (result ++ supply)
    /\ ((List.length supply <= fuel)%nat -> (List.length supply' <= 1)%nat).
Proof.
  induction fuel as [|fuel IH]; intros supply result g supply' result' g' H;
    cbn [Randomizer.shuffleLoop] in H.
  - inversion H; subst. split; [reflexivity|]. lia.
  - destruct (1 <? List.length supply)%nat eqn:E.
    + apply Nat.ltb_lt in E.
      pose proof (nextInt_nonneg g) as Hn.
      destruct (Randomizer.nextInt g) as [n g1]. simpl in Hn.
      pose proof (drawn_index_in_range n (List.length supply) Hn E) as Hi.
      pose proof (splice1_perm T supply (JS.toIndex (JS.rem n (Z.of_nat (List.length supply))))) as Hp.
      pose proof (splice1_length T supply _ Hi) as [Hl1 Hl2].
      destruct (JS.splice1 supply (JS.toIndex (JS.rem n (Z.of_nat (List.length supply)))))
        as [item rest]. cbn [fst snd] in *.
      apply IH in H. destruct H as [H1 H2]. split.
      * rewrite H1, <- app_assoc. apply Permutation_app_head. exact Hp.
      * intros Hf. apply H2. lia.
    + apply Nat.ltb_ge in E. inversion H; subst. split; [reflexivity|]. intros _. exact E.
Qed.

(** [shuffle] returns its items in some order. *)
Lemma shuffle_perm (T : Type) (items : list T) g :
  Permutation (fst (Randomizer.shuffle items g)) items.
Proof.
  unfold Randomizer.shuffle. destruct items as [|a items]; [reflexivity|].
  destruct (Randomizer.shuffleLoop (List.length (a :: items)) (a :: items) [] g)
    as [[supply result] g'] eqn:E.
  apply shuffleLoop_spec in E. destruct E as [Hp Hl]. simpl fst.
  specialize (Hl (le_n _)).
  destruct supply as [|s [|s' supply]]; [exact Hp | exact Hp | simpl in Hl; lia].
Qed.

Lemma shuffle_length (T : Type) (items : list T) g :
  List.length (fst (Randomizer.shuffle items g)) = List.length items.
Proof. apply Permutation_length, shuffle_perm. Qed.

End RandomizerFacts.

(** ** The colour dispenser *)

Section DispenserFacts.
Context {SR : SeedRandom}.

Lemma rem_succ i c r :
  (0 <= i)%Z -> (0 < c)%Z -> Z.rem i c = r ->
  Z.rem (i + 1) c = (if (r + 1 =? c)%Z then 0 else r + 1)%Z.
Proof.
  intros Hi Hc Hr. rewrite Z.rem_mod_nonneg in * by lia.
  pose proof (Z.mod_pos_bound i c Hc) as Hb.
  pose proof (Z.div_mod i c) as Hd. rewrite Hr in *.
  destruct (r + 1 =? c)%Z eqn:E.
  - apply Z.eqb_eq in E. symmetry.
    apply (Z.mod_unique_pos (i + 1) c (i / c + 1) 0); lia.
  - apply Z.eqb_neq in E. symmetry.
    apply (Z.mod_unique_pos (i + 1) c (i / c) (r + 1)); lia.
Qed.

(** The group a turn dispenses from. *)
Lemma colourDispenser_some colours st g group g' :
  (let colourCount := Z.of_nat (List.length colours) in
   match JS.rem (Dispenser.i st) colourCount with
   | Some 0%Z =>
       let (group, g') := Randomizer.shuffle colours g in
       if sameColour (hd_error group) (Dispenser.lastColour st) then
         let (colour, group') := JS.splice1 group 0 in (group' ++ colour, g')
       else (group, g')
   | _ => (Dispenser.group st, g)
   end) = (group, g') ->
  colourDispenser colours st g
  = match group with
    | [] => None
    | c :: group' =>
        Some (c, Dispenser.mk (Dispenser.i st + 1) group' (Some c), g')
    end.
Proof.
  intros H. unfold colourDispenser. cbv zeta in H. rewrite H. reflexivity.
Qed.

Lemma swapped_length (group : list string) :
  List.length (snd (JS.splice1 group 0) ++ fst (JS.splice1 group 0))
  = List.length group.
Proof.
  rewrite length_app, Nat.add_comm, <- length_app.
  apply Permutation_length, splice1_perm.
Qed.

(** With at least one colour every turn of the dispenser hands out a colour
    of the list and keeps the state well formed. *)
Lemma colourDispenser_total colours st g :
  colours <> [] -> inGroup colours st ->
  exists c st' g',
    colourDispenser colours st g = Some (c, st', g')
    /\ inGroup colours st'
    /\ Dispenser.i st' = (Dispenser.i st + 1)%Z.
Proof.
  intros Hne [Hi Hgroup].
  assert (Hc : (0 < Z.of_nat (List.length colours))%Z).
  { destruct colours; [congruence | simpl; lia]. }
  destruct (let colourCount := Z.of_nat (List.length colours) in
   match JS.rem (Dispenser.i st) colourCount with
   | Some 0%Z =>
       let (group, g') := Randomizer.shuffle colours g in
       if sameColour (hd_error group) (Dispenser.lastColour st) then
         let (colour, group') := JS.splice1 group 0 in (group' ++ colour, g')
       else (group, g')
   | _ => (Dispenser.group st, g)
   end) as [group g'] eqn:E.
  rewrite (colourDispenser_some _ _ _ _ _ E).
  cbv zeta in E, Hgroup. unfold JS.rem in E.
  destruct (Z.of_nat (List.length colours) =? 0)%Z eqn:Ez;
    [apply Z.eqb_eq in Ez; lia|].
  pose proof (rem_succ (Dispenser.i st) _ _ Hi Hc eq_refl) as Hs.
  assert (Hlen : Z.rem (Dispenser.i st) (Z.of_nat (List.length colours)) = 0%Z
                 /\ List.length group = List.length colours
                 \/ Z.rem (Dispenser.i st) (Z.of_nat (List.length colours)) <> 0%Z
                    /\ group = Dispenser.group st).
  { destruct (Z.rem (Dispenser.i st) (Z.of_nat (List.length colours))) eqn:Er.
    - left. split; [reflexivity|].
      pose proof (shuffle_length _ colours g) as Hl.
      destruct (Randomizer.shuffle colours g) as [grp g1]. simpl in Hl.
      destruct (sameColour (hd_error grp) (Dispenser.lastColour st)).
      + pose proof (swapped_length grp) as Hsw.
        destruct (JS.splice1 grp 0) as [colour grp']. simpl in Hsw.
        inversion E; subst. congruence.
      + inversion E; subst. exact Hl.
    - right. split; [discriminate|]. inversion E; reflexivity.
    - right. split; [discriminate|]. inversion E; reflexivity. }
  pose proof (Z.rem_bound_pos (Dispenser.i st) _ Hi Hc) as Hb.
  destruct Hlen as [[Hr Hl] | [Hr Hg]].
  - destruct group as [|c group']; [simpl in Hl; lia|].
    exists c, (Dispenser.mk (Dispenser.i st + 1) group' (Some c)), g'.
    split; [reflexivity|]. split; [|reflexivity].
    split; simpl; [lia|]. rewrite Hs, Hr. simpl in Hl.
    destruct (0 + 1 =? Z.of_nat (List.length colours))%Z; [congruence|]. lia.
  - subst group. specialize (Hgroup Hr).
    destruct (Dispenser.group st) as [|c group']; [cbn [List.length] in Hgroup; lia|].
    exists c, (Dispenser.mk (Dispenser.i st + 1) group' (Some c)), g'.
    split; [reflexivity|]. split; [|reflexivity].
    split; simpl; [lia|]. rewrite Hs. cbn [List.length] in Hgroup.
    destruct (Z.rem _ _ + 1 =? _)%Z; [congruence|]. lia.
Qed.

Lemma inGroup_init colours : inGroup colours Dispenser.init.
Proof.
  split; simpl; [lia|]. intros H. exfalso. apply H. reflexivity.
Qed.

End DispenserFacts.

(** ** Rotation *)


Lemma rotate_length (T : Type) (items : list T) (places : Z) :
  List.length (rotate items places) = List.length items.
Proof.
  unfold rotate. destruct (places =? 0)%Z; [reflexivity|].
  unfold JS.spliceFrom. rewrite length_app, Nat.add_comm, <- length_app.
  rewrite firstn_skipn. reflexivity.
Qed.

Lemma rotate_perm (T : Type) (items : list T) (places : Z) :
  Permutation (rotate items places) items.
Proof.
  unfold rotate. destruct (places =? 0)%Z; [reflexivity|].
  unfold JS.spliceFrom. rewrite Permutation_app_comm, firstn_skipn. reflexivity.
Qed.

(** After a rotation by [p] places the item that stood at index [i] stands
    at index [(i + p) mod length]. *)
Lemma rotate_nth (T : Type) (items : list T) (p i : nat) :
  (p <= List.length items)%nat -> (i < List.length items)%nat ->
  nth_error (skipn (List.length items - p) items
             ++ firstn (List.length items - p) items)
            ((i + p) mod List.length items)
  = nth_error items i.
Proof.
  intros Hp Hi. set (len := List.length items) in *.
  destruct (Nat.lt_ge_cases i (len - p)) as [Hlt | Hge].
  - rewrite Nat.mod_small by lia.
    rewrite nth_error_app2 by (rewrite length_skipn; fold len; lia).
    rewrite length_skipn. fold len.
    replace (i + p - (len - (len - p)))%nat with i by lia.
    rewrite nth_error_firstn.
    destruct (i <? len - p)%nat eqn:E; [reflexivity | apply Nat.ltb_ge in E; lia].
  - assert (E : ((i + p) mod len = i - (len - p))%nat).
    { symmetry. apply (Nat.mod_unique (i + p) len 1); lia. }
    rewrite E.
    rewrite nth_error_app1 by (rewrite length_skipn; fold len; lia).
    rewrite nth_error_skipn. f_equal. lia.
Qed.

(** ** Rows of tiles *)

Section RowFacts.
Context {SR : SeedRandom}.
Variable model : TileParametersModel.
Variable colourWeights : JSObject.t Z.
Variable favourites : list string.

(** What a filled row looks like: [n] tiles of row [rowKey], the tile at
    position [j] keyed [((i + j + rotation) % columnCount) + 1]. *)
Lemma fillRow_shape colours rowKey :
  forall n i st g row g',
    fillRow model colours rowKey n i st g = Some (row, g') ->
    List.length row = n
    /\ forall j, (j < n)%nat ->
         exists colour,
           nth_error row j
           = Some (Tile.mk
                     (Z.rem (i + Z.of_nat j + rotation model) (columnCount model) + 1)
                     rowKey colour).
Proof.
  induction n as [|n IH]; intros i st g row g' H; simpl in H;
    destruct (colourDispenser colours st g) as [[[colour st'] g1]|]; try discriminate.
  - inversion H; subst. split; [reflexivity|]. intros j Hj. lia.
  - destruct (fillRow model colours rowKey n (i + 1) st' g1) as [[row' g2]|] eqn:E;
      [|discriminate].
    inversion H; subst. apply IH in E. destruct E as [Hlen Hnth].
    split; [simpl; congruence|].
    intros [|j] Hj.
    + exists colour. simpl. rewrite Z.add_0_r. reflexivity.
    + destruct (Hnth j) as [c Hc]; [lia|]. exists c. cbn [nth_error]. rewrite Hc.
      do 4 f_equal. lia.
Qed.

(** With at least one colour a row never fails to fill. *)
Lemma fillRow_total colours rowKey :
  colours <> [] ->
  forall n i st g,
    inGroup colours st ->
    exists row g', fillRow model colours rowKey n i st g = Some (row, g').
Proof.
  intros Hne. induction n as [|n IH]; intros i st g Hst; simpl;
    destruct (colourDispenser_total colours st g Hne Hst)
      as (c & st' & g1 & -> & Hst' & _).
  - eauto.
  - destruct (IH (i + 1)%Z st' g1 Hst') as (row & g2 & ->). eauto.
Qed.

(** The row key only labels the tiles: it changes neither the colours nor
    the draws. *)
Lemma fillRow_rowKey colours rowKey k :
  forall n i st g,
    fillRow model colours (rowKey + k) n i st g
    = match fillRow model colours rowKey n i st g with
      | Some (row, g') => Some (map (shiftTile k) row, g')
      | None => None
      end.
Proof.
  induction n as [|n IH]; intros i st g; simpl;
    destruct (colourDispenser colours st g) as [[[colour st'] g1]|]; try reflexivity.
  rewrite IH.
  destruct (fillRow model colours rowKey n (i + 1) st' g1) as [[row g2]|]; reflexivity.
Qed.

Lemma rotate_map (A B : Type) (f : A -> B) (items : list A) places :
  rotate (map f items) places = map f (rotate items places).
Proof.
  unfold rotate. destruct (places =? 0)%Z; [reflexivity|].
  unfold JS.spliceFrom. rewrite length_map, map_app, skipn_map, firstn_map.
  reflexivity.
Qed.

Lemma generateRow_rowKey rowKey k g :
  generateRow model colourWeights favourites (rowKey + k) g
  = match generateRow model colourWeights favourites rowKey g with
    | Some (r, g') => Some (shiftRow k r, g')
    | None => None
    end.
Proof.
  unfold generateRow.
  destruct (colourSupplier model colourWeights favourites g) as [colours g1].
  rewrite fillRow_rowKey.
  destruct (fillRow model colours rowKey (Z.to_nat (columnCount model)) 0
              Dispenser.init g1) as [[row g2]|]; [|reflexivity].
  unfold shiftRow. simpl. rewrite rotate_map. reflexivity.
Qed.

Lemma yieldRows_rowKey k :
  forall n i g,
    yieldRows model colourWeights favourites n (i + k) g
    = match yieldRows model colourWeights favourites n i g with
      | Some rows => Some (map (shiftRow k) rows)
      | None => None
      end.
Proof.
  induction n as [|n IH]; intros i g; simpl; [reflexivity|].
  rewrite generateRow_rowKey.
  destruct (generateRow model colourWeights favourites i g) as [[r g1]|];
    [|reflexivity].
  replace (i + k - 1)%Z with (i - 1 + k)%Z by lia. rewrite IH.
  destruct (yieldRows model colourWeights favourites n (i - 1) g1); reflexivity.
Qed.

Lemma yieldRows_length :
  forall n i g rows,
    yieldRows model colourWeights favourites n i g = Some rows ->
    List.length rows = n.
Proof.
  induction n as [|n IH]; intros i g rows H; simpl in H.
  - inversion H. reflexivity.
  - destruct (generateRow model colourWeights favourites i g) as [[r g1]|];
      [|discriminate].
    destruct (yieldRows model colourWeights favourites n (i - 1) g1) as [rest|] eqn:E;
      [|discriminate].
    inversion H. simpl. f_equal. eapply IH, E.
Qed.

(** The first [n] rows yielded do not depend on how many follow. *)
Lemma yieldRows_prefix :
  forall n k i g long,
    yieldRows model colourWeights favourites (n + k) i g = Some long ->
    exists short rest,
      yieldRows model colourWeights favourites n i g = Some short
      /\ long = short ++ rest /\ List.length rest = k.
Proof.
  induction n as [|n IH]; intros k i g long H.
  - exists [], long. repeat split. eapply yieldRows_length, H.
  - simpl in H |- *.
    destruct (generateRow model colourWeights favourites i g) as [[r g1]|];
      [|discriminate].
    destruct (yieldRows model colourWeights favourites (n + k) (i - 1) g1)
      as [rows|] eqn:E; [|discriminate].
    apply IH in E. destruct E as (short & rest & -> & -> & Hlen).
    inversion H. exists (r :: short), rest. repeat split. exact Hlen.
Qed.

End RowFacts.

(** ** What the generator reads of the parameters *)

Section ReadFields.
Context {SR : SeedRandom}.
Variables a b : TileParametersModel.
Variable colourWeights : JSObject.t Z.
Variable favourites : list string.
Hypothesis same : sameRowFields a b.

Lemma colourSupplier_ext g :
  colourSupplier a colourWeights favourites g
  = colourSupplier b colourWeights favourites g.
Proof.
  destruct same as (_ & Hc & Hg & _).
  unfold colourSupplier, baseColourSupplier. rewrite Hc, Hg. reflexivity.
Qed.

Lemma fillRow_ext colours rowKey :
  forall n i st g,
    fillRow a colours rowKey n i st g = fillRow b colours rowKey n i st g.
Proof.
  destruct same as (Hcc & _ & _ & Hr).
  induction n as [|n IH]; intros i st g; simpl;
    destruct (colourDispenser colours st g) as [[[colour st'] g1]|]; try reflexivity.
  rewrite IH, Hcc, Hr. reflexivity.
Qed.

Lemma generateRow_ext rowKey g :
  generateRow a colourWeights favourites rowKey g
  = generateRow b colourWeights favourites rowKey g.
Proof.
  unfold generateRow. rewrite colourSupplier_ext.
  destruct (colourSupplier b colourWeights favourites g) as [colours g1].
  rewrite fillRow_ext.
  destruct same as (Hcc & _ & _ & Hr). rewrite Hcc, Hr. reflexivity.
Qed.

Lemma yieldRows_ext :
  forall n i g,
    yieldRows a colourWeights favourites n i g
    = yieldRows b colourWeights favourites n i g.
Proof.
  induction n as [|n IH]; intros i g; simpl; [reflexivity|].
  rewrite generateRow_ext.
  destruct (generateRow b colourWeights favourites i g) as [[r g1]|]; [|reflexivity].
  rewrite IH. reflexivity.
Qed.

End ReadFields.

Lemma unshift_all (T : Type) (yielded : list T) :
  forall result,
    fold_left (fun result row => row :: result) yielded result
    = rev yielded ++ result.
Proof.
  induction yielded as [|r rs IH]; intros result; simpl; [reflexivity|].
  rewrite IH, <- app_assoc. reflexivity.
Qed.

(** [generate] in terms of the rows as yielded. *)
Lemma generate_rev {SR : SeedRandom} (model : TileParametersModel) :
  generateRows model
  = option_map (@rev TileRow.t)
      (yieldRows model (colourWeightsOf model) (favouritesOf model)
         (Z.to_nat (rowCount model)) (rowCount model) (seedrandom (seed model))).
Proof.
  unfold generateRows, generate, RowGenerator_generateRows.
  destruct (yieldRows _ _ _ _ _ _) as [ys|]; simpl; [|reflexivity].
  rewrite unshift_all, app_nil_r. reflexivity.
Qed.

(** ** Stability under growth *)

(** C2, as amended. Generating N + k rows instead of N (same seed, all other
    parameters unchanged) gives, as its bottom N rows, the rows of the N-row
    output with the same tile colours and column keys in the same order; each
    row key and each tile's row is larger by k. *)
Theorem rows_stable_under_growth :
  forall (SR : SeedRandom) (model : TileParametersModel) (N k : Z)
         (long : list TileRow.t),
    (0 <= N)%Z -> (0 <= k)%Z ->
    generateRows (withRowCount model (N + k)) = Some long ->
    exists short : list TileRow.t,
      generateRows (withRowCount model N) = Some short
      /\ List.length short = Z.to_nat N
      /\ skipn (Z.to_nat k) long = map (shiftRow k) short
      /\ map rowColours (skipn (Z.to_nat k) long) = map rowColours short
      /\ map TileRow.key (skipn (Z.to_nat k) long)
         = map (fun r => (TileRow.key r + k)%Z) short.
Proof.
  intros SR model N k long HN Hk H.
  rewrite generate_rev in H. rewrite generate_rev.
  change (colourWeightsOf (withRowCount model (N + k))) with (colourWeightsOf model) in H.
  change (favouritesOf (withRowCount model (N + k))) with (favouritesOf model) in H.
  change (colourWeightsOf (withRowCount model N)) with (colourWeightsOf model).
  change (favouritesOf (withRowCount model N)) with (favouritesOf model).
  cbn [rowCount seed withRowCount] in *.
  rewrite (yieldRows_ext (withRowCount model (N + k)) model) in H
    by (repeat split).
  rewrite (yieldRows_ext (withRowCount model N) model) by (repeat split).
  destruct (yieldRows model _ _ (Z.to_nat (N + k)) _ _) as [ys|] eqn:E;
    [|discriminate].
  simpl in H. inversion H; subst long. clear H.
  replace (Z.to_nat (N + k)) with (Z.to_nat N + Z.to_nat k)%nat in E by lia.
  apply yieldRows_prefix in E. destruct E as (first & rest & E & -> & Hrest).
  rewrite yieldRows_rowKey in E.
  destruct (yieldRows model _ _ (Z.to_nat N) N _) as [ys|] eqn:E0; [|discriminate].
  inversion E; subst first. clear E.
  exists (rev ys). simpl.
  assert (Hskip : skipn (Z.to_nat k) (rev (map (shiftRow k) ys ++ rest))
                  = map (shiftRow k) (rev ys)).
  { rewrite rev_app_distr, skipn_app, length_rev, Hrest, Nat.sub_diag.
    rewrite skipn_all2 by (rewrite length_rev; lia).
    simpl. rewrite map_rev. reflexivity. }
  split; [reflexivity|].
  split; [rewrite length_rev; eapply yieldRows_length, E0|].
  rewrite Hskip. split; [reflexivity|]. split.
  - rewrite map_map. apply map_ext. intros r. unfold rowColours, shiftRow.
    simpl. rewrite map_map. reflexivity.
  - rewrite map_map. reflexivity.
Qed.

Lemma rows_stable_under_growth_witness :
  exists short : list TileRow.t,
    @generateRows scripted (withRowCount (Sample.twoColours "0110" 0 3 0 0) 1)
    = Some short
    /\ List.length short = Z.to_nat 1
    /\ skipn (Z.to_nat 1)
         (match @generateRows scripted
                  (withRowCount (Sample.twoColours "0110" 0 3 0 0) (1 + 1)) with
          | Some long => long
          | None => []
          end)
       = map (shiftRow 1) short
    /\ map rowColours
         (skipn (Z.to_nat 1)
            (match @generateRows scripted
                     (withRowCount (Sample.twoColours "0110" 0 3 0 0) (1 + 1)) with
             | Some long => long
             | None => []
             end))
       = map rowColours short
    /\ map TileRow.key
         (skipn (Z.to_nat 1)
            (match @generateRows scripted
                     (withRowCount (Sample.twoColours "0110" 0 3 0 0) (1 + 1)) with
             | Some long => long
             | None => []
             end))
       = map (fun r => (TileRow.key r + 1)%Z) short.
Proof.
  apply (rows_stable_under_growth scripted (Sample.twoColours "0110" 0 3 0 0) 1 1).
  - lia.
  - lia.
  - vm_compute. reflexivity.
Defined.

(** C2, as stated, fails on the row keys: with two colours and the draws
    0, 1, 1, 0 the one-row pattern is the row keyed 1, and the bottom row of
    the two-row pattern has the same colours but is keyed 2. *)
Lemma rows_growth_changes_row_keys :
  option_map (map TileRow.key)
    (@generateRows scripted (withRowCount (Sample.twoColours "0110" 0 3 0 0) 1))
  = Some [1%Z]
  /\ option_map (fun long => map TileRow.key (skipn 1 long))
       (@generateRows scripted (withRowCount (Sample.twoColours "0110" 0 3 0 0) 2))
     = Some [2%Z]
  /\ option_map (fun long => map rowColours (skipn 1 long))
       (@generateRows scripted (withRowCount (Sample.twoColours "0110" 0 3 0 0) 2))
     = option_map (map rowColours)
         (@generateRows scripted (withRowCount (Sample.twoColours "0110" 0 3 0 0) 1))
  /\ option_map (skipn 1)
       (@generateRows scripted (withRowCount (Sample.twoColours "0110" 0 3 0 0) 2))
     <> @generateRows scripted (withRowCount (Sample.twoColours "0110" 0 3 0 0) 1).
Proof.
  split; [vm_compute; reflexivity|].
  split; [vm_compute; reflexivity|].
  split; [vm_compute; reflexivity|].
  vm_compute. discriminate.
Qed.

(** ** Column keys and rotation *)



(** ** The palette of a row *)

Lemma insertIndexed_not_nil (V : Type) e (l : list (N * (string * V))) :
  JSObject.insertIndexed e l <> [].
Proof. destruct l as [|e' l]; simpl; [|destruct (_ <=? _)%N]; discriminate. Qed.

Lemma keys_not_nil (V : Type) (o : JSObject.t V) :
  o <> [] -> JSObject.keys o <> [].
Proof.
  destruct o as [|e o]; [congruence|]. intros _.
  unfold JSObject.keys, JSObject.entries. simpl.
  destruct (JSObject.arrayIndex (fst e)) eqn:E.
  - intros H. apply map_eq_nil, app_eq_nil in H. destruct H as [H _].
    apply map_eq_nil in H. revert H. apply insertIndexed_not_nil.
  - intros H. apply map_eq_nil, app_eq_nil in H. destruct H as [_ H].
    discriminate H.
Qed.

Lemma set_not_nil (V : Type) (o : JSObject.t V) k v : JSObject.set o k v <> [].
Proof.
  destruct o as [|[k' v'] o]; simpl; [|destruct (String.eqb k' k)]; discriminate.
Qed.

Lemma colourWeights_not_nil (l : list ColourSpec) :
  forall o : JSObject.t Z,
    o <> [] \/ (exists c, In c l /\ name c <> "__proto__"%string) ->
    fold_left
      (fun o colour =>
         if String.eqb (name colour) "__proto__" then o
         else JSObject.set o (name colour) (weight colour)) l o <> [].
Proof.
  induction l as [|a l IH]; intros o H; cbn [fold_left].
  - destruct H as [H|[c [[] _]]]. exact H.
  - apply IH. destruct (String.eqb (name a) "__proto__") eqn:E.
    + apply String.eqb_eq in E. destruct H as [H|[c [[<-|Hc] Hn]]];
        [left; exact H|contradiction|right; eauto].
    + left. apply set_not_nil.
Qed.

(** The palette has a colour when some enabled colour is a favourite or has a
    name that becomes a key of [colourWeights]. *)
Lemma palette_not_nil model :
  (exists c, In c (enabledColours model)
             /\ (favourite c = true \/ name c <> "__proto__"%string)) ->
  favouritesOf model <> [] \/ colourWeightsOf model <> [].
Proof.
  intros [c [Hc [Hf|Hn]]].
  - left. unfold favouritesOf. intros E.
    assert (Hin : In (name c) (map name (filter favourite (enabledColours model))))
      by (apply in_map, filter_In; auto).
    rewrite E in Hin. contradiction.
  - right. apply colourWeights_not_nil. right. eauto.
Qed.

Lemma shuffle_not_nil {SR : SeedRandom} (T : Type) (items : list T) g :
  items <> [] -> fst (Randomizer.shuffle items g) <> [].
Proof.
  intros H E. apply H.
  apply Permutation_nil. rewrite <- E. apply shuffle_perm.
Qed.

Lemma slice0_not_nil (T : Type) (items : list T) (n : Z) :
  items <> [] -> (1 <= n)%Z -> JS.slice0 items (Some n) <> [].
Proof.
  intros H Hn. unfold JS.slice0, JS.clamp, JS.toIndex.
  destruct (n <? 0)%Z eqn:E; [apply Z.ltb_lt in E; lia|].
  destruct items as [|a items]; [congruence|].
  destruct (Z.to_nat n) eqn:En; [lia|]. simpl. discriminate.
Qed.

Section PaletteFacts.
Context {SR : SeedRandom}.
Variable model : TileParametersModel.
Variable colourWeights : JSObject.t Z.
Variable favourites : list string.
Hypothesis someColour : favourites <> [] \/ colourWeights <> [].
Hypothesis someGroup : (1 <= groupSize model)%Z.

Lemma baseColourSupplier_not_nil g :
  fst (baseColourSupplier model colourWeights favourites g) <> [].
Proof.
  unfold baseColourSupplier.
  pose proof (shuffle_not_nil _ favourites g) as Hf.
  destruct (Randomizer.shuffle favourites g) as [favs g1]. simpl in Hf.
  pose proof (shuffle_not_nil _
                (filter (fun colour => negb (includes favourites colour))
                   (JSObject.keys colourWeights)) g1) as Ho.
  destruct (Randomizer.shuffle _ g1) as [others g2]. simpl in Ho. simpl.
  apply slice0_not_nil; [|exact someGroup].
  destruct favourites as [|f fs].
  - simpl in Ho. rewrite filter_true in Ho by reflexivity.
    intros E. apply app_eq_nil in E. destruct E as [_ E].
    revert E. apply Ho, keys_not_nil. destruct someColour; congruence.
  - intros E. apply app_eq_nil in E. destruct E as [E _].
    revert E. apply Hf. discriminate.
Qed.

Lemma colourSupplier_not_nil g :
  fst (colourSupplier model colourWeights favourites g) <> [].
Proof.
  unfold colourSupplier. pose proof (baseColourSupplier_not_nil g) as Hb.
  destruct (0 <? complexity model)%Z; [|exact Hb].
  destruct (baseColourSupplier model colourWeights favourites g) as [result g1].
  destruct (Randomizer.nextInt g1) as [n g2].
  destruct (Randomizer.weightedShuffle result colourWeights g2) as [sorted g3].
  simpl in *. intros E. apply app_eq_nil in E. tauto.
Qed.

End PaletteFacts.

(** ** Size and key ranges of the pattern *)

Section PatternShape.
Context {SR : SeedRandom}.
Variable model : TileParametersModel.
Variable colourWeights : JSObject.t Z.
Variable favourites : list string.
Hypothesis someColour : favourites <> [] \/ colourWeights <> [].
Hypothesis someGroup : (1 <= groupSize model)%Z.
Hypothesis rotationNonneg : (0 <= rotation model)%Z.

Lemma columnKey_range j :
  (j < Z.to_nat (columnCount model))%nat ->
  (1 <= Z.rem (0 + Z.of_nat j + rotation model) (columnCount model) + 1
   <= columnCount model)%Z.
Proof.
  intros Hj.
  pose proof (Z.rem_bound_pos (0 + Z.of_nat j + rotation model) (columnCount model)).
  lia.
Qed.

Lemma generateRow_total rowKey g :
  exists r g',
    generateRow model colourWeights favourites rowKey g = Some (r, g')
    /\ TileRow.key r = rowKey
    /\ List.length (TileRow.columns r) = Z.to_nat (columnCount model)
    /\ Forall (fun t => Tile.row t = rowKey
                        /\ (1 <= Tile.key t <= columnCount model)%Z)
         (TileRow.columns r).
Proof.
  unfold generateRow.
  pose proof (colourSupplier_not_nil model colourWeights favourites
                someColour someGroup g) as Hne.
  destruct (colourSupplier model colourWeights favourites g) as [colours g1].
  simpl in Hne.
  destruct (fillRow_total model colours rowKey Hne (Z.to_nat (columnCount model))
              0%Z Dispenser.init g1 (inGroup_init colours)) as (row & g2 & E).
  rewrite E. exists (TileRow.mk rowKey (rotate row (rotation model))), g2.
  apply fillRow_shape in E. destruct E as [Hlen Hnth].
  split; [reflexivity|]. split; [reflexivity|]. simpl.
  split; [rewrite rotate_length; exact Hlen|].
  apply (Permutation_Forall (Permutation_sym (rotate_perm _ row (rotation model)))).
  apply Forall_forall. intros t Hin.
  apply In_nth_error in Hin. destruct Hin as [j Hj].
  assert (Hlt : (j < Z.to_nat (columnCount model))%nat).
  { rewrite <- Hlen. apply nth_error_Some. congruence. }
  destruct (Hnth j Hlt) as [colour Hc]. rewrite Hc in Hj.
  inversion Hj; subst t. simpl. split; [reflexivity|].
  apply columnKey_range, Hlt.
Qed.

Lemma yieldRows_total :
  forall n i g,
    exists rows,
      yieldRows model colourWeights favourites n i g = Some rows
      /\ List.length rows = n
      /\ Forall (fun r =>
                   (i - Z.of_nat n < TileRow.key r <= i)%Z
                   /\ List.length (TileRow.columns r) = Z.to_nat (columnCount model)
                   /\ Forall (fun t => Tile.row t = TileRow.key r
                                       /\ (1 <= Tile.key t <= columnCount model)%Z)
                        (TileRow.columns r)) rows.
Proof.
  induction n as [|n IH]; intros i g; cbn [yieldRows].
  - exists []. repeat split. constructor.
  - destruct (generateRow_total i g) as (r & g1 & -> & Hkey & Hlen & Htiles).
    destruct (IH (i - 1)%Z g1) as (rows & -> & Hn & Hrows).
    exists (r :: rows). split; [reflexivity|]. split; [simpl; congruence|].
    constructor.
    + rewrite Hkey. split; [lia|]. split; [exact Hlen|exact Htiles].
    + eapply Forall_impl; [|exact Hrows]. cbv beta.
      intros r' (Hk & Hl & Ht). split; [lia|]. split; assumption.
Qed.

End PatternShape.

(** C9, as amended. For every parameters record with a positive group size,
    counts that are not negative, a rotation that is not negative (so in
    particular for 0 <= rotation < columnCount) and at least one enabled
    colour that is a favourite or is not named [__proto__], the pattern
    generator returns exactly rowCount rows of exactly columnCount tiles
    each, and every tile's row is in [1, rowCount] and its key in
    [1, columnCount]. *)
Theorem generateRows_shape :
  forall (SR : SeedRandom) (model : TileParametersModel),
    (0 <= rowCount model)%Z -> (0 <= columnCount model)%Z ->
    (0 <= rotation model)%Z -> (1 <= groupSize model)%Z ->
    (exists c, In c (enabledColours model)
               /\ (favourite c = true \/ name c <> "__proto__"%string)) ->
    exists rows : list TileRow.t,
      generateRows model = Some rows
      /\ Z.of_nat (List.length rows) = rowCount model
      /\ Forall (fun r =>
                   Z.of_nat (List.length (TileRow.columns r)) = columnCount model
                   /\ Forall (fun t => (1 <= Tile.row t <= rowCount model)%Z
                                       /\ (1 <= Tile.key t <= columnCount model)%Z)
                        (TileRow.columns r)) rows.
Proof.
  intros SR model Hrows Hcols Hrot Hgroup Hcolours.
  rewrite generate_rev.
  destruct (yieldRows_total model (colourWeightsOf model) (favouritesOf model)
              (palette_not_nil model Hcolours) Hgroup Hrot
              (Z.to_nat (rowCount model)) (rowCount model)
              (seedrandom (seed model))) as (ys & -> & Hlen & Hys).
  exists (rev ys). simpl. split; [reflexivity|].
  split; [rewrite length_rev; lia|].
  apply Forall_rev. eapply Forall_impl; [|exact Hys]. cbv beta.
  intros r (Hk & Hl & Ht). split; [lia|].
  eapply Forall_impl; [|exact Ht]. cbv beta. intros t [Hr Hkey].
  split; [lia|exact Hkey].
Qed.

Lemma generateRows_shape_witness :
  exists rows : list TileRow.t,
    @generateRows scripted Sample.defaultParams = Some rows
    /\ Z.of_nat (List.length rows) = 8%Z
    /\ Forall (fun r =>
                 Z.of_nat (List.length (TileRow.columns r)) = 34%Z
                 /\ Forall (fun t => (1 <= Tile.row t <= 8)%Z
                                     /\ (1 <= Tile.key t <= 34)%Z)
                      (TileRow.columns r)) rows.
Proof.
  apply (generateRows_shape scripted Sample.defaultParams).
  - vm_compute. discriminate.
  - vm_compute. discriminate.
  - vm_compute. discriminate.
  - vm_compute. discriminate.
  - exists (mkColour "cherry" "#8b314d" "C" true 5 false).
    split; [simpl; auto|]. right. discriminate.
Defined.

(** C9, as stated, fails: with rotation 0 below columnCount 3 and two rows
    asked for, the generator throws when the only enabled colour is named
    [__proto__] (no key of [colourWeights] comes of it), and when no colour
    is enabled. *)
Lemma generateRows_throws_without_usable_colour :
  (rotation Sample.protoOnly < columnCount Sample.protoOnly)%Z
  /\ @generateRows scripted Sample.protoOnly = None
  /\ (rotation Sample.noColours < columnCount Sample.noColours)%Z
  /\ @generateRows scripted Sample.noColours = None.
Proof.
  split; [reflexivity|]. split; [vm_compute; reflexivity|].
  split; [reflexivity|]. vm_compute. reflexivity.
Qed.

(** ** Determinism *)

Lemma colourWeights_of_entries (l : list ColourSpec) :
  forall o : JSObject.t Z,
    fold_left
      (fun o colour =>
         if String.eqb (name colour) "__proto__" then o
         else JSObject.set o (name colour) (weight colour)) l o
    = fold_left
        (fun o (e : string * Z * bool) =>
           if String.eqb (fst (fst e)) "__proto__" then o
           else JSObject.set o (fst (fst e)) (snd (fst e)))
        (map (fun c => (name c, weight c, favourite c)) l) o.
Proof.
  induction l as [|c l IH]; intros o; simpl; [reflexivity|]. apply IH.
Qed.

Lemma favourites_of_entries (l : list ColourSpec) :
  map name (filter favourite l)
  = map (fun e : string * Z * bool => fst (fst e))
      (filter (fun e : string * Z * bool => snd e)
         (map (fun c => (name c, weight c, favourite c)) l)).
Proof.
  induction l as [|c l IH]; simpl; [reflexivity|].
  destruct (favourite c); simpl; rewrite IH; reflexivity.
Qed.

Lemma sameGeneration_refl a : sameGeneration a a.
Proof. unfold sameGeneration. repeat split. Qed.

(** C6. Two calls of the pattern generator with identical inputs - indeed
    with any two parameters records that agree on the seed, the counts,
    complexity, group size, rotation and the enabled colours' names, weights
    and favourite marks - return identical sequences of rows: the same
    colours, the same row and column keys, in the same order, or fail alike. *)
Theorem generateRows_deterministic :
  forall (SR : SeedRandom) (a b : TileParametersModel),
    sameGeneration a b -> generateRows a = generateRows b.
Proof.
  intros SR a b (Hseed & Hrows & Hcols & Hcomplexity & Hgroup & Hrot & Hcolours).
  rewrite !generate_rev.
  assert (Hw : colourWeightsOf a = colourWeightsOf b).
  { unfold colourWeightsOf. rewrite !colourWeights_of_entries, Hcolours. reflexivity. }
  assert (Hf : favouritesOf a = favouritesOf b).
  { unfold favouritesOf. rewrite !favourites_of_entries, Hcolours. reflexivity. }
  rewrite Hw, Hf, Hseed, Hrows.
  rewrite (yieldRows_ext a b) by (repeat split; assumption).
  reflexivity.
Qed.

Lemma generateRows_deterministic_witness :
  @generateRows scripted Sample.defaultParams = @generateRows scripted Sample.holed.
Proof.
  apply (generateRows_deterministic scripted Sample.defaultParams Sample.holed).
  vm_compute. repeat split.
Defined.

(** ** Complexity 1 *)

Section Draws.
Context {SR : SeedRandom}.

Lemma weighKeys_draws weigh :
  forall items g,
    snd (Randomizer.weighKeys weigh items g)
    = Nat.iter (List.length items) (fun g => snd (prng_double g)) g.
Proof.
  induction items as [|item items IH]; intros g; [reflexivity|].
  cbn [Randomizer.weighKeys List.length]. unfold Randomizer.next.
  rewrite Nat.iter_succ_r.
  destruct (prng_double g) as [d g1]. specialize (IH g1).
  destruct (Randomizer.weighKeys weigh items g1) as [keyed g2].
  exact IH.
Qed.

(** A weighted shuffle draws one real per item. *)
Lemma weightedShuffle_draws items weights g :
  snd (Randomizer.weightedShuffle items weights g)
  = Nat.iter (List.length items) (fun g => snd (prng_double g)) g.
Proof.
  unfold Randomizer.weightedShuffle.
  match goal with
  | |- context [Randomizer.weighKeys ?w items g] =>
      rewrite <- (weighKeys_draws w items g);
      destruct (Randomizer.weighKeys w items g)
  end.
  reflexivity.
Qed.

End Draws.

(** C10. With complexity 1 the duplicate count is 0 whatever is drawn, so a
    row's palette is its base palette, and yet the generator is advanced by
    the one integer draw of the duplicate count and by one real draw per
    palette colour of the weighted shuffle. So patterns may differ from those
    of complexity 0: under the scripted generator the default parameters
    (seed Oceani, complexity 1) give another pattern than the same parameters
    with complexity 0. *)
Theorem complexity_one_consumes_draws :
  (forall (model : TileParametersModel) (n : Z),
      JS.toIndex
        (match JS.rem n (complexity (withComplexity model 1)) with
         | Some m => JS.rem m (groupSize model)
         | None => None
         end) = 0%Z)
  /\ (forall (SR : SeedRandom) (model : TileParametersModel)
             (colourWeights : JSObject.t Z) (favourites : list string) (g : PRNG),
         colourSupplier (withComplexity model 1) colourWeights favourites g
         = (fst (baseColourSupplier model colourWeights favourites g),
            Nat.iter
              (List.length (fst (baseColourSupplier model colourWeights favourites g)))
              (fun g => snd (prng_double g))
              (snd (prng_int32
                      (snd (baseColourSupplier model colourWeights favourites g))))))
  /\ (exists (SR : SeedRandom) (model : TileParametersModel),
         complexity model = 1%Z
         /\ generateRows model <> generateRows (withComplexity model 0)).
Proof.
  split; [|split].
  - intros model n. cbn [complexity withComplexity]. unfold JS.rem.
    cbn [Z.eqb]. rewrite Z.rem_1_r.
    destruct (groupSize model =? 0)%Z; reflexivity.
  - intros SR model cw favs g. unfold colourSupplier.
    cbn [complexity withComplexity]. cbn [Z.ltb Z.compare].
    change (baseColourSupplier (withComplexity model 1) cw favs g)
      with (baseColourSupplier model cw favs g).
    destruct (baseColourSupplier model cw favs g) as [result g1]. cbn [fst snd].
    unfold Randomizer.nextInt.
    destruct (prng_int32 g1) as [v g2]. cbn [snd].
    pose proof (weightedShuffle_draws result cw g2) as Hd.
    destruct (Randomizer.weightedShuffle result cw g2) as [sorted g3].
    cbn [snd] in Hd. rewrite Hd. f_equal.
    unfold JS.rem. cbn [Z.eqb]. rewrite Z.rem_1_r.
    cbn [groupSize withComplexity].
    destruct (groupSize model =? 0)%Z; unfold JS.slice0; simpl; apply app_nil_r.
  - exists scripted, Sample.defaultParams. split; [reflexivity|].
    vm_compute. discriminate.
Qed.

(** ** The seam between two groups *)

(** C4: the code on a palette with a duplicate. Fed A, B, A and the draws
    1, 0, 0, 1, the dispenser hands out the group B, A, A and then starts the
    next group with A again: the shuffle gives A, A, B, its first colour is
    moved to the back, and the new first colour is the other A. The pattern
    generator feeds such a palette when complexity is 2. *)
Theorem dispenser_seam_repeats_duplicate :
  option_map (fun out => fst (fst out))
    (@dispense scripted ["A"; "B"; "A"]%string 4 Dispenser.init (scriptOf "1001"))
  = Some ["B"; "A"; "A"; "A"]%string
  /\ fst (@colourSupplier scripted Sample.duplicated
            (colourWeightsOf Sample.duplicated) (favouritesOf Sample.duplicated)
            (scriptOf "01901001"))
     = ["A"; "B"; "A"]%string
  /\ option_map (map rowColours) (@generateRows scripted Sample.duplicated)
     = Some [["B"; "A"; "A"; "A"]%string].
Proof.
  split; [vm_compute; reflexivity|].
  split; vm_compute; reflexivity.
Qed.

Lemma sameColour_iff a b : sameColour a b = true <-> a = b.
Proof.
  destruct a as [s|], b as [s'|]; simpl; try (split; congruence).
  rewrite String.eqb_eq. split; congruence.
Qed.

(** When the colours are all different and at least two, a new group never
    starts with the colour dispensed last. *)
Theorem new_group_starts_with_other_colour :
  forall (SR : SeedRandom) (colours : list string) (st : Dispenser.t) (g : PRNG)
         (c : string) (st' : Dispenser.t) (g' : PRNG),
    NoDup colours -> (2 <= List.length colours)%nat ->
    Z.rem (Dispenser.i st) (Z.of_nat (List.length colours)) = 0%Z ->
    colourDispenser colours st g = Some (c, st', g') ->
    Dispenser.lastColour st <> Some c.
Proof.
  intros SR colours st g c st' g' Hnd Hlen Hrem H.
  unfold colourDispenser, JS.rem in H.
  destruct (Z.of_nat (List.length colours) =? 0)%Z eqn:Ez;
    [apply Z.eqb_eq in Ez; lia|].
  rewrite Hrem in H.
  pose proof (shuffle_perm _ colours g) as Hp.
  destruct (Randomizer.shuffle colours g) as [grp g1]. cbn [fst] in Hp.
  assert (Hnd' : NoDup grp)
    by (apply (Permutation_NoDup (Permutation_sym Hp)), Hnd).
  apply Permutation_length in Hp.
  destruct grp as [|a [|b rest]]; try (simpl in Hp; lia).
  cbn [hd_error] in H.
  destruct (sameColour (Some a) (Dispenser.lastColour st)) eqn:E.
  - apply sameColour_iff in E. rewrite <- E.
    unfold JS.splice1 in H. simpl in H. inversion H; subst c.
    inversion Hnd' as [|? ? Hnotin _]. intros Heq. apply Hnotin.
    inversion Heq. left. reflexivity.
  - inversion H; subst c. intros Heq.
    rewrite Heq in E. assert (T : sameColour (Some a) (Some a) = true)
      by (apply sameColour_iff; reflexivity).
    congruence.
Qed.

Lemma new_group_starts_with_other_colour_witness :
  Dispenser.lastColour (Dispenser.mk 2 [] (Some "A"%string)) <> Some "B"%string.
Proof.
  apply (new_group_starts_with_other_colour scripted ["A"; "B"]%string
           (Dispenser.mk 2 [] (Some "A"%string)) [0%Z]
           "B"%string (Dispenser.mk 3 ["A"%string] (Some "B"%string)) []).
  - repeat constructor; simpl; intuition discriminate.
  - simpl. lia.
  - reflexivity.
  - vm_compute. reflexivity.
Defined.

(** ** Groups *)

Section GroupFacts.
Context {SR : SeedRandom}.
Variable colours : list string.

(** Inside a group the dispenser hands out what is left of it, in order,
    without drawing. *)
Lemma dispense_rest_of_group :
  forall (rest : list string) (i : Z) (last : option string) (g : PRNG),
    (0 <= i)%Z ->
    (rest <> [] ->
     (Z.rem i (Z.of_nat (List.length colours)) + Z.of_nat (List.length rest)
      = Z.of_nat (List.length colours))%Z
     /\ Z.rem i (Z.of_nat (List.length colours)) <> 0%Z) ->
    exists last',
      dispense colours (List.length rest) (Dispenser.mk i rest last) g
      = Some (rest, Dispenser.mk (i + Z.of_nat (List.length rest)) [] last', g).
Proof.
  induction rest as [|a rest IH]; intros i last g Hi H.
  - exists last. simpl. rewrite Z.add_0_r. reflexivity.
  - destruct H as [Hsum Hr]; [discriminate|]. cbn [List.length] in Hsum.
    assert (Hc : (0 < Z.of_nat (List.length colours))%Z).
    { destruct colours as [|c0 cs]; [|simpl; lia].
      destruct i; simpl in Hsum; lia. }
    pose proof (rem_succ i _ _ Hi Hc eq_refl) as Hs.
    assert (Hnext : rest <> [] ->
              (Z.rem (i + 1) (Z.of_nat (List.length colours))
               + Z.of_nat (List.length rest) = Z.of_nat (List.length colours))%Z
              /\ Z.rem (i + 1) (Z.of_nat (List.length colours)) <> 0%Z).
    { intros Hne. rewrite Hs.
      destruct (_ + 1 =? _)%Z eqn:E;
        [apply Z.eqb_eq in E | apply Z.eqb_neq in E].
      - destruct rest; [congruence | simpl in Hsum; lia].
      - pose proof (Z.rem_nonneg i (Z.of_nat (List.length colours))). lia. }
    destruct (IH (i + 1)%Z (Some a) g) as [last' Hrest]; [lia | exact Hnext |].
    exists last'.
    cbn [dispense List.length].
    unfold colourDispenser at 1.
    cbn [Dispenser.i Dispenser.group Dispenser.lastColour].
    unfold JS.rem.
    destruct (Z.of_nat (List.length colours) =? 0)%Z eqn:Ez;
      [apply Z.eqb_eq in Ez; lia|].
    destruct (Z.rem i (Z.of_nat (List.length colours))) eqn:Er; [congruence| |];
      rewrite Hrest; do 4 f_equal; lia.
Qed.

(** At the start of a group the dispenser hands out, over the next
    [colourCount] turns, the colours of the list in some order, and stands at
    the start of a group again. *)
Theorem dispensed_group_is_permutation :
  forall (st : Dispenser.t) (g : PRNG),
    colours <> [] ->
    (0 <= Dispenser.i st)%Z ->
    Z.rem (Dispenser.i st) (Z.of_nat (List.length colours)) = 0%Z ->
    exists group st' g',
      dispense colours (List.length colours) st g = Some (group, st', g')
      /\ Permutation group colours
      /\ Dispenser.i st' = (Dispenser.i st + Z.of_nat (List.length colours))%Z
      /\ Z.rem (Dispenser.i st') (Z.of_nat (List.length colours)) = 0%Z.
Proof.
  intros st g Hne Hi Hrem.
  assert (Hc : (0 < Z.of_nat (List.length colours))%Z).
  { destruct colours; [congruence | simpl; lia]. }
  destruct (let colourCount := Z.of_nat (List.length colours) in
   match JS.rem (Dispenser.i st) colourCount with
   | Some 0%Z =>
       let (group, g') := Randomizer.shuffle colours g in
       if sameColour (hd_error group) (Dispenser.lastColour st) then
         let (colour, group') := JS.splice1 group 0 in (group' ++ colour, g')
       else (group, g')
   | _ => (Dispenser.group st, g)
   end) as [group g1] eqn:E.
  pose proof (colourDispenser_some _ _ _ _ _ E) as Hstep.
  cbv zeta in E. unfold JS.rem in E.
  destruct (Z.of_nat (List.length colours) =? 0)%Z eqn:Ez;
    [apply Z.eqb_eq in Ez; lia|].
  rewrite Hrem in E.
  assert (Hp : Permutation group colours).
  { pose proof (shuffle_perm _ colours g) as Hp.
    destruct (Randomizer.shuffle colours g) as [grp g2]. cbn [fst] in Hp.
    destruct (sameColour (hd_error grp) (Dispenser.lastColour st)).
    - pose proof (splice1_perm _ grp 0) as Hs.
      destruct (JS.splice1 grp 0) as [colour grp']. cbn [fst snd] in Hs.
      inversion E; subst. rewrite Permutation_app_comm, Hs. exact Hp.
    - inversion E; subst. exact Hp. }
  pose proof (Permutation_length Hp) as Hlen.
  destruct group as [|a rest]; [simpl in Hlen; lia|].
  pose proof (rem_succ (Dispenser.i st) _ _ Hi Hc Hrem) as Hs.
  destruct (dispense_rest_of_group rest (Dispenser.i st + 1)%Z (Some a) g1)
    as [last' Hrest].
  - lia.
  - intros Hne'. rewrite Hs. simpl in Hlen.
    destruct (0 + 1 =? _)%Z eqn:E1;
      [apply Z.eqb_eq in E1 | apply Z.eqb_neq in E1].
    + destruct rest; [congruence | simpl in Hlen; lia].
    + lia.
  - rewrite <- Hlen. cbn [dispense List.length]. rewrite Hstep, Hrest.
    eexists _, _, _. split; [reflexivity|]. split; [exact Hp|].
    cbn [Dispenser.i].
    assert (Hi' : (Dispenser.i st + 1 + Z.of_nat (List.length rest)
                   = Dispenser.i st + 1 * Z.of_nat (List.length colours))%Z)
      by (cbn [List.length] in Hlen; lia).
    split; [lia|]. rewrite Hi'.
    change (S (List.length rest)) with (List.length (a :: rest)). rewrite Hlen.
    rewrite Z.rem_mod_nonneg in Hrem |- * by lia.
    rewrite Z.mod_add by lia. exact Hrem.
Qed.

End GroupFacts.

Lemma dispensed_group_is_permutation_witness :
  exists group st' g',
    @dispense scripted ["A"; "B"; "C"]%string 3 Dispenser.init [1%Z; 1%Z]
    = Some (group, st', g')
    /\ Permutation group ["A"; "B"; "C"]%string
    /\ Dispenser.i st' = (0 + 3)%Z
    /\ Z.rem (Dispenser.i st') 3 = 0%Z.
Proof.
  apply (@dispensed_group_is_permutation scripted ["A"; "B"; "C"]%string
           Dispenser.init [1%Z; 1%Z]).
  - discriminate.
  - simpl. lia.
  - reflexivity.
Defined.

(** ** Favourites *)

(** When the group size is at least the number of favourites, every
    favourite colour is in every row's palette. *)
Theorem favourites_in_palette :
  forall (SR : SeedRandom) (model : TileParametersModel)
         (colourWeights : JSObject.t Z) (favourites : list string) (g : PRNG)
         (colour : string),
    (Z.of_nat (List.length favourites) <= groupSize model)%Z ->
    In colour favourites ->
    In colour (fst (colourSupplier model colourWeights favourites g)).
Proof.
  intros SR model cw favs g colour Hsize Hin.
  assert (Hbase : In colour (fst (baseColourSupplier model cw favs g))).
  { unfold baseColourSupplier.
    pose proof (shuffle_perm _ favs g) as Hp.
    destruct (Randomizer.shuffle favs g) as [shuffled g1]. cbn [fst] in Hp.
    destruct (Randomizer.shuffle _ g1) as [others g2]. cbn [fst].
    unfold JS.slice0, JS.toIndex, JS.clamp.
    pose proof (Permutation_length Hp) as Hlen.
    destruct (groupSize model <? 0)%Z eqn:E; [apply Z.ltb_lt in E; lia|].
    rewrite firstn_app. apply in_or_app. left.
    rewrite firstn_all2.
    - apply (Permutation_in _ (Permutation_sym Hp)), Hin.
    - rewrite length_app. lia. }
  unfold colourSupplier. destruct (0 <? complexity model)%Z; [|exact Hbase].
  destruct (baseColourSupplier model cw favs g) as [result g1].
  destruct (Randomizer.nextInt g1) as [n g2].
  destruct (Randomizer.weightedShuffle result cw g2) as [sorted g3].
  cbn [fst] in *. apply in_or_app. left. exact Hbase.
Qed.

Lemma favourites_in_palette_witness :
  In "pearl"%string
    (fst (@colourSupplier scripted Sample.defaultParams
            (colourWeightsOf Sample.defaultParams)
            (favouritesOf Sample.defaultParams) (scriptOf "Oceani"))).
Proof.
  apply (favourites_in_palette scripted Sample.defaultParams
           (colourWeightsOf Sample.defaultParams)
           (favouritesOf Sample.defaultParams) (scriptOf "Oceani") "pearl"%string).
  - vm_compute. discriminate.
  - vm_compute. left. reflexivity.
Defined.

(** ** The parameters reducer *)

Local Open Scope Z_scope.

Lemma isEqual_orientation a b : IsEqual.orientation a b = true <-> a = b.
Proof. destruct a, b; simpl; split; congruence. Qed.

Lemma isEqual_stepDirection a b : IsEqual.stepDirection a b = true <-> a = b.
Proof. destruct a, b; simpl; split; congruence. Qed.

Lemma isEqual_region a b : IsEqual.region a b = true <-> a = b.
Proof.
  destruct a, b; unfold IsEqual.region; simpl.
  rewrite !andb_true_iff, !Z.eqb_eq. split.
  - intros [[[-> ->] ->] ->]. reflexivity.
  - intros H; injection H; auto.
Qed.

Lemma isEqual_colourSpec a b : IsEqual.colourSpec a b = true <-> a = b.
Proof.
  destruct a, b; unfold IsEqual.colourSpec; simpl.
  rewrite !andb_true_iff, !String.eqb_eq, !Z.eqb_eq, !Bool.eqb_true_iff. split.
  - intros [[[[[-> ->] ->] ->] ->] ->]. reflexivity.
  - intros H; injection H; intros; subst; auto 10.
Qed.

Lemma isEqual_array (T : Type) (eqb : T -> T -> bool) :
  (forall x y, eqb x y = true <-> x = y) ->
  forall a b, IsEqual.array eqb a b = true <-> a = b.
Proof.
  intros Heq. induction a as [|x a IH]; destruct b as [|y b]; simpl;
    try (split; congruence).
  rewrite andb_true_iff, Heq, IH. split.
  - intros [-> ->]. reflexivity.
  - intros H; injection H; auto.
Qed.

(** [isEqual] holds exactly when writing the value changes nothing. *)
Lemma isCurrent_iff params action :
  isCurrent params action = true <-> withParam params action = params.
Proof.
  destruct params, action; unfold withParam, withRowCount, withComplexity,
    withOffset, withGroupSize, withHoles; simpl;
    rewrite ?String.eqb_eq, ?Z.eqb_eq, ?Bool.eqb_true_iff,
      ?isEqual_orientation, ?isEqual_stepDirection,
      ?(isEqual_array _ _ isEqual_region), ?(isEqual_array _ _ isEqual_colourSpec);
    (split; [intros <-; reflexivity | intros H; injection H; auto]).
Qed.

Lemma isCurrent_withParam params action :
  isCurrent (withParam params action) action = true.
Proof.
  apply isCurrent_iff. destruct params, action; reflexivity.
Qed.

(** The value a [set] action leaves behind. *)
Lemma paramsReducer_set params action :
  paramsReducer params (ActSet action) = withParam params action.
Proof.
  unfold paramsReducer. destruct (isCurrent params action) eqn:Hcur.
  - symmetry. now apply isCurrent_iff.
  - destruct action; try reflexivity.
    destruct (enabledCount value =? groupSize params) eqn:Hn; [|reflexivity].
    apply Z.eqb_eq in Hn. rewrite Hn. destruct params; reflexivity.
Qed.

(** X7: dispatching the same [set] action a second time changes nothing. *)
Theorem set_twice_is_set_once :
  forall params action,
    paramsReducer (paramsReducer params (ActSet action)) (ActSet action)
    = paramsReducer params (ActSet action).
Proof.
  intros params action. rewrite (paramsReducer_set params).
  unfold paramsReducer at 1. now rewrite isCurrent_withParam.
Qed.

(** X8: setting the colour model stores the given model and leaves the group
    size as it was, whatever the number of enabled colours: the side effect
    on [groupSize] never changes it. *)
Theorem set_colourModel_keeps_groupSize :
  forall params value,
    let after := paramsReducer params (ActSet (SetColourModel value)) in
    colourModel after = value
    /\ groupSize after = groupSize params
    /\ holes after = holes params
    /\ seed after = seed params.
Proof.
  intros params value after. subst after. rewrite paramsReducer_set.
  destruct params; simpl. auto.
Qed.

(** X9: a [set-colour-palette] action is the [set] of the grout followed by
    the [set] of the colour model. *)
Theorem set_colour_palette_is_two_sets :
  forall params palette,
    paramsReducer params (ActSetColourPalette palette)
    = paramsReducer
        (paramsReducer params (ActSet (SetGrout (p_grout palette))))
        (ActSet (SetColourModel (p_colourModel palette))).
Proof.
  intros params palette. now rewrite !paramsReducer_set.
Qed.

Lemma isInHole_false row column model :
  isInHole row column model = false <->
  forall hole, In hole (holes model) -> _isInHole row column hole = false.
Proof.
  unfold isInHole. split.
  - intros H hole Hin. destruct (_isInHole row column hole) eqn:E; [|reflexivity].
    assert (existsb (_isInHole row column) (holes model) = true)
      by (apply existsb_exists; eauto).
    congruence.
  - intros H. destruct (existsb _ _) eqn:E; [|reflexivity].
    apply existsb_exists in E as [hole [Hin Hc]]. rewrite (H _ Hin) in Hc.
    discriminate.
Qed.

Lemma filter_all (T : Type) (f : T -> bool) (l : list T) :
  (forall x, In x l -> f x = true) -> filter f l = l.
Proof.
  induction l as [|x l IH]; simpl; intros H; [reflexivity|].
  rewrite (H x) by auto. f_equal. apply IH. auto.
Qed.

(** X10: after [remove-hole] at a cell the cell is in no hole; the holes
    that remain are the former holes that do not contain the cell, so no
    cell enters a hole, and a cell that leaves one shared it with the
    removed cell. *)
Theorem remove_hole_clears_cell :
  forall params row column,
    let after := paramsReducer params (ActRemoveHole row column) in
    isInHole row column after = false
    /\ (forall hole, In hole (holes after) <->
                     In hole (holes params) /\ _isInHole row column hole = false)
    /\ (forall r c, isInHole r c after = true -> isInHole r c params = true)
    /\ (forall r c, isInHole r c params = true -> isInHole r c after = false ->
          exists hole, In hole (holes params)
                       /\ _isInHole r c hole = true
                       /\ _isInHole row column hole = true).
Proof.
  intros params row column after.
  assert (Hholes : forall hole, In hole (holes after) <->
            In hole (holes params) /\ _isInHole row column hole = false).
  { intros hole. subst after. destruct params; simpl.
    rewrite filter_In, negb_true_iff. reflexivity. }
  split; [|split; [exact Hholes|split]].
  - apply isInHole_false. intros hole Hin. now apply Hholes in Hin.
  - intros r c H. unfold isInHole in *.
    apply existsb_exists in H as [hole [Hin Hc]]. apply Hholes in Hin.
    apply existsb_exists. exists hole. tauto.
  - intros r c Hbefore Hafter. unfold isInHole in Hbefore.
    apply existsb_exists in Hbefore as [hole [Hin Hc]].
    exists hole. split; [exact Hin|split; [exact Hc|]].
    destruct (_isInHole row column hole) eqn:E; [reflexivity|].
    rewrite isInHole_false in Hafter.
    rewrite (Hafter hole) in Hc; [discriminate|]. apply Hholes. auto.
Qed.

(** X11: the hole made from a selection contains every cell between the
    anchor and the head, whichever way the selection was dragged; removing
    a hole at one of these cells, none of which was in a hole before, gives
    the parameters back. *)
Theorem selected_hole_round_trip :
  forall params selection hit,
    let a := data (anchor selection) in
    let h := data (head selection) in
    let cell := data hit in
    Z.min (Tile.row a) (Tile.row h) <= Tile.row cell <= Z.max (Tile.row a) (Tile.row h) ->
    Z.min (Tile.key a) (Tile.key h) <= Tile.key cell <= Z.max (Tile.key a) (Tile.key h) ->
    isInHole (Tile.row cell) (Tile.key cell) params = false ->
    let holed := paramsReducer params (onTileSelection selection) in
    isInHole (Tile.row a) (Tile.key a) holed = true
    /\ isInHole (Tile.row h) (Tile.key h) holed = true
    /\ isInHole (Tile.row cell) (Tile.key cell) holed = true
    /\ paramsReducer holed (onHoleRemoval hit) = params.
Proof.
  intros params selection hit a h cell Hrow Hcol Hfree holed.
  assert (Hin : forall r c,
            Z.min (Tile.row a) (Tile.row h) <= r <= Z.max (Tile.row a) (Tile.row h) ->
            Z.min (Tile.key a) (Tile.key h) <= c <= Z.max (Tile.key a) (Tile.key h) ->
            isInHole r c holed = true).
  { intros r c Hr Hc. subst holed. unfold isInHole, onTileSelection. simpl.
    rewrite existsb_app. apply orb_true_iff. right. simpl.
    unfold _isInHole. simpl. fold a h.
    rewrite orb_false_r, !andb_true_iff, !Z.leb_le. lia. }
  split; [apply Hin; lia|]. split; [apply Hin; lia|]. split; [now apply Hin|].
  subst holed. unfold onTileSelection, onHoleRemoval. simpl. fold a h cell.
  rewrite filter_app. simpl.
  replace (_isInHole (Tile.row cell) (Tile.key cell) _) with true.
  - simpl. rewrite app_nil_r, filter_all.
    + destruct params; reflexivity.
    + intros hole Hh. rewrite isInHole_false in Hfree. now rewrite Hfree.
  - symmetry. unfold _isInHole. simpl.
    rewrite !andb_true_iff, !Z.leb_le. lia.
Qed.

Lemma selected_hole_round_trip_witness :
  let selection :=
    mkSelection (mkHit 0 0 (Tile.mk 7 3 "jeans")) (mkHit 0 0 (Tile.mk 5 2 "pearl")) in
  let hit := mkHit 0 0 (Tile.mk 6 3 "smoke") in
  let holed := paramsReducer Sample.defaultParams (onTileSelection selection) in
  isInHole 3 7 holed = true
  /\ isInHole 2 5 holed = true
  /\ isInHole 3 6 holed = true
  /\ paramsReducer holed (onHoleRemoval hit) = Sample.defaultParams.
Proof.
  intros selection hit.
  apply (selected_hole_round_trip Sample.defaultParams selection hit);
    simpl; try lia; reflexivity.
Defined.

(** X12: a hole whose end lies before its start contains no cell: no tile is
    left out of it, and no [remove-hole] action removes it. *)
Theorem reversed_hole_is_never_removed :
  forall params hole,
    endRow hole < startRow hole \/ endColumn hole < startColumn hole ->
    In hole (holes params) ->
    forall row column,
      _isInHole row column hole = false
      /\ In hole (holes (paramsReducer params (ActRemoveHole row column))).
Proof.
  intros params hole Hrev Hin row column.
  assert (Hout : _isInHole row column hole = false).
  { unfold _isInHole. rewrite !andb_false_iff, !Z.leb_gt. lia. }
  split; [exact Hout|]. destruct params; simpl in *.
  apply filter_In. now rewrite Hout.
Qed.

Lemma reversed_hole_is_never_removed_witness :
  _isInHole 3 6 Sample.reversedRows = false
  /\ In Sample.reversedRows
       (holes (paramsReducer
                 (paramsReducer Sample.defaultParams (ActAddHole Sample.reversedRows))
                 (ActRemoveHole 3 6))).
Proof.
  apply (reversed_hole_is_never_removed
           (paramsReducer Sample.defaultParams (ActAddHole Sample.reversedRows))
           Sample.reversedRows).
  - left. simpl. lia.
  - simpl. auto.
Defined.

Local Open Scope Q_scope.

(** ** The colour palette reducer *)

Local Open Scope Z_scope.

Lemma map_flip_twice (l : list ColourSpec) colourName prop :
  map (fun colour =>
         if negb (String.eqb (name colour) colourName) then colour
         else flip colour prop)
    (map (fun colour =>
            if negb (String.eqb (name colour) colourName) then colour
            else flip colour prop) l) = l.
Proof.
  induction l as [|c l IH]; simpl; [reflexivity|]. rewrite IH. f_equal.
  destruct (String.eqb (name c) colourName) eqn:E; simpl.
  - destruct prop; simpl; rewrite E; simpl; rewrite negb_involutive;
      destruct c; reflexivity.
  - now rewrite E.
Qed.

(** X13: toggling a colour, or its favourite mark, twice from the colour
    dialog gives the parameters back. *)
Theorem toggle_twice_restores :
  forall state colourName,
    afterColourAction (afterColourAction state (ToggleColourAction colourName))
      (ToggleColourAction colourName) = state
    /\ afterColourAction (afterColourAction state (ToggleFavouriteAction colourName))
         (ToggleFavouriteAction colourName) = state.
Proof.
  intros state colourName.
  unfold afterColourAction, dispatchColour, paramsReducer, colourPaletteReducer,
    toggle, setColourModel, withParam.
  cbn [p_grout p_colourModel grout colourModel seed orientation rowCount
       columnCount complexity aspectRatio offset stepDirection stepAlternate
       groupSize rotation holes].
  rewrite !map_flip_twice. destruct state; auto.
Qed.

Lemma map_named_sameColoursBut (f : ColourSpec -> ColourSpec) colourName l :
  (forall c, name (f c) = name c) ->
  sameColoursBut colourName l
    (map (fun colour =>
            if negb (String.eqb (name colour) colourName) then colour
            else f colour) l).
Proof.
  intros Hf. split.
  - rewrite map_map. apply map_ext. intros c.
    destruct (negb _); [reflexivity|apply Hf].
  - intros i c Hi Hn. rewrite nth_error_map, Hi. simpl.
    apply String.eqb_neq in Hn. now rewrite Hn.
Qed.

(** X14: [change-colour], [toggle-colour], [toggle-fave] and [weight-colour]
    keep the number, the order and the names of the colours and leave every
    colour with another name as it was; none of the four touches the grout. *)
Theorem in_place_actions_keep_other_colours :
  forall palette colourName hexcode delta,
    let keeps action :=
      sameColoursBut colourName (p_colourModel palette)
        (p_colourModel (colourPaletteReducer palette action))
      /\ p_grout (colourPaletteReducer palette action) = p_grout palette in
    keeps (ChangeColourAction colourName hexcode)
    /\ keeps (ToggleColourAction colourName)
    /\ keeps (ToggleFavouriteAction colourName)
    /\ keeps (WeightColourAction colourName delta).
Proof.
  intros palette colourName hexcode delta keeps. subst keeps. cbv beta.
  unfold colourPaletteReducer, toggle, setColourModel. simpl.
  repeat split;
    try (apply (map_named_sameColoursBut _ colourName (p_colourModel palette));
         intros c; try destruct c; reflexivity);
    try (apply (map_named_sameColoursBut
                  (fun c => flip c _) colourName (p_colourModel palette));
         intros c; reflexivity).
Qed.

(** X15: the reducer keeps the weights within the schema's range 1..9: if
    the weights of the palette and of what the action carries are in range,
    so are the weights afterwards, whatever the delta of a [weight-colour]. *)
Theorem weights_stay_in_range :
  forall palette action,
    weightsInRange (p_colourModel palette) ->
    payloadInRange action ->
    weightsInRange (p_colourModel (colourPaletteReducer palette action)).
Proof.
  intros palette action Hpal Hact. unfold weightsInRange in *.
  destruct action; simpl in *; auto.
  - apply Forall_app. split; [exact Hpal|]. constructor; auto.
  - rewrite Forall_forall in *. intros c Hc. apply filter_In in Hc. apply Hpal, Hc.
  - rewrite Forall_forall in *. intros c Hc. apply in_map_iff in Hc as [c0 [<- Hc0]].
    destruct (negb _); simpl; auto.
  - rewrite Forall_forall in *. intros c Hc. apply in_map_iff in Hc as [c0 [<- Hc0]].
    destruct (negb _); simpl; auto.
  - rewrite Forall_forall in *. intros c Hc. apply in_map_iff in Hc as [c0 [<- Hc0]].
    destruct (negb _); simpl; auto.
  - rewrite Forall_forall in *. intros c Hc. apply in_map_iff in Hc as [c0 [<- Hc0]].
    destruct (negb _); simpl; auto. lia.
Qed.

Lemma weights_stay_in_range_witness :
  weightsInRange
    (p_colourModel
       (colourPaletteReducer (mkPalette "#e8ece4" Sample.defaultColourModel)
          (WeightColourAction "pearl" 7))).
Proof.
  apply (weights_stay_in_range (mkPalette "#e8ece4" Sample.defaultColourModel)
           (WeightColourAction "pearl" 7)).
  - unfold weightsInRange. simpl. repeat constructor; simpl; lia.
  - exact I.
Defined.

(** X16: [delete-colour] removes every colour of the given name and no
    other; deleting a colour that was just added under a name not yet in
    the palette gives the palette back. *)
Theorem add_then_delete_restores :
  forall palette colour,
    ~ In (name colour) (map name (p_colourModel palette)) ->
    let added := colourPaletteReducer palette (AddColourAction colour) in
    let deleted := colourPaletteReducer added (DeleteColourAction (name colour)) in
    In colour (p_colourModel added)
    /\ ~ In (name colour) (map name (p_colourModel deleted))
    /\ deleted = palette.
Proof.
  intros palette colour Hfresh added deleted. subst added deleted.
  destruct palette as [g model]. simpl in *.
  assert (Hkeep : filter (fun c => negb (String.eqb (name c) (name colour))) model
                  = model).
  { apply filter_all. intros c Hc. apply negb_true_iff, String.eqb_neq.
    intros E. apply Hfresh. rewrite <- E. now apply in_map. }
  unfold setColourModel. simpl. rewrite filter_app. simpl.
  rewrite String.eqb_refl. simpl. rewrite app_nil_r, Hkeep.
  split; [apply in_or_app; simpl; auto|]. split; [exact Hfresh|reflexivity].
Qed.

Lemma add_then_delete_restores_witness :
  let palette := mkPalette "#e8ece4" Sample.defaultColourModel in
  let colour := mkColour "teal" "#008080" "T" true 5 false in
  let added := colourPaletteReducer palette (AddColourAction colour) in
  let deleted := colourPaletteReducer added (DeleteColourAction "teal") in
  In colour (p_colourModel added)
  /\ ~ In "teal"%string (map name (p_colourModel deleted))
  /\ deleted = palette.
Proof.
  intros palette colour.
  apply (add_then_delete_restores palette colour).
  simpl. intros H. repeat (destruct H as [H|H]; [discriminate|]). exact H.
Defined.

Local Open Scope Q_scope.

(** ** Magnification of the designer page *)

Lemma clamp_finite_range q :
  (1 <= Qceiling (Qmin (Qmax q (inject_Z 1)) (inject_Z 4000)) <= 4000)%Z.
Proof.
  split.
  - rewrite <- (Qceiling_Z 1) at 1. apply Qceiling_resp_le.
    apply Q.min_glb; [apply Q.le_max_r|]. unfold Qle; simpl; lia.
  - rewrite <- (Qceiling_Z 4000) at 2. apply Qceiling_resp_le. apply Q.le_min_r.
Qed.

Lemma clamp_integer n :
  (1 <= n <= 4000)%Z -> clampMagnification (Finite (inject_Z n)) = n.
Proof.
  intros Hn. unfold clampMagnification, MIN_MAGNIFICATION_PCT, MAX_MAGNIFICATION_PCT.
  rewrite Q.max_l by (rewrite <- Zle_Qle; lia).
  rewrite Q.min_l by (rewrite <- Zle_Qle; lia).
  apply Qceiling_Z.
Qed.

(** X17: [clampMagnification] always gives an integer from 1 to 4000 (100 for
    NaN, the bounds for the infinities), keeps such an integer as it is, and
    so is idempotent. *)
Theorem clampMagnification_range :
  forall magnification,
    (MIN_MAGNIFICATION_PCT <= clampMagnification magnification
       <= MAX_MAGNIFICATION_PCT)%Z
    /\ clampMagnification (Finite (inject_Z (clampMagnification magnification)))
       = clampMagnification magnification
    /\ (forall n : Z,
          (MIN_MAGNIFICATION_PCT <= n <= MAX_MAGNIFICATION_PCT)%Z ->
          clampMagnification (Finite (inject_Z n)) = n).
Proof.
  intros magnification.
  assert (Hrange : (1 <= clampMagnification magnification <= 4000)%Z).
  { destruct magnification; simpl;
      unfold MIN_MAGNIFICATION_PCT, MAX_MAGNIFICATION_PCT; try lia.
    apply clamp_finite_range. }
  unfold MIN_MAGNIFICATION_PCT, MAX_MAGNIFICATION_PCT.
  split; [exact Hrange|]. split; [now apply clamp_integer|].
  intros n Hn. now apply clamp_integer.
Qed.

Lemma Qceiling_half n : Qceiling (inject_Z n / 2) = ((n + 1) / 2)%Z.
Proof.
  unfold Qceiling, Qfloor, Qdiv, Qmult, Qinv, Qopp, inject_Z. simpl.
  rewrite Z.mul_1_r. Z.div_mod_to_equations. lia.
Qed.

(** X18: while the magnification is an integer from 1 to 4000, the zoom
    buttons keep it one: an enabled zoom-in doubles it to at most 3998, an
    enabled zoom-out halves it, rounding up, to at least 1, and neither
    result is changed by [clampMagnification]; zooming out after zooming in
    gives the magnification back. *)
Theorem zoom_buttons_keep_range :
  forall n : Z,
    (MIN_MAGNIFICATION_PCT <= n <= MAX_MAGNIFICATION_PCT)%Z ->
    let magnification := inject_Z n in
    (canZoomIn magnification = true ->
       zoomIn magnification == inject_Z (2 * n)
       /\ clampMagnification (Finite (zoomIn magnification)) = (2 * n)%Z)
    /\ (canZoomOut magnification = true ->
          zoomOut magnification = inject_Z ((n + 1) / 2)
          /\ (1 <= (n + 1) / 2 < n)%Z
          /\ clampMagnification (Finite (zoomOut magnification))
             = ((n + 1) / 2)%Z)
    /\ zoomOut (zoomIn magnification) == magnification.
Proof.
  unfold MIN_MAGNIFICATION_PCT, MAX_MAGNIFICATION_PCT.
  intros n Hn. cbv zeta.
  assert (Hin : zoomIn (inject_Z n) == inject_Z (2 * n)).
  { unfold zoomIn. rewrite inject_Z_mult. change (inject_Z 2) with 2. ring. }
  split; [|split].
  - intros Hcan. unfold canZoomIn in Hcan. apply Qltb_lt in Hcan.
    change 2000 with (inject_Z 2000) in Hcan. rewrite <- Zlt_Qlt in Hcan.
    split; [exact Hin|].
    unfold clampMagnification, MIN_MAGNIFICATION_PCT, MAX_MAGNIFICATION_PCT.
    rewrite Hin. apply (clamp_integer (2 * n)). lia.
  - intros Hcan. unfold canZoomOut in Hcan. apply Qgeb_le in Hcan.
    change 2 with (inject_Z 2) in Hcan. rewrite <- Zle_Qle in Hcan.
    unfold zoomOut. rewrite Qceiling_half.
    split; [reflexivity|].
    split; [|apply clamp_integer]; Z.div_mod_to_equations; lia.
  - unfold zoomOut. rewrite Hin, Qceiling_half.
    replace ((2 * n + 1) / 2)%Z with n by (Z.div_mod_to_equations; lia). reflexivity.
Qed.

Lemma zoom_buttons_keep_range_witness :
  (canZoomIn 100 = true ->
     zoomIn 100 == 200
     /\ clampMagnification (Finite (zoomIn 100)) = 200%Z)
  /\ (canZoomOut 100 = true ->
        zoomOut 100 = 50
        /\ (1 <= 50 < 100)%Z
        /\ clampMagnification (Finite (zoomOut 100)) = 50%Z)
  /\ zoomOut (zoomIn 100) == 100.
Proof.
  apply (zoom_buttons_keep_range 100).
  unfold MIN_MAGNIFICATION_PCT, MAX_MAGNIFICATION_PCT. lia.
Defined.

(** ** The grid without offset, and the export map *)

Lemma cellSize_eq bf mag m :
  TileSize.width (cellSize bf mag m)
  == (if (aspectRatio m <? 0)%Z then basisPx mag
      else basisPx mag * inject_Z (aspectRatio m) * bf)
  /\ TileSize.height (cellSize bf mag m)
     == (if (0 <? aspectRatio m)%Z then basisPx mag
         else - basisPx mag * inject_Z (aspectRatio m) * bf).
Proof.
  unfold cellSize, measure, groutPx. simpl.
  change (inject_Z 1) with 1. change (inject_Z (1 + -1)) with 0.
  split; destruct (_ <? _)%Z; ring.
Qed.

Lemma inject_Z_nonzero z : z <> 0%Z -> ~ inject_Z z == 0.
Proof.
  intros Hz H. unfold Qeq in H. simpl in H. lia.
Qed.

(** X19: on the export map a cell has the short side [basisPx] and the long
    side 1.6667 times that whenever the aspect ratio is above 1 or below -1,
    whatever its magnitude; for the ratios 1 and -1 the cell is a square. *)
Theorem map_cells_have_fixed_proportions :
  forall (magnification : Q) (model : TileParametersModel),
    let size := cellSize (mapBasisFactor model) magnification model in
    let basis := basisPx magnification in
    ((1 < aspectRatio model)%Z ->
       TileSize.width size == (16667 # 10000) * basis
       /\ TileSize.height size == basis)
    /\ ((aspectRatio model < -1)%Z ->
          TileSize.width size == basis
          /\ TileSize.height size == (16667 # 10000) * basis)
    /\ ((aspectRatio model = 1 \/ aspectRatio model = -1)%Z ->
          TileSize.width size == basis /\ TileSize.height size == basis).
Proof.
  intros magnification model size basis. subst size basis.
  destruct (cellSize_eq (mapBasisFactor model) magnification model) as [Hw Hh].
  rewrite Hw, Hh. clear Hw Hh. unfold mapBasisFactor.
  split; [|split].
  - intros Har.
    destruct (aspectRatio model <? 0)%Z eqn:E1; [apply Z.ltb_lt in E1; lia|].
    destruct (0 <? aspectRatio model)%Z eqn:E2; [|apply Z.ltb_ge in E2; lia].
    destruct (1 <? aspectRatio model)%Z eqn:E3; [|apply Z.ltb_ge in E3; lia].
    split; [|reflexivity]. field. apply inject_Z_nonzero. lia.
  - intros Har.
    destruct (aspectRatio model <? 0)%Z eqn:E1; [|apply Z.ltb_ge in E1; lia].
    destruct (0 <? aspectRatio model)%Z eqn:E2; [apply Z.ltb_lt in E2; lia|].
    destruct (1 <? aspectRatio model)%Z eqn:E3; [apply Z.ltb_lt in E3; lia|].
    destruct (aspectRatio model <? -1)%Z eqn:E4; [|apply Z.ltb_ge in E4; lia].
    split; [reflexivity|]. field. apply inject_Z_nonzero. lia.
  - intros [Har|Har]; rewrite Har; simpl; split; try reflexivity;
      change (inject_Z 1) with 1; change (inject_Z (-1)%Z) with (-(1)); ring.
Qed.

(** ** Tiles on the grid *)

Section Grid.
Variables basisFactor magnification : Q.
Variable model : TileParametersModel.
Hypothesis noOffset : (offset model <= 1)%Z.

(** The edges of a tile in terms of the cell size. *)
Lemma tile_edges row column :
  let w := TileSize.width (cellSize basisFactor magnification model) in
  let h := TileSize.height (cellSize basisFactor magnification model) in
  let tile := locateCell basisFactor magnification model row column true in
  TileRect.left tile == inject_Z column * w - w + inject_Z column * 2
  /\ TileRect.right tile == inject_Z column * w + inject_Z column * 2
  /\ TileRect.top tile == inject_Z row * h - h + inject_Z row * 2
  /\ TileRect.bottom tile == inject_Z row * h + inject_Z row * 2.
Proof.
  cbv zeta. rewrite (locateCell_no_offset basisFactor magnification model) by exact noOffset.
  unfold TileRect.left, TileRect.right, TileRect.top, TileRect.bottom, groutPx.
  cbn [TileRect.x TileRect.y TileRect.width TileRect.height].
  unfold Z.sub. rewrite !inject_Z_plus. change (inject_Z (Z.opp 1)) with (-(1)).
  split; [ring|]. split; [ring|]. split; ring.
Qed.

Lemma canvas_edges :
  let w := TileSize.width (cellSize basisFactor magnification model) in
  let h := TileSize.height (cellSize basisFactor magnification model) in
  let full := measure basisFactor magnification model
                (rowCount model) (columnCount model) false in
  TileSize.width full
  == inject_Z (columnCount model) * w + inject_Z (columnCount model) * 2 + 2
  /\ TileSize.height full
     == inject_Z (rowCount model) * h + inject_Z (rowCount model) * 2 + 2.
Proof.
  cbv zeta. destruct (cellSize_eq basisFactor magnification model) as [Hw Hh].
  rewrite Hw, Hh. unfold measure, groutPx. cbn [TileSize.width TileSize.height].
  rewrite !inject_Z_plus. change (inject_Z 1) with 1.
  split; [destruct (aspectRatio model <? 0)%Z|destruct (0 <? aspectRatio model)%Z];
    ring.
Qed.

Lemma cells_scale (a b : Z) (size : Q) :
  (a <= b)%Z -> 0 <= size -> inject_Z a * size <= inject_Z b * size.
Proof.
  intros Hab Hs. apply Qmult_le_compat_r; [|exact Hs]. now rewrite <- Zle_Qle.
Qed.

End Grid.

Lemma locateTile_edges bf mag m row column :
  let tile := locateTile bf mag m row column in
  let cell := locateCell bf mag m row column true in
  TileRect.left tile == TileRect.left cell
  /\ TileRect.right tile == TileRect.right cell
  /\ TileRect.top tile == TileRect.top cell
  /\ TileRect.bottom tile == TileRect.bottom cell.
Proof.
  cbv zeta. unfold locateTile, locate.
  destruct (union_self (locateCell bf mag m row column true)) as (Hx & Hy & Hw & Hh).
  unfold TileRect.left, TileRect.right, TileRect.top, TileRect.bottom.
  rewrite Hx, Hy, Hw, Hh. repeat split; reflexivity.
Qed.

(** X20: without offset, and with a cell size that is not negative, the
    tiles the canvas paints lie apart and inside the canvas.  The canvas has
    the size [measure(rowCount, columnCount)] with nothing cropped, whatever
    the rows; a tile of the grid starts after the left and top edges of the
    canvas and ends before its right and bottom edges; a tile in a column
    further right starts after the tile ends, and a tile in a row further
    down starts below it. *)
Theorem tiles_lie_apart_inside_the_canvas :
  forall (basisFactor magnification : Q) (model : TileParametersModel)
         (rows : list TileRow.t) (row column row' column' : Z),
    (offset model <= 1)%Z ->
    0 <= TileSize.width (cellSize basisFactor magnification model) ->
    0 <= TileSize.height (cellSize basisFactor magnification model) ->
    let tile := locateTile basisFactor magnification model in
    let full := measure basisFactor magnification model
                  (rowCount model) (columnCount model) false in
    canvas basisFactor magnification model rows = Some (full, None)
    /\ ((1 <= row <= rowCount model)%Z -> (1 <= column <= columnCount model)%Z ->
          0 < TileRect.left (tile row column)
          /\ TileRect.right (tile row column) < TileSize.width full
          /\ 0 < TileRect.top (tile row column)
          /\ TileRect.bottom (tile row column) < TileSize.height full)
    /\ ((column < column')%Z ->
          TileRect.right (tile row column) < TileRect.left (tile row' column'))
    /\ ((row < row')%Z ->
          TileRect.bottom (tile row column) < TileRect.top (tile row' column')).
Proof.
  intros bf mag m rows row column row' column' Hoff Hw Hh tile full.
  subst tile full.
  destruct (locateTile_edges bf mag m row column) as (Tl & Tr & Tt & Tb).
  destruct (locateTile_edges bf mag m row' column') as (Tl' & _ & Tt' & _).
  destruct (tile_edges bf mag m Hoff row column) as (El & Er & Et & Eb).
  destruct (tile_edges bf mag m Hoff row' column') as (El' & _ & Et' & _).
  destruct (canvas_edges bf mag m) as (Cw & Ch).
  rewrite Tl, Tr, Tt, Tb, Tl', Tt', El, Er, Et, Eb, El', Et', Cw, Ch.
  clear Tl Tr Tt Tb Tl' Tt' El Er Et Eb El' Et' Cw Ch.
  split; [|split; [|split]].
  - unfold canvas. destruct (1 <? offset m)%Z eqn:E; [apply Z.ltb_lt in E; lia|].
    reflexivity.
  - intros [Hr1 Hr2] [Hc1 Hc2].
    pose proof (cells_scale 1 column _ Hc1 Hw) as P1.
    pose proof (cells_scale column (columnCount m) _ Hc2 Hw) as P2.
    pose proof (cells_scale 1 row _ Hr1 Hh) as P3.
    pose proof (cells_scale row (rowCount m) _ Hr2 Hh) as P4.
    rewrite Zle_Qle in Hr1, Hr2, Hc1, Hc2. change (inject_Z 1) with 1 in *.
    revert P1 P2 P3 P4 Hr1 Hr2 Hc1 Hc2.
    generalize (inject_Z column * TileSize.width (cellSize bf mag m))
      (inject_Z (columnCount m) * TileSize.width (cellSize bf mag m))
      (inject_Z row * TileSize.height (cellSize bf mag m))
      (inject_Z (rowCount m) * TileSize.height (cellSize bf mag m))
      (inject_Z column) (inject_Z (columnCount m)) (inject_Z row)
      (inject_Z (rowCount m)).
    intros. split; [lra|]. split; [lra|]. split; lra.
  - intros Hlt.
    assert (Hs : (column + 1 <= column')%Z) by lia.
    pose proof (cells_scale _ _ _ Hs Hw) as P.
    rewrite Zle_Qle, inject_Z_plus in Hs. rewrite inject_Z_plus in P.
    change (inject_Z 1) with 1 in *.
    assert (E : (inject_Z column + 1) * TileSize.width (cellSize bf mag m)
                == inject_Z column * TileSize.width (cellSize bf mag m)
                   + TileSize.width (cellSize bf mag m)) by ring.
    rewrite E in P. clear E. revert P Hs.
    generalize (inject_Z column * TileSize.width (cellSize bf mag m))
      (inject_Z column' * TileSize.width (cellSize bf mag m))
      (inject_Z column) (inject_Z column'). intros. lra.
  - intros Hlt.
    assert (Hs : (row + 1 <= row')%Z) by lia.
    pose proof (cells_scale _ _ _ Hs Hh) as P.
    rewrite Zle_Qle, inject_Z_plus in Hs. rewrite inject_Z_plus in P.
    change (inject_Z 1) with 1 in *.
    assert (E : (inject_Z row + 1) * TileSize.height (cellSize bf mag m)
                == inject_Z row * TileSize.height (cellSize bf mag m)
                   + TileSize.height (cellSize bf mag m)) by ring.
    rewrite E in P. clear E. revert P Hs.
    generalize (inject_Z row * TileSize.height (cellSize bf mag m))
      (inject_Z row' * TileSize.height (cellSize bf mag m))
      (inject_Z row) (inject_Z row'). intros. lra.
Qed.

Lemma tiles_lie_apart_inside_the_canvas_witness :
  let tile := locateTile 1 100 Sample.holed in
  let full := measure 1 100 Sample.holed 8 34 false in
  canvas 1 100 Sample.holed [] = Some (full, None)
  /\ ((1 <= 3 <= rowCount Sample.holed)%Z -> (1 <= 4 <= columnCount Sample.holed)%Z ->
        0 < TileRect.left (tile 3%Z 4%Z)
        /\ TileRect.right (tile 3%Z 4%Z) < TileSize.width full
        /\ 0 < TileRect.top (tile 3%Z 4%Z)
        /\ TileRect.bottom (tile 3%Z 4%Z) < TileSize.height full)
  /\ ((4 < 5)%Z -> TileRect.right (tile 3%Z 4%Z) < TileRect.left (tile 2%Z 5%Z))
  /\ ((3 < 4)%Z -> TileRect.bottom (tile 3%Z 4%Z) < TileRect.top (tile 4%Z 1%Z)).
Proof.
  intros tile full.
  pose proof (tiles_lie_apart_inside_the_canvas 1 100 Sample.holed [] 3 4 2 5)
    as H1.
  pose proof (tiles_lie_apart_inside_the_canvas 1 100 Sample.holed [] 3 4 4 1)
    as H2.
  assert (Ho : (offset Sample.holed <= 1)%Z) by (simpl; lia).
  assert (Hw : 0 <= TileSize.width (cellSize 1 100 Sample.holed))
    by (vm_compute; discriminate).
  assert (Hh : 0 <= TileSize.height (cellSize 1 100 Sample.holed))
    by (vm_compute; discriminate).
  destruct (H1 Ho Hw Hh) as (Hc & Hin & Hcol & _).
  destruct (H2 Ho Hw Hh) as (_ & _ & _ & Hrow).
  split; [exact Hc|]. split; [exact Hin|]. split; [exact Hcol|exact Hrow].
Defined.

(** X21: without offset, and with a cell size that is not negative, the
    area located from a cell to a cell further right and down starts at the
    first cell's corner and reaches from there to the last cell's far
    edges: its width is the last cell's right edge less the first cell's
    left edge, and its height the last cell's bottom edge less the first
    cell's top edge. *)
Theorem located_area_spans_its_corner_cells :
  forall (basisFactor magnification : Q) (model : TileParametersModel)
         (row column toRow toColumn : Z),
    (offset model <= 1)%Z ->
    0 <= TileSize.width (cellSize basisFactor magnification model) ->
    0 <= TileSize.height (cellSize basisFactor magnification model) ->
    (row <= toRow)%Z -> (column <= toColumn)%Z ->
    let area := locate basisFactor magnification model row column toRow toColumn true in
    let first := locateCell basisFactor magnification model row column true in
    let last := locateCell basisFactor magnification model toRow toColumn true in
    TileRect.x area == TileRect.x first
    /\ TileRect.y area == TileRect.y first
    /\ TileRect.width area == TileRect.right last - TileRect.left first
    /\ TileRect.height area == TileRect.bottom last - TileRect.top first.
Proof.
  intros bf mag m row column toRow toColumn Hoff Hw Hh Hrow Hcol area first last.
  subst area first last. unfold locate.
  destruct (tile_edges bf mag m Hoff row column) as (El & Er & Et & Eb).
  destruct (tile_edges bf mag m Hoff toRow toColumn) as (El' & Er' & Et' & Eb').
  pose proof (cells_scale _ _ _ Hcol Hw) as Pc.
  pose proof (cells_scale _ _ _ Hrow Hh) as Pr.
  rewrite Zle_Qle in Hrow, Hcol.
  revert El Er Et Eb El' Er' Et' Eb' Pc Pr Hrow Hcol.
  generalize (inject_Z column * TileSize.width (cellSize bf mag m))
    (inject_Z toColumn * TileSize.width (cellSize bf mag m))
    (inject_Z row * TileSize.height (cellSize bf mag m))
    (inject_Z toRow * TileSize.height (cellSize bf mag m))
    (inject_Z column) (inject_Z toColumn) (inject_Z row) (inject_Z toRow)
    (locateCell bf mag m row column true) (locateCell bf mag m toRow toColumn true).
  intros pc pc' pr pr' c c' r r' first last El Er Et Eb El' Er' Et' Eb' Pc Pr Hrow Hcol.
  unfold TileRect.union.
  cbn [TileRect.x TileRect.y TileRect.width TileRect.height].
  assert (Hl : Qmin (TileRect.left first) (TileRect.left last) == TileRect.left first)
    by (apply Q.min_l; lra).
  assert (Ht : Qmin (TileRect.top first) (TileRect.top last) == TileRect.top first)
    by (apply Q.min_l; lra).
  assert (Hr : Qmax (TileRect.right first) (TileRect.right last) == TileRect.right last)
    by (apply Q.max_r; lra).
  assert (Hb : Qmax (TileRect.bottom first) (TileRect.bottom last)
               == TileRect.bottom last)
    by (apply Q.max_r; lra).
  rewrite Hl, Ht, Hr, Hb. unfold TileRect.left, TileRect.top.
  repeat split; reflexivity.
Qed.

Lemma located_area_spans_its_corner_cells_witness :
  let area := locate 1 100 Sample.holed 2 5 3 7 true in
  let first := locateCell 1 100 Sample.holed 2 5 true in
  let last := locateCell 1 100 Sample.holed 3 7 true in
  TileRect.x area == TileRect.x first
  /\ TileRect.y area == TileRect.y first
  /\ TileRect.width area == TileRect.right last - TileRect.left first
  /\ TileRect.height area == TileRect.bottom last - TileRect.top first.
Proof.
  apply (located_area_spans_its_corner_cells 1 100 Sample.holed 2 5 3 7);
    try (simpl; lia); vm_compute; discriminate.
Defined.

(** ** When the layout fails *)

Lemma scanRows_none (pick : list Tile.t -> option Tile.t)
    (step : Q -> Tile.t -> Q) (rows : list TileRow.t) (acc0 : option Q) :
  fold_left
    (fun acc r =>
       match acc, pick (TileRow.columns r) with
       | Some a, Some tile => Some (step a tile)
       | _, _ => None
       end) rows acc0 = None
  <-> acc0 = None \/ exists r, In r rows /\ pick (TileRow.columns r) = None.
Proof.
  revert acc0. induction rows as [|r rows IH]; intros acc0; simpl.
  - split; [auto|]. intros [H|[r [[] _]]]. exact H.
  - rewrite IH. split.
    + intros [H|[r' [Hin Hp]]]; [|right; eauto].
      destruct acc0 as [a|]; [|auto].
      destruct (pick (TileRow.columns r)) eqn:E; [discriminate|]. right. eauto.
    + intros [->|[r' [[<-|Hin] Hp]]]; [auto| |right; eauto].
      left. rewrite Hp. now destruct acc0.
Qed.

Lemma atFirst_none (T : Type) (l : list T) : JS.atFirst l = None <-> l = [].
Proof. destruct l; simpl; split; congruence. Qed.

Lemma atLast_none (T : Type) (l : list T) : JS.atLast l = None <-> l = [].
Proof.
  unfold JS.atLast. split.
  - intros H. destruct (rev l) eqn:E; [|discriminate].
    apply (f_equal (@rev T)) in E. now rewrite rev_involutive in E.
  - intros ->. reflexivity.
Qed.

Lemma layout_none_iff bf mag m rows :
  layout bf mag m rows = None
  <-> (1 < offset m)%Z
      /\ match orientation m with
         | Orientation.horizontal =>
             exists r, In r rows /\ TileRow.columns r = []
         | Orientation.vertical => rows = []
         end.
Proof.
  unfold layout.
  assert (Hc : canvas bf mag m rows = None
               <-> (1 < offset m)%Z
                   /\ match orientation m with
                      | Orientation.horizontal =>
                          exists r, In r rows /\ TileRow.columns r = []
                      | Orientation.vertical => rows = []
                      end).
  { unfold canvas. destruct (1 <? offset m)%Z eqn:E.
    - apply Z.ltb_lt in E. destruct (orientation m).
      + destruct (scanRows _ (@JS.atFirst _) _ 0) eqn:Ea;
          [destruct (scanRows _ (@JS.atLast _) _ _) eqn:Eb|].
        * split; [discriminate|]. intros [_ [r [Hin Hr]]].
          unfold scanRows in Ea.
          assert (Some q = None); [|discriminate].
          rewrite <- Ea. apply scanRows_none. right. exists r.
          split; [exact Hin|]. now rewrite Hr.
        * split; [|reflexivity]. intros _. split; [exact E|].
          unfold scanRows in Eb.
          apply scanRows_none in Eb as [Eb|[r [Hin Hr]]]; [discriminate|].
          exists r. split; [exact Hin|]. now apply atLast_none.
        * split; [|reflexivity]. intros _. split; [exact E|].
          unfold scanRows in Ea.
          apply scanRows_none in Ea as [Ea|[r [Hin Hr]]]; [discriminate|].
          exists r. split; [exact Hin|]. now apply atFirst_none.
      + destruct rows as [|r rows]; simpl.
        * split; [auto|reflexivity].
        * destruct (JS.atLast (r :: rows)) eqn:El.
          -- split; [discriminate|]. intros [_ H]. discriminate.
          -- apply atLast_none in El. discriminate.
    - apply Z.ltb_ge in E. split; [discriminate|]. intros [H _]. lia. }
  destruct (canvas bf mag m rows) as [[canvasSize canvasCrop]|].
  - split; [discriminate|]. intros H. apply Hc in H. discriminate.
  - split; [intros _; now apply Hc|reflexivity].
Qed.

(** X22: [layout] throws in two cases only, both with an offset above 1: in
    horizontal orientation when some row has no tiles, in vertical
    orientation when there is no row at all.  Without offset, and for rows
    that all have tiles, it always returns. *)
Theorem layout_fails_exactly_on_empty_rows :
  forall (basisFactor magnification : Q) (model : TileParametersModel)
         (rows : list TileRow.t),
    layout basisFactor magnification model rows = None
    <-> (1 < offset model)%Z
        /\ match orientation model with
           | Orientation.horizontal =>
               exists r, In r rows /\ TileRow.columns r = []
           | Orientation.vertical => rows = []
           end.
Proof.
  intros. apply layout_none_iff.
Qed.

(** ** Objects used as maps *)

Lemma insertIndexed_perm (V : Type) (e : N * (string * V)) l :
  Permutation (JSObject.insertIndexed e l) (e :: l).
Proof.
  induction l as [|e' l IH]; simpl; [reflexivity|].
  destruct (fst e <=? fst e')%N; [reflexivity|].
  rewrite IH. apply perm_swap.
Qed.

Lemma entries_perm (V : Type) (o : JSObject.t V) :
  Permutation (JSObject.entries o) o.
Proof.
  unfold JSObject.entries. induction o as [|e o IH]; simpl; [reflexivity|].
  destruct (JSObject.arrayIndex (fst e)).
  - rewrite insertIndexed_perm. simpl. now apply perm_skip.
  - rewrite <- Permutation_middle. now apply perm_skip.
Qed.

Lemma keys_perm (V : Type) (o : JSObject.t V) :
  Permutation (JSObject.keys o) (map fst o).
Proof. unfold JSObject.keys. apply Permutation_map, entries_perm. Qed.

Lemma set_keys_in (V : Type) (o : JSObject.t V) k v k' :
  In k' (map fst (JSObject.set o k v)) <-> k' = k \/ In k' (map fst o).
Proof.
  induction o as [|[k0 v0] o IH]; simpl.
  - intuition.
  - destruct (String.eqb k0 k) eqn:E; simpl.
    + apply String.eqb_eq in E. subst k0. intuition.
    + rewrite IH. intuition.
Qed.

Lemma set_keys_nodup (V : Type) (o : JSObject.t V) k v :
  NoDup (map fst o) -> NoDup (map fst (JSObject.set o k v)).
Proof.
  induction o as [|[k0 v0] o IH]; simpl; intros H.
  - constructor; [simpl; tauto|constructor].
  - inversion H as [|? ? Hn Hd]; subst.
    destruct (String.eqb k0 k) eqn:E; simpl.
    + apply String.eqb_eq in E. subst k0. now constructor.
    + constructor; [|now apply IH]. rewrite set_keys_in.
      apply String.eqb_neq in E. intros [->|Hin]; [congruence|contradiction].
Qed.

Lemma get_set (V : Type) (o : JSObject.t V) k v k' :
  JSObject.get (JSObject.set o k v) k'
  = if String.eqb k k' then Some v else JSObject.get o k'.
Proof.
  induction o as [|[k0 v0] o IH]; simpl.
  - reflexivity.
  - destruct (String.eqb k0 k) eqn:E; simpl.
    + apply String.eqb_eq in E. subst k0.
      destruct (String.eqb k k'); reflexivity.
    + rewrite IH. destruct (String.eqb k k') eqn:E'; [|reflexivity].
      apply String.eqb_eq in E'. subst k'. now rewrite E.
Qed.

Lemma get_some_in (V : Type) (o : JSObject.t V) k :
  In k (map fst o) <-> JSObject.get o k <> None.
Proof.
  induction o as [|[k0 v0] o IH]; simpl.
  - intuition.
  - destruct (String.eqb k0 k) eqn:E.
    + apply String.eqb_eq in E. split; [discriminate|auto].
    + apply String.eqb_neq in E. rewrite <- IH. intuition.
Qed.

(** ** The colours of a pattern *)

Lemma colourWeightsOf_keys model colour :
  In colour (JSObject.keys (colourWeightsOf model))
  <-> In colour (map name (enabledColours model))
      /\ colour <> "__proto__"%string.
Proof.
  assert (Hk : In colour (JSObject.keys (colourWeightsOf model))
               <-> In colour (map fst (colourWeightsOf model))).
  { split; apply Permutation_in; [|symmetry]; apply keys_perm. }
  rewrite Hk. clear Hk. unfold colourWeightsOf.
  assert (H : forall l (o : JSObject.t Z),
            In colour (map fst (fold_left
                         (fun o c =>
                            if String.eqb (name c) "__proto__" then o
                            else JSObject.set o (name c) (weight c)) l o))
            <-> In colour (map fst o)
                \/ (In colour (map name l) /\ colour <> "__proto__"%string)).
  { induction l as [|c l IH]; intros o; cbn [fold_left map In]; [tauto|].
    rewrite IH. destruct (String.eqb (name c) "__proto__") eqn:E.
    - apply String.eqb_eq in E. rewrite E. intuition congruence.
    - apply String.eqb_neq in E. rewrite set_keys_in. intuition congruence. }
  rewrite H. simpl. tauto.
Qed.

Lemma slice0_incl (T : Type) (items : list T) end_ x :
  In x (JS.slice0 items end_) -> In x items.
Proof.
  unfold JS.slice0. intros H.
  rewrite <- (firstn_skipn (JS.clamp (List.length items) (JS.toIndex end_)) items).
  apply in_or_app. left. exact H.
Qed.

Lemma insertByKey_perm (T : Type) (e : option Q * T) l :
  Permutation (Randomizer.insertByKey e l) (e :: l).
Proof.
  induction l as [|e' l IH]; simpl; [reflexivity|].
  destruct (Randomizer.keyLe (fst e) (fst e')); [reflexivity|].
  rewrite IH. apply perm_swap.
Qed.

Lemma sortByKey_perm (T : Type) (l : list (option Q * T)) :
  Permutation (Randomizer.sortByKey l) (map snd l).
Proof.
  unfold Randomizer.sortByKey. apply Permutation_map.
  induction l as [|e l IH]; simpl; [reflexivity|].
  rewrite insertByKey_perm. now apply perm_skip.
Qed.

Section ColourFacts.
Context {SR : SeedRandom}.

Lemma weighKeys_items weigh :
  forall items g, map snd (fst (Randomizer.weighKeys weigh items g)) = items.
Proof.
  induction items as [|item items IH]; intros g; [reflexivity|].
  cbn [Randomizer.weighKeys]. destruct (Randomizer.next g) as [d g1].
  specialize (IH g1). destruct (Randomizer.weighKeys weigh items g1) as [keyed g2].
  simpl in *. now rewrite IH.
Qed.

Lemma weightedShuffle_perm items weights g :
  Permutation (fst (Randomizer.weightedShuffle items weights g)) items.
Proof.
  unfold Randomizer.weightedShuffle.
  match goal with
  | |- context [Randomizer.weighKeys ?w items g] =>
      pose proof (weighKeys_items w items g) as H;
      destruct (Randomizer.weighKeys w items g) as [keyed g']
  end.
  simpl in *. rewrite sortByKey_perm, H. reflexivity.
Qed.

Variable model : TileParametersModel.
Variable colourWeights : JSObject.t Z.
Variable favourites : list string.

Lemma baseColourSupplier_incl g colour :
  In colour (fst (baseColourSupplier model colourWeights favourites g)) ->
  In colour favourites \/ In colour (JSObject.keys colourWeights).
Proof.
  unfold baseColourSupplier.
  pose proof (shuffle_perm _ favourites g) as Hf.
  destruct (Randomizer.shuffle favourites g) as [favs g1].
  match goal with
  | |- context [Randomizer.shuffle ?l g1] =>
      pose proof (shuffle_perm _ l g1) as Ho;
      destruct (Randomizer.shuffle l g1) as [others g2]
  end.
  simpl in *. intros H. apply slice0_incl, in_app_or in H. destruct H as [H|H].
  - left. now apply (Permutation_in _ Hf).
  - right. apply (Permutation_in _ Ho) in H. now apply filter_In in H.
Qed.

Lemma colourSupplier_incl g colour :
  In colour (fst (colourSupplier model colourWeights favourites g)) ->
  In colour favourites \/ In colour (JSObject.keys colourWeights).
Proof.
  unfold colourSupplier. destruct (0 <? complexity model)%Z.
  - pose proof (baseColourSupplier_incl g colour) as Hb.
    destruct (baseColourSupplier model colourWeights favourites g) as [result g1].
    destruct (Randomizer.nextInt g1) as [n g2].
    match goal with
    | |- context [Randomizer.weightedShuffle result colourWeights g2] =>
        pose proof (weightedShuffle_perm result colourWeights g2) as Hs;
        destruct (Randomizer.weightedShuffle result colourWeights g2) as [sorted g3]
    end.
    simpl in *. intros H. apply in_app_or in H. destruct H as [H|H]; [auto|].
    apply slice0_incl in H. apply Hb. now apply (Permutation_in _ Hs).
  - apply baseColourSupplier_incl.
Qed.

Lemma colourDispenser_colour colours st g c st' g' :
  colourDispenser colours st g = Some (c, st', g') ->
  (forall x, In x (Dispenser.group st) -> In x colours) ->
  In c colours /\ (forall x, In x (Dispenser.group st') -> In x colours).
Proof.
  intros H Hinv.
  assert (Hgroup : forall x, In x (c :: Dispenser.group st') -> In x colours).
  { unfold colourDispenser in H.
    destruct (JS.rem (Dispenser.i st) (Z.of_nat (List.length colours)))
      as [[| |]|] eqn:Er.
    2-4: destruct (Dispenser.group st) as [|c0 rest]; [discriminate|];
         injection H as <- <- <-; exact Hinv.
    pose proof (shuffle_perm _ colours g) as Hp.
    destruct (Randomizer.shuffle colours g) as [group g1]. simpl in Hp.
    destruct (sameColour (hd_error group) (Dispenser.lastColour st)).
    - pose proof (splice1_perm _ group 0) as Hs.
      destruct (JS.splice1 group 0) as [colour group']. simpl in Hs.
      destruct (group' ++ colour) as [|c0 rest] eqn:Eg; [discriminate|].
      injection H as <- <- <-. cbn [Dispenser.group]. rewrite <- Eg. intros x Hx.
      apply (Permutation_in _ Hp), (Permutation_in _ Hs).
      apply in_or_app. apply in_app_or in Hx. tauto.
    - destruct group as [|c0 rest]; [discriminate|].
      injection H as <- <- <-. cbn [Dispenser.group]. intros x Hx.
      now apply (Permutation_in _ Hp). }
  split; [apply Hgroup; simpl; auto|]. intros x Hx. apply Hgroup. simpl. auto.
Qed.

Lemma fillRow_colours colours rowKey :
  forall n i st g row g',
    fillRow model colours rowKey n i st g = Some (row, g') ->
    (forall x, In x (Dispenser.group st) -> In x colours) ->
    Forall (fun t => In (Tile.colour t) colours) row.
Proof.
  induction n as [|n IH]; intros i st g row g' H Hinv; simpl in H;
    destruct (colourDispenser colours st g) as [[[c st1] g1]|] eqn:Ec;
    try discriminate.
  - injection H as <- <-. constructor.
  - destruct (fillRow model colours rowKey n (i + 1) st1 g1) as [[row1 g2]|] eqn:Ef;
      [|discriminate].
    injection H as <- <-.
    apply colourDispenser_colour in Ec as [Hc Hinv1]; [|exact Hinv].
    constructor; [exact Hc|]. eapply IH; eauto.
Qed.

Lemma generateRow_colours rowKey g r g' :
  generateRow model colourWeights favourites rowKey g = Some (r, g') ->
  Forall (fun t => In (Tile.colour t) favourites
                   \/ In (Tile.colour t) (JSObject.keys colourWeights))
    (TileRow.columns r).
Proof.
  unfold generateRow.
  pose proof (colourSupplier_incl g) as Hs.
  destruct (colourSupplier model colourWeights favourites g) as [colours g1].
  simpl in Hs.
  destruct (fillRow model colours rowKey _ 0 Dispenser.init g1)
    as [[row g2]|] eqn:Ef; [|discriminate].
  intros H. injection H as <- <-. simpl.
  apply fillRow_colours in Ef; [|intros x []].
  rewrite Forall_forall in *. intros t Ht.
  apply (Permutation_in _ (rotate_perm _ row (rotation model))) in Ht.
  apply Hs, Ef, Ht.
Qed.

Lemma yieldRows_colours :
  forall n i g rows,
    yieldRows model colourWeights favourites n i g = Some rows ->
    Forall (fun r =>
              Forall (fun t => In (Tile.colour t) favourites
                               \/ In (Tile.colour t) (JSObject.keys colourWeights))
                (TileRow.columns r)) rows.
Proof.
  induction n as [|n IH]; intros i g rows H; simpl in H.
  - injection H as <-. constructor.
  - destruct (generateRow model colourWeights favourites i g) as [[r g1]|] eqn:Er;
      [|discriminate].
    destruct (yieldRows model colourWeights favourites n (i - 1) g1) as [rest|] eqn:Ey;
      [|discriminate].
    injection H as <-. constructor; [now apply generateRow_colours in Er|].
    eapply IH; eauto.
Qed.

End ColourFacts.

(** X23: every tile of a generated pattern has the name of one of the
    enabled colours of the colour model. *)
Theorem tiles_have_enabled_colours :
  forall (SR : SeedRandom) (model : TileParametersModel) (rows : list TileRow.t),
    generateRows model = Some rows ->
    forall r t, In r rows -> In t (TileRow.columns r) ->
      exists colour,
        In colour (colourModel model) /\ enabled colour = true
        /\ name colour = Tile.colour t.
Proof.
  intros SR model rows H r t Hr Ht. rewrite generate_rev in H.
  destruct (yieldRows model (colourWeightsOf model) (favouritesOf model) _ _ _)
    as [yielded|] eqn:Ey; [|discriminate].
  simpl in H. injection H as <-. apply in_rev in Hr.
  apply yieldRows_colours in Ey. rewrite Forall_forall in Ey.
  specialize (Ey r Hr). rewrite Forall_forall in Ey. specialize (Ey t Ht).
  assert (Hn : In (Tile.colour t) (map name (enabledColours model))).
  { destruct Ey as [Hf|Hk].
    - unfold favouritesOf in Hf. apply in_map_iff in Hf as [c [<- Hc]].
      apply filter_In in Hc. apply in_map. tauto.
    - now apply colourWeightsOf_keys. }
  apply in_map_iff in Hn as [c [Hc Hin]]. unfold enabledColours in Hin.
  apply filter_In in Hin. exists c. tauto.
Qed.

Lemma tiles_have_enabled_colours_witness :
  exists colour,
    In colour (colourModel Sample.duplicated) /\ enabled colour = true
    /\ name colour = "A"%string.
Proof.
  apply (tiles_have_enabled_colours scripted Sample.duplicated
           [TileRow.mk 1 [Tile.mk 1 1 "B"; Tile.mk 2 1 "A"; Tile.mk 3 1 "A";
                          Tile.mk 4 1 "A"]]
           eq_refl
           (TileRow.mk 1 [Tile.mk 1 1 "B"; Tile.mk 2 1 "A"; Tile.mk 3 1 "A";
                          Tile.mk 4 1 "A"])
           (Tile.mk 2 1 "A")); simpl; auto.
Defined.

(** X24: the designer page's pipeline never throws on sound parameters:
    with at least one row and one column, a rotation that is not negative, a
    group of at least one colour and an enabled colour that is a favourite
    or is not named [__proto__], [generateRows] returns rows and [layout]
    returns a layout for them, whatever the offset, the orientation, the
    basis factor and the magnification. *)
Theorem pattern_always_lays_out :
  forall (SR : SeedRandom) (basisFactor magnification : Q)
         (model : TileParametersModel),
    (1 <= rowCount model)%Z -> (1 <= columnCount model)%Z ->
    (0 <= rotation model)%Z -> (1 <= groupSize model)%Z ->
    (exists c, In c (enabledColours model)
               /\ (favourite c = true \/ name c <> "__proto__"%string)) ->
    exists rows l,
      generateRows model = Some rows
      /\ layout basisFactor magnification model rows = Some l.
Proof.
  intros SR bf mag m Hrows Hcols Hrot Hgroup Hcolours.
  destruct (yieldRows_total m (colourWeightsOf m) (favouritesOf m)
              (palette_not_nil m Hcolours) Hgroup Hrot
              (Z.to_nat (rowCount m)) (rowCount m) (seedrandom (seed m)))
    as (yielded & Hy & Hlen & Hshape).
  exists (rev yielded). rewrite generate_rev, Hy. simpl.
  destruct (layout bf mag m (rev yielded)) as [l|] eqn:El; [eauto|].
  exfalso. apply layout_none_iff in El as [_ El].
  destruct (orientation m).
  - destruct El as (r & Hin & Hr). apply in_rev in Hin.
    rewrite Forall_forall in Hshape. destruct (Hshape r Hin) as (_ & Hc & _).
    rewrite Hr in Hc. simpl in Hc. lia.
  - apply (f_equal (@List.length _)) in El. rewrite length_rev, Hlen in El.
    simpl in El. lia.
Qed.

Lemma pattern_always_lays_out_witness :
  exists rows l,
    @generateRows scripted (Sample.steppedLeft 3 false) = Some rows
    /\ layout 1 100 (Sample.steppedLeft 3 false) rows = Some l.
Proof.
  apply (pattern_always_lays_out scripted 1 100 (Sample.steppedLeft 3 false));
    simpl; try lia.
  exists (mkColour "cherry" "#8b314d" "C" true 5 false).
  split; [auto|]. right. discriminate.
Defined.

Section NoColours.
Context {SR : SeedRandom}.
Variable model : TileParametersModel.

Lemma shuffle_nil (T : Type) g : Randomizer.shuffle (@nil T) g = ([], g).
Proof. reflexivity. Qed.

Lemma slice0_nil (T : Type) end_ : JS.slice0 (@nil T) end_ = [].
Proof. unfold JS.slice0. apply firstn_nil. Qed.

Lemma colourSupplier_nil g :
  fst (colourSupplier model [] [] g) = [].
Proof.
  unfold colourSupplier, baseColourSupplier.
  change (JSObject.keys []) with (@nil string). cbn [filter app].
  rewrite !shuffle_nil. cbn [app]. rewrite slice0_nil.
  destruct (0 <? complexity model)%Z; [|reflexivity].
  destruct (Randomizer.nextInt g) as [n g2].
  unfold Randomizer.weightedShuffle. cbn [Randomizer.weighKeys].
  unfold Randomizer.sortByKey. cbn [fold_right map app fst].
  apply slice0_nil.
Qed.

Lemma colourDispenser_nil st g :
  Dispenser.group st = [] -> colourDispenser [] st g = None.
Proof.
  intros H. unfold colourDispenser. simpl. now rewrite H.
Qed.

Lemma generateRow_nil rowKey g : generateRow model [] [] rowKey g = None.
Proof.
  unfold generateRow. pose proof (colourSupplier_nil g) as H.
  destruct (colourSupplier model [] [] g) as [colours g1]. simpl in H. subst colours.
  destruct (Z.to_nat (columnCount model)); cbn [fillRow];
    now rewrite colourDispenser_nil.
Qed.

End NoColours.

(** X25: with no enabled colour the generator throws as soon as a row is
    asked for, whatever the number of columns; it returns the empty pattern
    when the row count is below 1. *)
Theorem generateRows_fails_without_colours :
  forall (SR : SeedRandom) (model : TileParametersModel),
    enabledColours model = [] ->
    generateRows model = if (1 <=? rowCount model)%Z then None else Some [].
Proof.
  intros SR model Hnone. rewrite generate_rev.
  unfold colourWeightsOf, favouritesOf. rewrite Hnone. simpl.
  destruct (1 <=? rowCount model)%Z eqn:E.
  - apply Z.leb_le in E. destruct (Z.to_nat (rowCount model)) eqn:En; [lia|].
    simpl. now rewrite generateRow_nil.
  - apply Z.leb_gt in E. replace (Z.to_nat (rowCount model)) with 0%nat by lia.
    reflexivity.
Qed.

Lemma generateRows_fails_without_colours_witness :
  @generateRows scripted
    (afterColourAction
       (afterColourAction (Sample.twoColours "0110" 2 3 0 0) (ToggleColourAction "A"))
       (ToggleColourAction "B"))
  = None.
Proof.
  apply (generateRows_fails_without_colours scripted
           (afterColourAction
              (afterColourAction (Sample.twoColours "0110" 2 3 0 0)
                 (ToggleColourAction "A"))
              (ToggleColourAction "B"))).
  reflexivity.
Defined.

(** ** Rotation *)

Lemma rotate_general (T : Type) (items : list T) (places : Z) :
  (0 <= places <= 2 * Z.of_nat (List.length items))%Z ->
  let r := Z.to_nat (places mod Z.of_nat (List.length items)) in
  rotate items places
  = skipn (List.length items - r) items ++ firstn (List.length items - r) items.
Proof.
  intros Hp r. subst r. set (len := List.length items) in *.
  assert (Hid : skipn (len - 0) items ++ firstn (len - 0) items = items).
  { rewrite Nat.sub_0_r. unfold len. now rewrite skipn_all, firstn_all. }
  unfold rotate. destruct (places =? 0)%Z eqn:E0.
  - apply Z.eqb_eq in E0. subst places. rewrite Zmod_0_l. change (Z.to_nat 0) with 0%nat. now rewrite Hid.
  - apply Z.eqb_neq in E0. unfold JS.spliceFrom, JS.clamp. fold len.
    destruct (Z.eq_dec places (Z.of_nat len)) as [El|El].
    { rewrite El, Z.sub_diag, Z_mod_same_full. change (Z.to_nat 0) with 0%nat.
      rewrite Hid. simpl. now rewrite app_nil_r. }
    destruct (Z.eq_dec places (2 * Z.of_nat len)) as [El2|El2].
    { rewrite El2. replace (2 * Z.of_nat len)%Z with (0 + 2 * Z.of_nat len)%Z by lia.
      rewrite Z_mod_plus_full, Zmod_0_l. change (Z.to_nat 0) with 0%nat.
      rewrite Hid.
      destruct (Z.of_nat len - (0 + 2 * Z.of_nat len) <? 0)%Z eqn:En.
      - replace (Z.to_nat (Z.max _ 0)) with 0%nat by lia. simpl.
        now rewrite app_nil_r.
      - apply Z.ltb_ge in En. assert (len = 0%nat) by lia.
        destruct items; [reflexivity|simpl in *; lia]. }
    destruct (Z.of_nat len - places <? 0)%Z eqn:En.
    + apply Z.ltb_lt in En.
      replace (places mod Z.of_nat len)%Z with (places - Z.of_nat len)%Z.
      * replace (Z.to_nat (Z.max (Z.of_nat len + (Z.of_nat len - places)) 0))
          with (len - Z.to_nat (places - Z.of_nat len))%nat by lia.
        reflexivity.
      * symmetry. rewrite <- (Z.mod_small (places - Z.of_nat len) (Z.of_nat len)) by lia.
        replace places with (places - Z.of_nat len + 1 * Z.of_nat len)%Z at 1 by lia.
        apply Z_mod_plus_full.
    + apply Z.ltb_ge in En. rewrite Z.mod_small by lia.
      replace (Nat.min (Z.to_nat (Z.of_nat len - places)) len)
        with (len - Z.to_nat places)%nat by lia.
      reflexivity.
Qed.

Lemma rotate_beyond (T : Type) (items : list T) (places : Z) :
  (places < 0 \/ 2 * Z.of_nat (List.length items) <= places)%Z ->
  rotate items places = items.
Proof.
  intros Hp. unfold rotate. destruct (places =? 0)%Z; [reflexivity|].
  unfold JS.spliceFrom, JS.clamp.
  destruct (Z.of_nat (List.length items) - places <? 0)%Z eqn:En.
  - apply Z.ltb_lt in En.
    replace (Z.to_nat (Z.max _ 0)) with 0%nat by lia. simpl. apply app_nil_r.
  - apply Z.ltb_ge in En.
    replace (Nat.min _ _) with (List.length items) by lia.
    now rewrite skipn_all, firstn_all.
Qed.

(** X26: [rotate] moves the items to the right by [places] modulo the
    length, for every number of places from 0 up to twice the length; for a
    negative number of places, and for more than twice the length, it
    leaves the items as they are. *)
Theorem rotate_is_modular_up_to_twice_the_length :
  forall (T : Type) (items : list T) (places : Z),
    let len := List.length items in
    let r := Z.to_nat (places mod Z.of_nat len) in
    ((0 <= places <= 2 * Z.of_nat len)%Z ->
       rotate items places = skipn (len - r) items ++ firstn (len - r) items
       /\ forall i, (i < len)%nat ->
            nth_error (rotate items places) ((i + r) mod len) = nth_error items i)
    /\ ((places < 0 \/ 2 * Z.of_nat len <= places)%Z -> rotate items places = items).
Proof.
  intros T items places len r. split.
  - intros Hp. pose proof (rotate_general T items places Hp) as H.
    cbv zeta in H. fold len r in H. split; [exact H|].
    intros i Hi. rewrite H. apply rotate_nth; [|exact Hi].
    subst r. fold len. pose proof (Z.mod_pos_bound places (Z.of_nat len)). lia.
  - apply rotate_beyond.
Qed.

(** ** Numbering of rows and tiles *)

Section Numbering.
Context {SR : SeedRandom}.
Variable model : TileParametersModel.
Variable colourWeights : JSObject.t Z.
Variable favourites : list string.

Lemma generateRow_keys rowKey g r g' :
  (0 <= rotation model <= 2 * columnCount model)%Z ->
  generateRow model colourWeights favourites rowKey g = Some (r, g') ->
  TileRow.key r = rowKey
  /\ map Tile.key (TileRow.columns r)
     = map (fun j => (Z.of_nat j + 1)%Z) (seq 0 (Z.to_nat (columnCount model))).
Proof.
  intros Hrot. unfold generateRow.
  destruct (colourSupplier model colourWeights favourites g) as [colours g1].
  destruct (fillRow model colours rowKey _ 0 Dispenser.init g1)
    as [[row g2]|] eqn:Ef; [|discriminate].
  intros H. injection H as <- <-. split; [reflexivity|]. cbn [TileRow.columns].
  apply fillRow_shape in Ef as [Hlen Hnth].
  set (n := Z.to_nat (columnCount model)) in *.
  assert (Hcc : columnCount model = Z.of_nat n) by lia.
  rewrite rotate_general by (rewrite Hlen; lia).
  rewrite Hlen, <- Hcc. set (r := Z.to_nat (rotation model mod columnCount model)).
  assert (Hr : (rotation model
                = columnCount model * (rotation model / columnCount model)
                  + Z.of_nat r)%Z).
  { subst r. destruct (Z.eq_dec (columnCount model) 0) as [E|E].
    - rewrite E, Z.mod_0_r. simpl. lia.
    - pose proof (Z.mod_pos_bound (rotation model) (columnCount model)).
      rewrite Z2Nat.id by lia. apply Z.div_mod. exact E. }
  assert (Hrn : (r <= n)%nat).
  { subst r. destruct (Z.eq_dec (columnCount model) 0) as [E|E].
    - rewrite E, Z.mod_0_r. lia.
    - pose proof (Z.mod_pos_bound (rotation model) (columnCount model)). lia. }
  apply nth_error_ext. intros k.
  destruct (Nat.lt_ge_cases k n) as [Hk|Hk].
  2:{ rewrite !(proj2 (nth_error_None _ _)); [reflexivity| |].
      - rewrite length_map, length_seq. exact Hk.
      - rewrite length_map, length_app, length_skipn, length_firstn. lia. }
  rewrite !nth_error_map, nth_error_seq.
  replace (k <? n)%nat with true by (symmetry; now apply Nat.ltb_lt).
  cbn [option_map Nat.add].
  assert (Hkey : forall j, (j < n)%nat ->
            ((Z.of_nat j + rotation model) mod columnCount model
             = Z.of_nat k)%Z ->
            option_map Tile.key (nth_error row j) = Some (Z.of_nat k + 1)%Z).
  { intros j Hj Hm. destruct (Hnth j Hj) as [colour ->]. simpl.
    rewrite Z.rem_mod_nonneg by lia. now rewrite Hm. }
  destruct (Nat.lt_ge_cases k r) as [Hkr|Hkr].
  - rewrite nth_error_app1 by (rewrite length_skipn; lia).
    rewrite nth_error_skipn. apply Hkey; [lia|].
    rewrite Hr at 1.
    replace (Z.of_nat (n - r + k)
             + (columnCount model * (rotation model / columnCount model)
                + Z.of_nat r))%Z
      with (Z.of_nat k
            + (rotation model / columnCount model + 1) * columnCount model)%Z
      by lia.
    rewrite Z_mod_plus_full. apply Z.mod_small. lia.
  - rewrite nth_error_app2 by (rewrite length_skipn; lia).
    rewrite length_skipn, Hlen.
    replace (k - (n - (n - r)))%nat with (k - r)%nat by lia.
    rewrite nth_error_firstn.
    replace (k - r <? n - r)%nat with true by (symmetry; apply Nat.ltb_lt; lia).
    apply Hkey; [lia|]. rewrite Hr at 1.
    replace (Z.of_nat (k - r)
             + (columnCount model * (rotation model / columnCount model)
                + Z.of_nat r))%Z
      with (Z.of_nat k + (rotation model / columnCount model) * columnCount model)%Z
      by lia.
    rewrite Z_mod_plus_full. apply Z.mod_small. lia.
Qed.

Lemma yieldRows_keys :
  (0 <= rotation model <= 2 * columnCount model)%Z ->
  forall n i g rows,
    yieldRows model colourWeights favourites n i g = Some rows ->
    map TileRow.key rows = map (fun j => (i - Z.of_nat j)%Z) (seq 0 n)
    /\ Forall (fun r =>
                 map Tile.key (TileRow.columns r)
                 = map (fun j => (Z.of_nat j + 1)%Z)
                     (seq 0 (Z.to_nat (columnCount model)))) rows.
Proof.
  intros Hrot. induction n as [|n IH]; intros i g rows H; simpl in H.
  - injection H as <-. split; [reflexivity|constructor].
  - destruct (generateRow model colourWeights favourites i g) as [[r g1]|] eqn:Er;
      [|discriminate].
    destruct (yieldRows model colourWeights favourites n (i - 1) g1) as [rest|] eqn:Ey;
      [|discriminate].
    injection H as <-. apply generateRow_keys in Er as [Hk Hc]; [|exact Hrot].
    apply IH in Ey as [Hks Hcs]. split; [|constructor; assumption].
    cbn [map seq]. rewrite Hk, Hks, <- seq_shift, map_map. f_equal; [lia|].
    apply map_ext. intros j. lia.
Qed.

End Numbering.

(** X27: for a rotation from 0 up to twice the column count, the rows of a
    generated pattern are numbered 1, 2, ... from the top and the tiles of
    every row 1, 2, ..., [columnCount] from the left, in array order. *)
Theorem rows_and_tiles_are_numbered_in_order :
  forall (SR : SeedRandom) (model : TileParametersModel) (rows : list TileRow.t),
    (0 <= rotation model <= 2 * columnCount model)%Z ->
    generateRows model = Some rows ->
    map TileRow.key rows
    = map (fun j => (Z.of_nat j + 1)%Z) (seq 0 (Z.to_nat (rowCount model)))
    /\ Forall (fun r =>
                 map Tile.key (TileRow.columns r)
                 = map (fun j => (Z.of_nat j + 1)%Z)
                     (seq 0 (Z.to_nat (columnCount model)))) rows.
Proof.
  intros SR model rows Hrot H. rewrite generate_rev in H.
  destruct (yieldRows model (colourWeightsOf model) (favouritesOf model) _ _ _)
    as [yielded|] eqn:Ey; [|discriminate].
  simpl in H. injection H as <-.
  apply yieldRows_keys in Ey as [Hk Hc]; [|exact Hrot]. split.
  - rewrite map_rev, Hk. set (n := Z.to_nat (rowCount model)).
    destruct (Z.le_gt_cases (rowCount model) 0) as [Hn|Hn].
    + replace n with 0%nat by lia. reflexivity.
    + apply nth_error_ext. intros k.
      destruct (Nat.lt_ge_cases k n) as [Hlt|Hge].
      * rewrite nth_error_rev by (rewrite length_map, length_seq; exact Hlt).
        rewrite length_map, length_seq, !nth_error_map, !nth_error_seq.
        replace (n - S k <? n)%nat with true by (symmetry; apply Nat.ltb_lt; lia).
        replace (k <? n)%nat with true by (symmetry; apply Nat.ltb_lt; lia).
        simpl. f_equal. lia.
      * rewrite !(proj2 (nth_error_None _ _)); [reflexivity| |].
        -- rewrite length_map, length_seq. exact Hge.
        -- rewrite length_rev, length_map, length_seq. exact Hge.
  - apply Forall_rev. exact Hc.
Qed.

Lemma rows_and_tiles_are_numbered_in_order_witness :
  map TileRow.key [Sample.rotatedRow]
  = map (fun j => (Z.of_nat j + 1)%Z) (seq 0 (Z.to_nat 1))
  /\ Forall (fun r =>
               map Tile.key (TileRow.columns r)
               = map (fun j => (Z.of_nat j + 1)%Z) (seq 0 (Z.to_nat 10)))
       [Sample.rotatedRow].
Proof.
  apply (rows_and_tiles_are_numbered_in_order scripted Sample.rotated
           [Sample.rotatedRow]).
  - simpl. lia.
  - vm_compute. reflexivity.
Defined.

(** ** What [intersect] leaves of a rectangle *)

Lemma Qeq_bool_false a b : Qeq_bool a b = false <-> ~ a == b.
Proof.
  split.
  - intros H E. apply Qeq_bool_iff in E. congruence.
  - intros H. destruct (Qeq_bool a b) eqn:E; [|reflexivity].
    apply Qeq_bool_iff in E. contradiction.
Qed.

Lemma contains_false r p :
  TileRect.contains r p = false
  <-> TilePoint.x p < TileRect.left r \/ TileRect.right r < TilePoint.x p
      \/ TilePoint.y p < TileRect.top r \/ TileRect.bottom r < TilePoint.y p.
Proof.
  unfold TileRect.contains. rewrite !andb_false_iff.
  unfold Qgeb. rewrite <- !not_true_iff_false, !Qle_bool_iff.
  split.
  - intros [[[H|H]|H]|H]; apply Qnot_le_lt in H; tauto.
  - intros [H|[H|[H|H]]]; apply Qlt_not_le in H; tauto.
Qed.

Ltac middles :=
  unfold TileRect.leftMiddle, TileRect.topMiddle, TileRect.rightMiddle,
    TileRect.bottomMiddle, TileRect.left, TileRect.right, TileRect.top,
    TileRect.bottom in *;
  cbn [TilePoint.x TilePoint.y TileRect.x TileRect.y TileRect.width
       TileRect.height] in *;
  halves.

(** The four outcomes of [intersect] for a rectangle of positive size, by
    the side middles of [this] that [other] contains. *)
Lemma intersect_result this other :
  0 < TileRect.width this -> 0 < TileRect.height this ->
  let inside :=
    TileRect.left other <= TileRect.left this
    /\ TileRect.right this <= TileRect.right other
    /\ TileRect.top other <= TileRect.top this
    /\ TileRect.bottom this <= TileRect.bottom other in
  (inside /\ TileRect.intersect this other = TileRect.Null)
  \/ (~ inside /\ TileRect.intersect this other = TileRect.This)
  \/ (~ inside
      /\ exists r,
           TileRect.intersect this other = TileRect.Trimmed r
           /\ (TileRect.left this <= TileRect.left r
               /\ TileRect.right r <= TileRect.right this
               /\ TileRect.top this <= TileRect.top r
               /\ TileRect.bottom r <= TileRect.bottom this)
           /\ 0 < TileRect.width r /\ 0 < TileRect.height r
           /\ ~ overlaps r other).
Proof.
  intros Hw Hh inside. subst inside.
  destruct (TileRect.contains other (TileRect.leftMiddle this)) eqn:EL;
  destruct (TileRect.contains other (TileRect.topMiddle this)) eqn:ET;
  destruct (TileRect.contains other (TileRect.rightMiddle this)) eqn:ER;
  destruct (TileRect.contains other (TileRect.bottomMiddle this)) eqn:EB.
  1: { left. apply contains_iff in EL, ET, ER, EB.
       assert (Hin : TileRect.left other <= TileRect.left this
                     /\ TileRect.right this <= TileRect.right other
                     /\ TileRect.top other <= TileRect.top this
                     /\ TileRect.bottom this <= TileRect.bottom other)
         by (middles; repeat split; lra).
       split; [exact Hin|]. destruct Hin as (? & ? & ? & ?).
       apply intersect_covered; try assumption; apply Qlt_le_weak; assumption. }
  all: right.
  all: assert (Hout : ~ (TileRect.left other <= TileRect.left this
                         /\ TileRect.right this <= TileRect.right other
                         /\ TileRect.top other <= TileRect.top this
                         /\ TileRect.bottom this <= TileRect.bottom other))
         by (intros (? & ? & ? & ?);
             repeat match goal with
                    | H : TileRect.contains _ _ = false |- _ =>
                        apply contains_false in H
                    | H : TileRect.contains _ _ = true |- _ => clear H
                    end;
             middles;
             repeat match goal with
                    | H : _ \/ _ |- _ => destruct H as [H|H]
                    end; lra).
  all: unfold TileRect.intersect; rewrite EL, ET, ER, EB; cbn [andb];
    cbv beta iota zeta.
  all: assert (G1 : Qgeb (TileRect.left this) (TileRect.right this) = false)
         by (apply Qgeb_lt; unfold TileRect.left, TileRect.right; lra).
  all: assert (G2 : Qgeb (TileRect.top this) (TileRect.bottom this) = false)
         by (apply Qgeb_lt; unfold TileRect.top, TileRect.bottom; lra).
  all: try (left; split; [exact Hout|];
            rewrite G1, G2, !Qeq_bool_refl; reflexivity).
  all: rewrite ?G1, ?G2, ?orb_false_r, ?Qeq_bool_refl, ?andb_true_r; cbn [orb andb].
  all: repeat match goal with
              | H : TileRect.contains _ _ = true |- _ => apply contains_iff in H
              | H : TileRect.contains _ _ = false |- _ => apply contains_false in H
              end.
  all: match goal with
       | |- context [Qgeb ?a ?b] =>
           assert (G : Qgeb a b = false)
             by (apply Qgeb_lt; middles;
                 repeat match goal with
                        | H : _ \/ _ |- _ => destruct H as [H|H]
                        end;
                 q_minmax; lra);
           rewrite G; apply Qgeb_lt in G
       end.
  all: match goal with
       | |- context [Qeq_bool ?a ?b] => destruct (Qeq_bool a b)
       end.
  all: try (left; split; [exact Hout|reflexivity]).
  all: right; split; [exact Hout|]; eexists; split; [reflexivity|].
  all: clear Hout G1 G2; unfold overlaps; middles; revert G.
  all: q_minmax; intros G;
    (split; [split; [|split; [|split]]; lra|]);
    (split; [lra|]); (split; [lra|]); intros (? & ? & ? & ?); lra.
Qed.

(** X29: for a rectangle of positive size, [intersect] gives [null] exactly
    when [other] covers it; a new rectangle that it gives lies within the
    receiver, has positive size and shares no inner point with [other]. *)
Theorem intersect_null_iff_covered :
  forall this other : TileRect.t,
    0 < TileRect.width this -> 0 < TileRect.height this ->
    (TileRect.intersect this other = TileRect.Null
     <-> TileRect.left other <= TileRect.left this
         /\ TileRect.right this <= TileRect.right other
         /\ TileRect.top other <= TileRect.top this
         /\ TileRect.bottom this <= TileRect.bottom other)
    /\ forall r,
         TileRect.intersect this other = TileRect.Trimmed r ->
         (TileRect.left this <= TileRect.left r
          /\ TileRect.right r <= TileRect.right this
          /\ TileRect.top this <= TileRect.top r
          /\ TileRect.bottom r <= TileRect.bottom this)
         /\ 0 < TileRect.width r /\ 0 < TileRect.height r
         /\ ~ overlaps r other.
Proof.
  intros this other Hw Hh.
  destruct (intersect_result this other Hw Hh)
    as [[Hin E]|[[Hout E]|[Hout [r0 [E Hr]]]]]; rewrite E.
  - split; [tauto|]. discriminate.
  - split; [split; [discriminate|tauto]|]. discriminate.
  - split; [split; [discriminate|tauto]|]. intros r H. injection H as <-. exact Hr.
Qed.

Lemma intersect_null_iff_covered_witness :
  let this := TileRect.mk 10 10 20 10 in
  let other := TileRect.mk 0 0 20 30 in
  (TileRect.intersect this other = TileRect.Null
   <-> TileRect.left other <= TileRect.left this
       /\ TileRect.right this <= TileRect.right other
       /\ TileRect.top other <= TileRect.top this
       /\ TileRect.bottom this <= TileRect.bottom other)
  /\ forall r,
       TileRect.intersect this other = TileRect.Trimmed r ->
       (TileRect.left this <= TileRect.left r
        /\ TileRect.right r <= TileRect.right this
        /\ TileRect.top this <= TileRect.top r
        /\ TileRect.bottom r <= TileRect.bottom this)
       /\ 0 < TileRect.width r /\ 0 < TileRect.height r
       /\ ~ overlaps r other.
Proof.
  intros this other.
  apply (intersect_null_iff_covered this other); reflexivity.
Defined.

(** ** Neighbouring tiles *)

Section Neighbours.
Context {SR : SeedRandom}.

Lemma colourDispenser_other colours st g c st' g' :
  NoDup colours -> (2 <= List.length colours)%nat ->
  NoDup (Dispenser.group st) ->
  (forall x, Dispenser.lastColour st = Some x -> ~ In x (Dispenser.group st)) ->
  colourDispenser colours st g = Some (c, st', g') ->
  Dispenser.lastColour st <> Some c
  /\ Dispenser.lastColour st' = Some c
  /\ NoDup (Dispenser.group st')
  /\ ~ In c (Dispenser.group st').
Proof.
  intros Hnd Hlen Hg Hlast H.
  assert (Hstep : forall group g1,
            NoDup group ->
            (forall x, Dispenser.lastColour st = Some x -> hd_error group <> Some x) ->
            match group with
            | [] => None
            | c :: group' =>
                Some (c, Dispenser.mk (Dispenser.i st + 1) group' (Some c), g1)
            end = Some (c, st', g') ->
            Dispenser.lastColour st <> Some c
            /\ Dispenser.lastColour st' = Some c
            /\ NoDup (Dispenser.group st')
            /\ ~ In c (Dispenser.group st')).
  { intros group g1 Hn Hhd E. destruct group as [|c0 rest]; [discriminate|].
    injection E as <- <- <-. inversion Hn; subst. simpl.
    split; [|auto]. intros E. apply (Hhd c0 E). reflexivity. }
  unfold colourDispenser in H.
  destruct (JS.rem (Dispenser.i st) (Z.of_nat (List.length colours)))
    as [[| |]|] eqn:Er.
  2-4: apply (Hstep _ _ Hg) in H; [exact H|];
       intros x Hx E; apply (Hlast x Hx);
       destruct (Dispenser.group st); [discriminate|];
       injection E as ->; simpl; auto.
  pose proof (shuffle_perm _ colours g) as Hp.
  destruct (Randomizer.shuffle colours g) as [grp g1]. cbn [fst] in Hp.
  assert (Hnd' : NoDup grp)
    by (apply (Permutation_NoDup (Permutation_sym Hp)), Hnd).
  apply Permutation_length in Hp.
  destruct grp as [|a [|b rest]]; try (simpl in Hp; lia).
  cbn [hd_error] in H.
  destruct (sameColour (Some a) (Dispenser.lastColour st)) eqn:E.
  - apply sameColour_iff in E. unfold JS.splice1 in H. simpl in H.
    apply (Hstep (b :: rest ++ [a]) g1) in H; [exact H| |].
    + change (NoDup ((b :: rest) ++ [a])).
      apply (Permutation_NoDup (l := a :: b :: rest)); [|exact Hnd'].
      change (a :: b :: rest) with ([a] ++ (b :: rest)). apply Permutation_app_comm.
    + intros x Hx Hb. simpl in Hb. injection Hb as ->.
      rewrite Hx in E. injection E as ->. inversion Hnd'; subst. simpl in *. tauto.
  - apply (Hstep (a :: b :: rest) g1) in H; [exact H|exact Hnd'|].
    intros x Hx Ha. simpl in Ha. injection Ha as ->. rewrite Hx in E.
    assert (sameColour (Some x) (Some x) = true) by (now apply sameColour_iff).
    congruence.
Qed.

Variable model : TileParametersModel.
Variable colourWeights : JSObject.t Z.
Variable favourites : list string.

Lemma fillRow_neighbours colours rowKey :
  NoDup colours -> (2 <= List.length colours)%nat ->
  forall n i st g row g',
    fillRow model colours rowKey n i st g = Some (row, g') ->
    NoDup (Dispenser.group st) ->
    (forall x, Dispenser.lastColour st = Some x -> ~ In x (Dispenser.group st)) ->
    (forall t, hd_error row = Some t -> Dispenser.lastColour st <> Some (Tile.colour t))
    /\ forall j t1 t2,
         nth_error row j = Some t1 -> nth_error row (S j) = Some t2 ->
         Tile.colour t1 <> Tile.colour t2.
Proof.
  intros Hnd Hlen. induction n as [|n IH]; intros i st g row g' H Hg Hlast;
    simpl in H;
    destruct (colourDispenser colours st g) as [[[c st1] g1]|] eqn:Ec;
    try discriminate.
  - injection H as <- <-. split; [discriminate|]. intros [|j]; discriminate.
  - destruct (fillRow model colours rowKey n (i + 1) st1 g1) as [[row1 g2]|] eqn:Ef;
      [|discriminate].
    injection H as <- <-.
    apply colourDispenser_other in Ec as (Hc & Hl1 & Hg1 & Hn1); try assumption.
    apply IH in Ef as [Hhd Hadj]; [|exact Hg1|].
    2:{ intros x Hx. rewrite Hl1 in Hx. injection Hx as <-. exact Hn1. }
    split.
    + intros t Ht. simpl in Ht. injection Ht as <-. exact Hc.
    + intros [|j] t1 t2 H1 H2; simpl in H1, H2.
      * injection H1 as <-. simpl. intros E.
        apply (Hhd t2); [now destruct row1; [discriminate|injection H2 as ->]|].
        rewrite Hl1. now f_equal.
      * eapply Hadj; eauto.
Qed.

Lemma two_in_length (T : Type) (l : list T) a b :
  a <> b -> In a l -> In b l -> (2 <= List.length l)%nat.
Proof.
  intros Hne Ha Hb. destruct l as [|x [|y l]]; simpl in *;
    [contradiction| |lia].
  destruct Ha as [->|[]], Hb as [->|[]]. congruence.
Qed.

Lemma baseColourSupplier_distinct g :
  NoDup favourites -> NoDup (JSObject.keys colourWeights) ->
  (forall c, In c favourites -> In c (JSObject.keys colourWeights)) ->
  (2 <= List.length (JSObject.keys colourWeights))%nat ->
  (2 <= groupSize model)%Z ->
  let colours := fst (baseColourSupplier model colourWeights favourites g) in
  NoDup colours /\ (2 <= List.length colours)%nat.
Proof.
  intros Hf Hk Hsub Hlen Hgs. unfold baseColourSupplier.
  pose proof (shuffle_perm _ favourites g) as Pf.
  destruct (Randomizer.shuffle favourites g) as [favs g1].
  match goal with
  | |- context [Randomizer.shuffle ?l g1] =>
      pose proof (shuffle_perm _ l g1) as Po;
      destruct (Randomizer.shuffle l g1) as [others g2]
  end.
  cbn [fst] in *.
  assert (Hall : NoDup (favs ++ others)).
  { apply NoDup_app.
    - apply (Permutation_NoDup (Permutation_sym Pf)), Hf.
    - apply (Permutation_NoDup (Permutation_sym Po)), NoDup_filter, Hk.
    - intros c Hc Ho. apply (Permutation_in _ Pf) in Hc.
      apply (Permutation_in _ Po), filter_In in Ho. destruct Ho as [_ Ho].
      apply negb_true_iff in Ho. unfold includes in Ho.
      assert (existsb (String.eqb c) favourites = true); [|congruence].
      apply existsb_exists. exists c. split; [exact Hc|apply String.eqb_refl]. }
  assert (Hcover : forall c, In c (JSObject.keys colourWeights) ->
                             In c (favs ++ others)).
  { intros c Hc. apply in_or_app.
    destruct (includes favourites c) eqn:Ei.
    - left. unfold includes in Ei. apply existsb_exists in Ei as [x [Hx Ex]].
      apply String.eqb_eq in Ex. subst x.
      now apply (Permutation_in _ (Permutation_sym Pf)).
    - right. apply (Permutation_in _ (Permutation_sym Po)), filter_In.
      split; [exact Hc|]. now rewrite Ei. }
  assert (Hlen2 : (2 <= List.length (favs ++ others))%nat).
  { destruct (JSObject.keys colourWeights) as [|a [|b ks]] eqn:Ek;
      try (simpl in Hlen; lia).
    apply (two_in_length _ _ a b).
    - inversion Hk; subst. simpl in *. intros ->. tauto.
    - apply Hcover. simpl. auto.
    - apply Hcover. simpl. auto. }
  unfold JS.slice0, JS.clamp, JS.toIndex.
  destruct (groupSize model <? 0)%Z eqn:E; [apply Z.ltb_lt in E; lia|].
  split.
  - rewrite <- (firstn_skipn (Nat.min (Z.to_nat (groupSize model))
                               (List.length (favs ++ others))) (favs ++ others))
      in Hall.
    now apply NoDup_app_remove_r in Hall.
  - rewrite length_firstn. lia.
Qed.

Lemma generateRow_neighbours rowKey g r g' :
  (complexity model <= 0)%Z -> rotation model = 0%Z ->
  NoDup favourites -> NoDup (JSObject.keys colourWeights) ->
  (forall c, In c favourites -> In c (JSObject.keys colourWeights)) ->
  (2 <= List.length (JSObject.keys colourWeights))%nat ->
  (2 <= groupSize model)%Z ->
  generateRow model colourWeights favourites rowKey g = Some (r, g') ->
  forall j t1 t2,
    nth_error (TileRow.columns r) j = Some t1 ->
    nth_error (TileRow.columns r) (S j) = Some t2 ->
    Tile.colour t1 <> Tile.colour t2.
Proof.
  intros Hc Hrot Hf Hk Hsub Hlen Hgs. unfold generateRow, colourSupplier.
  destruct (0 <? complexity model)%Z eqn:E; [apply Z.ltb_lt in E; lia|].
  pose proof (baseColourSupplier_distinct g Hf Hk Hsub Hlen Hgs) as [Hnd Hl].
  destruct (baseColourSupplier model colourWeights favourites g) as [colours g1].
  cbn [fst] in *.
  destruct (fillRow model colours rowKey _ 0 Dispenser.init g1)
    as [[row g2]|] eqn:Ef; [|discriminate].
  intros H. injection H as <- <-. cbn [TileRow.columns].
  rewrite Hrot. unfold rotate. cbn [Z.eqb].
  apply (fillRow_neighbours colours rowKey Hnd Hl) in Ef as [_ Hadj];
    [exact Hadj|constructor|discriminate].
Qed.

Lemma yieldRows_neighbours :
  (complexity model <= 0)%Z -> rotation model = 0%Z ->
  NoDup favourites -> NoDup (JSObject.keys colourWeights) ->
  (forall c, In c favourites -> In c (JSObject.keys colourWeights)) ->
  (2 <= List.length (JSObject.keys colourWeights))%nat ->
  (2 <= groupSize model)%Z ->
  forall n i g rows,
    yieldRows model colourWeights favourites n i g = Some rows ->
    forall r, In r rows ->
      forall j t1 t2,
        nth_error (TileRow.columns r) j = Some t1 ->
        nth_error (TileRow.columns r) (S j) = Some t2 ->
        Tile.colour t1 <> Tile.colour t2.
Proof.
  intros Hc Hrot Hf Hk Hsub Hlen Hgs.
  induction n as [|n IH]; intros i g rows H; simpl in H.
  - injection H as <-. intros r [].
  - destruct (generateRow model colourWeights favourites i g) as [[r0 g1]|] eqn:Er;
      [|discriminate].
    destruct (yieldRows model colourWeights favourites n (i - 1) g1) as [rest|] eqn:Ey;
      [|discriminate].
    injection H as <-. intros r [<-|Hin].
    + eapply generateRow_neighbours; eauto.
    + eapply IH; eauto.
Qed.

End Neighbours.

Lemma favourite_names_nodup (colours : list ColourSpec) :
  NoDup (map name colours) -> NoDup (map name (filter favourite colours)).
Proof.
  intros Hnd. induction colours as [|c colours IH]; [constructor|].
  cbn [map filter] in *. apply NoDup_cons_iff in Hnd as [Hc Hrest].
  destruct (favourite c); [|exact (IH Hrest)].
  cbn [map]. apply NoDup_cons; [|exact (IH Hrest)].
  intros Hin. apply Hc. apply in_map_iff in Hin as [c' [E Hc']].
  apply filter_In in Hc' as [Hc' _]. rewrite <- E. now apply in_map.
Qed.

Lemma colourWeightsOf_nodup model :
  NoDup (JSObject.keys (colourWeightsOf model)).
Proof.
  apply (Permutation_NoDup (Permutation_sym (keys_perm _ _))).
  unfold colourWeightsOf.
  assert (H : forall l (o : JSObject.t Z),
            NoDup (map fst o) ->
            NoDup (map fst (fold_left
                     (fun o c =>
                        if String.eqb (name c) "__proto__" then o
                        else JSObject.set o (name c) (weight c)) l o))).
  { induction l as [|c l IH]; intros o Ho; cbn [fold_left]; [exact Ho|].
    apply IH. destruct (String.eqb (name c) "__proto__"); [exact Ho|].
    now apply set_keys_nodup. }
  apply H. constructor.
Qed.

(** X30: with complexity 0, no rotation, a group size of at least 2 and at
    least two enabled colours, all of different names and none of them
    named [__proto__], no two tiles next to each other in a row of the
    generated pattern have the same colour. *)
Theorem neighbouring_tiles_differ :
  forall (SR : SeedRandom) (model : TileParametersModel) (rows : list TileRow.t),
    (complexity model <= 0)%Z -> rotation model = 0%Z ->
    (2 <= groupSize model)%Z ->
    NoDup (map name (enabledColours model)) ->
    ~ In "__proto__"%string (map name (enabledColours model)) ->
    (2 <= List.length (enabledColours model))%nat ->
    generateRows model = Some rows ->
    forall r j t1 t2,
      In r rows ->
      nth_error (TileRow.columns r) j = Some t1 ->
      nth_error (TileRow.columns r) (S j) = Some t2 ->
      Tile.colour t1 <> Tile.colour t2.
Proof.
  intros SR model rows Hc Hrot Hgs Hnd Hproto Hlen H r j t1 t2 Hr H1 H2.
  rewrite generate_rev in H.
  destruct (yieldRows model (colourWeightsOf model) (favouritesOf model) _ _ _)
    as [yielded|] eqn:Ey; [|discriminate].
  simpl in H. injection H as <-. apply in_rev in Hr.
  assert (Hkey : forall c, In c (map name (enabledColours model)) ->
                           In c (JSObject.keys (colourWeightsOf model))).
  { intros c Hin. apply colourWeightsOf_keys. split; [exact Hin|].
    intros ->. contradiction. }
  refine (yieldRows_neighbours model (colourWeightsOf model) (favouritesOf model)
            Hc Hrot _ (colourWeightsOf_nodup model) _ _ Hgs _ _ _ _ Ey r Hr
            j t1 t2 H1 H2).
  - unfold favouritesOf. now apply favourite_names_nodup.
  - intros c Hin. apply Hkey. unfold favouritesOf in Hin.
    apply in_map_iff in Hin as [x [<- Hx]]. apply filter_In in Hx.
    apply in_map. tauto.
  - destruct (enabledColours model) as [|a [|b l]] eqn:El;
      try (simpl in Hlen; lia).
    apply (two_in_length _ _ (name a) (name b)).
    + simpl in Hnd. inversion Hnd; subst. simpl in *. intros E. rewrite E in *. tauto.
    + apply Hkey. simpl. auto.
    + apply Hkey. simpl. auto.
Qed.

Lemma neighbouring_tiles_differ_witness :
  Tile.colour (Tile.mk 2 1 "B") <> Tile.colour (Tile.mk 3 1 "A").
Proof.
  apply (neighbouring_tiles_differ scripted (Sample.twoColours "0110" 2 3 0 0)
           [TileRow.mk 1 [Tile.mk 1 1 "A"; Tile.mk 2 1 "B"; Tile.mk 3 1 "A"];
            TileRow.mk 2 [Tile.mk 1 2 "B"; Tile.mk 2 2 "A"; Tile.mk 3 2 "B"]])
    with (r := TileRow.mk 1 [Tile.mk 1 1 "A"; Tile.mk 2 1 "B"; Tile.mk 3 1 "A"])
         (j := 1%nat).
  - simpl. lia.
  - reflexivity.
  - simpl. lia.
  - simpl. repeat constructor; simpl; intuition discriminate.
  - simpl. intuition discriminate.
  - simpl. lia.
  - vm_compute. reflexivity.
  - simpl. auto.
  - reflexivity.
  - reflexivity.
Defined.

(** Beside a colour named [__proto__], which never becomes a key of
    [colourWeights], colour A fills the row alone. *)
Example proto_beside_is_left_out :
  option_map (map rowColours) (@generateRows scripted Sample.protoBeside)
  = Some [["A"%string; "A"%string; "A"%string]].
Proof. vm_compute. reflexivity. Qed.

(** ** The table of tiles needed *)

Lemma insertSorted_perm s l : Permutation (insertSorted s l) (s :: l).
Proof.
  induction l as [|s' l IH]; simpl; [reflexivity|].
  destruct (String.leb s s'); [reflexivity|]. rewrite IH. apply perm_swap.
Qed.

Lemma sortBy_perm l : Permutation (sortBy l) l.
Proof.
  induction l as [|s l IH]; simpl; [reflexivity|].
  rewrite insertSorted_perm. now apply perm_skip.
Qed.

Lemma insertSorted_sorted s l :
  Sorted (fun a b => String.leb a b = true) l ->
  Sorted (fun a b => String.leb a b = true) (insertSorted s l).
Proof.
  induction l as [|s' l IH]; intros Hs; simpl.
  - repeat constructor.
  - destruct (String.leb s s') eqn:E.
    + constructor; [exact Hs|]. constructor. exact E.
    + inversion Hs as [|? ? Hs' Hhd]; subst. constructor; [now apply IH|].
      destruct l as [|s'' l]; simpl.
      * constructor. destruct (String.leb_total s s'); congruence.
      * destruct (String.leb s s''); constructor.
        -- destruct (String.leb_total s s'); congruence.
        -- now inversion Hhd.
Qed.

Lemma sortBy_sorted l : Sorted (fun a b => String.leb a b = true) (sortBy l).
Proof.
  induction l as [|s l IH]; simpl; [constructor|]. now apply insertSorted_sorted.
Qed.

Lemma tileCounts_fold model rows :
  tileCounts model rows = fold_left countTile (tilesNeeded model rows) [].
Proof.
  unfold tileCounts, tilesNeeded. generalize (@nil (string * TileCount)).
  induction rows as [|r rows IH]; intros o; simpl; [reflexivity|].
  rewrite filter_app, fold_left_app. apply IH.
Qed.

Lemma countTile_plain (o : JSObject.t TileCount) t :
  inherits (Tile.colour t) = false ->
  countTile o t
  = JSObject.set o (Tile.colour t)
      (match JSObject.get o (Tile.colour t) with
       | Some (Count n) => Count (n + 1)
       | Some Text => Text
       | None => Count 1
       end).
Proof.
  intros Hp. unfold countTile, nextCount. rewrite Hp.
  destruct (String.eqb (Tile.colour t) "__proto__") eqn:E; [|reflexivity].
  apply String.eqb_eq in E. rewrite E in Hp. discriminate.
Qed.

Lemma countTile_get tiles :
  (forall t, In t tiles -> inherits (Tile.colour t) = false) ->
  forall (o : JSObject.t TileCount) colour,
    JSObject.get (fold_left countTile tiles o) colour
    = match JSObject.get o colour,
            count_occ string_dec (map Tile.colour tiles) colour with
      | Some Text, _ => Some Text
      | Some (Count n), k => Some (Count (n + Z.of_nat k))
      | None, O => None
      | None, k => Some (Count (Z.of_nat k))
      end.
Proof.
  induction tiles as [|t tiles IH]; intros Hp o colour.
  - simpl. destruct (JSObject.get o colour) as [[n|]|]; try reflexivity.
    do 2 f_equal. lia.
  - cbn [fold_left map]. rewrite IH by (intros t' Ht'; apply Hp; simpl; auto).
    rewrite countTile_plain by (apply Hp; simpl; auto). rewrite get_set.
    destruct (String.eqb (Tile.colour t) colour) eqn:E.
    + apply String.eqb_eq in E. rewrite E, count_occ_cons_eq by reflexivity.
      destruct (JSObject.get o colour) as [[n|]|]; try reflexivity;
        do 2 f_equal; lia.
    + apply String.eqb_neq in E. rewrite count_occ_cons_neq by exact E.
      reflexivity.
Qed.

Lemma countTile_nodup tiles :
  forall o : JSObject.t TileCount,
    NoDup (map fst o) -> NoDup (map fst (fold_left countTile tiles o)).
Proof.
  induction tiles as [|t tiles IH]; intros o H; simpl; [exact H|].
  apply IH. unfold countTile. destruct (String.eqb _ _); [exact H|].
  now apply set_keys_nodup.
Qed.

Lemma count_once (ks : list string) (c : string) :
  NoDup ks -> In c ks ->
  fold_right Z.add 0%Z
    (map (fun k => if string_dec c k then 1%Z else 0%Z) ks) = 1%Z.
Proof.
  induction ks as [|k ks IH]; intros Hnd Hin; [contradiction|].
  inversion Hnd as [|? ? Hk Hnd']; subst. simpl.
  destruct (string_dec c k) as [->|Hne].
  - assert (H0 : fold_right Z.add 0%Z
                   (map (fun k' => if string_dec k k' then 1%Z else 0%Z) ks) = 0%Z).
    { clear IH Hnd Hnd' Hin. induction ks as [|k' ks IH]; [reflexivity|]. simpl.
      destruct (string_dec k k') as [->|_]; [exfalso; apply Hk; simpl; auto|].
      rewrite IH; [reflexivity|]. intros H. apply Hk. simpl. auto. }
    rewrite H0. reflexivity.
  - destruct Hin as [->|Hin]; [congruence|]. rewrite IH by assumption. reflexivity.
Qed.

Lemma counts_add_up (ks cs : list string) :
  NoDup ks -> (forall c, In c cs -> In c ks) ->
  fold_right Z.add 0%Z (map (fun k => Z.of_nat (count_occ string_dec cs k)) ks)
  = Z.of_nat (List.length cs).
Proof.
  intros Hnd. induction cs as [|c cs IH]; intros Hin.
  - simpl. induction ks as [|k ks IHk]; [reflexivity|]. simpl.
    inversion Hnd; subst. now rewrite IHk.
  - assert (Hsplit : forall l,
              fold_right Z.add 0%Z
                (map (fun k => Z.of_nat (count_occ string_dec (c :: cs) k)) l)
              = (fold_right Z.add 0%Z
                   (map (fun k => if string_dec c k then 1 else 0) l)
                 + fold_right Z.add 0%Z
                     (map (fun k => Z.of_nat (count_occ string_dec cs k)) l))%Z).
    { induction l as [|k l IHl]; [reflexivity|]. cbn [map fold_right].
      rewrite IHl. simpl count_occ. destruct (string_dec c k); lia. }
    rewrite Hsplit, IH, count_once; [|exact Hnd| |].
    + cbn [List.length]. lia.
    + apply Hin. simpl. auto.
    + intros c' Hc'. apply Hin. simpl. auto.
Qed.

(** X28: when no tile outside the holes has a colour named like a property
    of [Object.prototype], the table of tiles needed on the export page
    lists, in ascending order of name and once each, exactly the colours of
    the tiles that lie in no hole, each with the number of such tiles of
    that colour, and the numbers add up to the number of tiles outside the
    holes. *)
Theorem tile_counts_add_up :
  forall (model : TileParametersModel) (rows : list TileRow.t),
    (forall t, In t (tilesNeeded model rows) -> inherits (Tile.colour t) = false) ->
    let needed := map Tile.colour (tilesNeeded model rows) in
    let table := tileCountLines model rows in
    Sorted (fun a b => String.leb a b = true) (map fst table)
    /\ NoDup (map fst table)
    /\ (forall colour, In colour (map fst table) <-> In colour needed)
    /\ (forall colour n, In (colour, n) table ->
          n = Some (Count (Z.of_nat (count_occ string_dec needed colour)))
          /\ (1 <= count_occ string_dec needed colour)%nat)
    /\ fold_right Z.add 0%Z
         (map (fun line => match snd line with Some (Count n) => n | _ => 0%Z end)
            table)
       = Z.of_nat (List.length needed).
Proof.
  intros model rows Hplain needed table. subst table. unfold tileCountLines.
  rewrite tileCounts_fold. fold (tilesNeeded model rows).
  set (counts := fold_left countTile (tilesNeeded model rows) []).
  set (keys := sortBy (JSObject.keys counts)).
  assert (Hget : forall colour,
            JSObject.get counts colour
            = match count_occ string_dec needed colour with
              | O => None
              | k => Some (Count (Z.of_nat k))
              end).
  { intros colour. subst counts needed. rewrite countTile_get by exact Hplain.
    reflexivity. }
  assert (Hperm : Permutation keys (map fst counts)).
  { subst keys. rewrite sortBy_perm. apply keys_perm. }
  assert (Hnd : NoDup keys).
  { apply (Permutation_NoDup (Permutation_sym Hperm)).
    subst counts. apply countTile_nodup. constructor. }
  assert (Hin : forall colour, In colour keys <-> In colour needed).
  { intros colour. split.
    - intros H. apply (Permutation_in _ Hperm), get_some_in in H.
      rewrite Hget in H. apply (count_occ_In string_dec).
      destruct (count_occ _ _ _); [congruence|lia].
    - intros H. apply (count_occ_In string_dec) in H.
      apply (Permutation_in _ (Permutation_sym Hperm)), get_some_in.
      rewrite Hget. destruct (count_occ _ _ _); [lia|discriminate]. }
  assert (Hfst : map fst (map (fun colour => (colour, JSObject.get counts colour)) keys)
                 = keys).
  { rewrite map_map. simpl. apply map_id. }
  rewrite Hfst. split; [apply sortBy_sorted|]. split; [exact Hnd|].
  split; [exact Hin|]. split.
  - intros colour n H. apply in_map_iff in H as [c [E Hc]].
    injection E as -> <-. apply Hin, (count_occ_In string_dec) in Hc.
    rewrite Hget. destruct (count_occ _ _ _); [lia|]. split; [reflexivity|lia].
  - rewrite map_map. cbn [snd].
    rewrite <- (counts_add_up keys needed Hnd (fun c H => proj2 (Hin c) H)).
    f_equal. apply map_ext. intros colour. rewrite Hget.
    now destruct (count_occ _ _ _).
Qed.

Lemma tile_counts_add_up_witness :
  let model :=
    paramsReducer (Sample.twoColours "0110" 2 3 0 0) (ActAddHole (mkRegion 1 1 1 2)) in
  let rows :=
    [TileRow.mk 1 [Tile.mk 1 1 "A"; Tile.mk 2 1 "B"; Tile.mk 3 1 "A"];
     TileRow.mk 2 [Tile.mk 1 2 "B"; Tile.mk 2 2 "A"; Tile.mk 3 2 "B"]] in
  let needed := map Tile.colour (tilesNeeded model rows) in
  let table := tileCountLines model rows in
  Sorted (fun a b => String.leb a b = true) (map fst table)
  /\ NoDup (map fst table)
  /\ (forall colour, In colour (map fst table) <-> In colour needed)
  /\ (forall colour n, In (colour, n) table ->
        n = Some (Count (Z.of_nat (count_occ string_dec needed colour)))
        /\ (1 <= count_occ string_dec needed colour)%nat)
  /\ fold_right Z.add 0%Z
       (map (fun line => match snd line with Some (Count n) => n | _ => 0%Z end)
          table)
     = Z.of_nat (List.length needed).
Proof.
  intros model rows.
  apply (tile_counts_add_up model rows).
  intros t Ht. vm_compute in Ht.
  repeat (destruct Ht as [<-|Ht]; [reflexivity|]). contradiction.
Defined.
